(** * skipper: the proxy execution context and the tee (shadow traffic) filter

    A shallow embedding of [proxy/context.go] and [filters/tee/tee.go].

    Conventions of the embedding.
    - Go objects that the code shares through pointers and whose sharing
      matters (header maps, the backing arrays of string slices, pipes) live
      in a [world]; a pointer is a location [loc], a nil pointer or nil map
      is [None].
    - A struct reached through a pointer that is never compared or aliased
      by the modelled code ([*url.URL], the [*http.Request] and the
      [*http.Response] inside the context) is kept by value; an update
      through the pointer replaces the value.
    - What the two files call in Go's standard library is modelled after
      the library: [io.Pipe], [bytes.Buffer.Read], the loop of
      [regexp.ReplaceAllString].  [url.Parse], [regexp.Compile], the
      matching engine and [http.Client.Do] are parameters.
    - A call that does not return is an [outcome]: [Panic] for a run-time
      panic (a nil dereference), [Block] for a pipe operation that waits
      for the other end of the pipe for ever.
    - The code is followed in the goroutine that reads the body of the
      request.  The goroutine at the other end of the filter's pipe, the
      client of the shadow backend, is part of the state of the pipe: the
      reads and the close it is going to perform, and what its reads
      have returned.
    - Strings are byte strings, as in Go. *)

From stdpp Require Import gmap strings list fin_maps.
From Stdlib Require Import ZArith Lia.
From Stdlib.Strings Require Import Byte Ascii.

(* ===================================================================== *)
(** * The Go run time: errors, outcomes, slices, maps, pipes               *)
(* ===================================================================== *)

Module go.

Definition loc := positive.

(** A dynamic value of type [interface{}], as it occurs in filter
    arguments and in the state bag. *)
Inductive iface :=
| INil
| IString (s : string)
| IFloat (mantissa : Z) (exponent : Z)
| IInt (n : Z)
| IBool (b : bool).

#[global] Instance iface_eq_dec : EqDecision iface.
Proof. solve_decision. Defined.

(** Go error values, compared by identity as the code does ([err != io.EOF]).
    [ErrOther] stands for any error value created elsewhere. *)
Inductive error :=
| EOF
| ErrClosedPipe
| ErrInvalidFilterParameters
| ErrInvalidConfig (name : string) (got : list iface)
| ErrOther (msg : string).

#[global] Instance error_eq_dec : EqDecision error.
Proof. solve_decision. Defined.

(** The result of a call: a value, a run-time panic, or a call that waits
    for ever. *)
Inductive outcome (A : Type) :=
| Ok (a : A)
| Panic
| Block.
Arguments Ok {A} a.
Arguments Panic {A}.
Arguments Block {A}.

Definition obind {A B} (m : outcome A) (f : A → outcome B) : outcome B :=
  match m with
  | Ok a => f a
  | Panic => Panic
  | Block => Block
  end.

#[global] Instance outcome_ret : MRet outcome := λ A a, Ok a.
#[global] Instance outcome_bind : MBind outcome := λ A B f m, obind m f.

(** [v.(string)] in its two-result form. *)
Definition as_string (v : iface) : string * bool :=
  match v with
  | IString s => (s, true)
  | _ => (""%string, false)
  end.

(** A [[]string]: nil, or a window on a backing array. *)
Inductive slice :=
| NilSlice
| Slice (arr : loc) (off len cap : nat).

(** What the goroutine that holds the read end of a pipe does with it: a
    [Read] with a buffer of [n] bytes, or [CloseWithError(err)], of which
    [Close()] is the case of a nil error. *)
Inductive peer_action :=
| PeerRead (n : nat)
| PeerClose (err : option error).

(** [*io.Pipe].  The pipe has no buffer: a [Write] hands its bytes to the
    [Read]s of the goroutine at the other end and returns when they have
    taken all of them, or when an end is closed.  The tee is the writer,
    so the goroutine at the read end is part of the state: [p_peer] is
    what it is going to do with the read end, in order, and [p_recv] is
    what those of its reads that have met a write have returned, oldest
    first.  A pipe with an empty [p_peer] is one that nobody reads from.
    [p_werr] and [p_rerr] are the errors the two ends have been closed
    with. *)
Record pipe := MkPipe {
  p_peer : list peer_action;
  p_recv : list (list byte * option error);
  p_werr : option error;
  p_rerr : option error;
}.

(** One line of the logger: level, message, attached error. *)
Inductive log_level := LError | LWarn.
Record log_entry := MkLog { l_level : log_level; l_msg : string; l_err : error }.

Record world := MkWorld {
  arrays : gmap loc (list string);
  hmaps : gmap loc (gmap string slice);
  pipes : gmap loc pipe;
  logs : list log_entry;
  stderr : list string;
}.

Definition empty_world : world := MkWorld ∅ ∅ ∅ [] [].

Definition set_arrays (f : gmap loc (list string) → gmap loc (list string)) (σ : world) : world :=
  MkWorld (f (arrays σ)) (hmaps σ) (pipes σ) (logs σ) (stderr σ).
Definition set_hmaps (f : gmap loc (gmap string slice) → gmap loc (gmap string slice)) (σ : world) : world :=
  MkWorld (arrays σ) (f (hmaps σ)) (pipes σ) (logs σ) (stderr σ).
Definition set_pipes (f : gmap loc pipe → gmap loc pipe) (σ : world) : world :=
  MkWorld (arrays σ) (hmaps σ) (f (pipes σ)) (logs σ) (stderr σ).
Definition log_write (e : log_entry) (σ : world) : world :=
  MkWorld (arrays σ) (hmaps σ) (pipes σ) (logs σ ++ [e]) (stderr σ).
Definition println (s : string) (σ : world) : world :=
  MkWorld (arrays σ) (hmaps σ) (pipes σ) (logs σ) (stderr σ ++ [s]).

(** ** Slices *)

(** The elements of a slice. *)
Definition slice_elems (σ : world) (s : slice) : list string :=
  match s with
  | NilSlice => []
  | Slice a off len _ =>
      match arrays σ !! a with
      | Some cells => take len (drop off cells)
      | None => []
      end
  end.

Definition slice_len (s : slice) : nat :=
  match s with NilSlice => 0 | Slice _ _ len _ => len end.

Definition slice_cap (s : slice) : nat :=
  match s with NilSlice => 0 | Slice _ _ _ cap => cap end.

(** [make([]string, 0, c)] *)
Definition make_slice (c : nat) (σ : world) : slice * world :=
  let a := fresh (dom (arrays σ)) in
  (Slice a 0 0 c, set_arrays (insert a (replicate c ""%string)) σ).

(** [append(s, v)]: in place while the capacity lasts, otherwise into a
    larger fresh array. *)
Definition append (s : slice) (v : string) (σ : world) : slice * world :=
  match s with
  | Slice a off len cap =>
      if decide (len < cap) then
        (Slice a off (S len) cap,
         set_arrays (alter (λ cells, <[(off + len) := v]> cells) a) σ)
      else
        let a' := fresh (dom (arrays σ)) in
        let cap' := (2 * cap + 1) in
        (Slice a' 0 (S len) cap',
         set_arrays (insert a' (slice_elems σ s ++ v :: replicate (cap' - S len) ""%string)) σ)
  | NilSlice =>
      let a' := fresh (dom (arrays σ)) in
      (Slice a' 0 1 1, set_arrays (insert a' [v]) σ)
  end.

(** [s[i] = v] on a slice; out of range panics. *)
Definition slice_store (s : slice) (i : nat) (v : string) (σ : world) : outcome world :=
  match s with
  | Slice a off len _ =>
      if decide (i < len) then
        Ok (set_arrays (alter (λ cells, <[(off + i) := v]> cells) a) σ)
      else Panic
  | NilSlice => Panic
  end.

(** ** Pipes ([io.Pipe]) *)

(** A new pipe: no goroutine reads from it yet. *)
Definition new_pipe : pipe := MkPipe [] [] None None.

(** [io.Pipe()]: both ends are the location of the new pipe. *)
Definition Pipe (σ : world) : loc * world :=
  let p := fresh (dom (pipes σ)) in
  (p, set_pipes (insert p new_pipe) σ).

Definition pipe_done (p : pipe) : bool :=
  bool_decide (is_Some (p_werr p)) || bool_decide (is_Some (p_rerr p)).

Definition writeCloseError (p : pipe) : error :=
  match p_werr p, p_rerr p with
  | None, Some rerr => rerr
  | _, _ => ErrClosedPipe
  end.

Definition readCloseError (p : pipe) : error :=
  match p_rerr p, p_werr p with
  | None, Some werr => werr
  | _, _ => ErrClosedPipe
  end.

(** [pipe.closeWrite]: the error of the first close stays, as the library
    documents for [CloseWithError]. *)
Definition closeWrite (err : option error) (p : pipe) : pipe :=
  let e := match err with None => EOF | Some e => e end in
  MkPipe (p_peer p) (p_recv p)
         (match p_werr p with None => Some e | Some e0 => Some e0 end)
         (p_rerr p).

(** [pipe.closeRead] *)
Definition closeRead (err : option error) (p : pipe) : pipe :=
  let e := match err with None => ErrClosedPipe | Some e => e end in
  MkPipe (p_peer p) (p_recv p) (p_werr p)
         (match p_rerr p with None => Some e | Some e0 => Some e0 end).

(** The loop of [pipe.write] on an open pipe, [for once := true; once ||
    len(b) > 0; once = false]: each turn offers what is left of [b] to the
    read end and waits.  A read of the other goroutine takes as much of
    it as its buffer holds, and returns; a close of the read end ends the
    write with the bytes taken so far and the error of the close; when the
    other goroutine does neither, the write waits for ever.  [n] counts
    the bytes taken. *)
Fixpoint pipe_serve (peer : list peer_action) (once : bool) (b : list byte) (n : nat)
    (recv : list (list byte * option error)) : outcome ((nat * option error) * pipe) :=
  if negb once && bool_decide (b = []) then Ok ((n, None), MkPipe peer recv None None)
  else
    match peer with
    | [] => Block
    | PeerRead k :: peer' =>
        let nr := k `min` length b in
        pipe_serve peer' false (drop nr b) (n + nr) (recv ++ [(take nr b, None)])
    | PeerClose err :: peer' =>
        let p' := closeRead err (MkPipe peer' recv None None) in
        Ok ((n, Some (writeCloseError p')), p')
    end.

(** [pipe.write]: on a pipe that is closed it returns at once. *)
Definition pipe_write (b : list byte) (p : pipe) : outcome ((nat * option error) * pipe) :=
  if pipe_done p then Ok ((0, Some (writeCloseError p)), p)
  else pipe_serve (p_peer p) true b 0 (p_recv p).

(** [pipe.read] while no [Write] is under way: on a pipe that is closed it
    returns the error of the close, on an open one it waits for a write.
    The reads that meet a write are those of [p_peer]. *)
Definition pipe_read (n : nat) (p : pipe) : outcome ((list byte * option error) * pipe) :=
  if pipe_done p then Ok (([], Some (readCloseError p)), p)
  else Block.

(** Methods of [*io.PipeWriter]; a nil receiver panics. *)
Definition PipeWriter_Write (w : loc) (b : list byte) (σ : world)
  : outcome ((nat * option error) * world) :=
  match pipes σ !! w with
  | Some p => '(r, p') ← pipe_write b p; Ok (r, set_pipes (insert w p') σ)
  | None => Panic
  end.

Definition PipeWriter_CloseWithError (w : loc) (err : option error) (σ : world)
  : outcome world :=
  match pipes σ !! w with
  | Some p => Ok (set_pipes (insert w (closeWrite err p)) σ)
  | None => Panic
  end.

Definition PipeWriter_Close (w : loc) (σ : world) : outcome world :=
  PipeWriter_CloseWithError w None σ.

End go.

Export go.


(* ===================================================================== *)
(** * net/http and net/url: the value types the two packages work on       *)
(* ===================================================================== *)

Module http.

Definition StatusNotFound : Z := 404%Z.

(** [url.URL]; [User] is the pointer to the immutable user info. *)
Record URL := MkURL {
  Scheme : string;
  Opaque : string;
  User : option (string * option string);
  Host : string;
  Path : string;
  RawPath : string;
  RawQuery : string;
  Fragment : string;
}.

(** An [io.ReadCloser] implemented outside the two packages (the body of
    an inbound request, the body of a backend response): a state machine
    that the modelled code only drives through its two methods.  [Read st n]
    is a read into a buffer of [n] bytes and yields the bytes stored in
    [b[:n']] with the error result. *)
Class ReadCloser (R : Type) := {
  Read : R → nat → (list byte * option error) * R;
  Close : R → option error * R;
}.

(** The dynamic types an [http] body can have in the two packages. *)
#[warnings="-register-all"]
Inductive Body : Type :=
| ExtBody {R : Type} {RC : ReadCloser R} (st : R)
| TeeTie (r : option Body) (w : loc)
| PipeReader (p : loc)
| BodyBuffer (buf : list byte).

(** [http.Header] is a map, hence a reference: nil or a map object. *)
Definition Header := option loc.

(** [http.Request], with the fields that [cloneRequestMetadata] lists. *)
Record Request := MkRequest {
  req_Method : string;
  req_URL : URL;
  req_Proto : string;
  req_ProtoMajor : Z;
  req_ProtoMinor : Z;
  req_Header : Header;
  req_Body : option Body;
  req_ContentLength : Z;
  req_TransferEncoding : slice;
  req_Close : bool;
  req_Host : string;
  req_RemoteAddr : string;
  req_RequestURI : string;
  req_TLS : option loc;
}.

(** [http.Response], with the fields that [cloneResponseMetadata] lists. *)
Record Response := MkResponse {
  rsp_Status : string;
  rsp_StatusCode : Z;
  rsp_Proto : string;
  rsp_ProtoMajor : Z;
  rsp_ProtoMinor : Z;
  rsp_Header : Header;
  rsp_Body : option Body;
  rsp_ContentLength : Z;
  rsp_TransferEncoding : slice;
  rsp_Close : bool;
  rsp_Request : option Request;
  rsp_TLS : option loc;
}.

(** The zero value of [http.Response]. *)
Definition zero_Response : Response :=
  MkResponse "" 0 "" 0 0 None None 0 NilSlice false None None.

Definition set_rsp_Header (h : Header) (r : Response) : Response :=
  MkResponse (rsp_Status r) (rsp_StatusCode r) (rsp_Proto r) (rsp_ProtoMajor r)
    (rsp_ProtoMinor r) h (rsp_Body r) (rsp_ContentLength r)
    (rsp_TransferEncoding r) (rsp_Close r) (rsp_Request r) (rsp_TLS r).

Definition set_rsp_Body (b : option Body) (r : Response) : Response :=
  MkResponse (rsp_Status r) (rsp_StatusCode r) (rsp_Proto r) (rsp_ProtoMajor r)
    (rsp_ProtoMinor r) (rsp_Header r) b (rsp_ContentLength r)
    (rsp_TransferEncoding r) (rsp_Close r) (rsp_Request r) (rsp_TLS r).

Definition set_rsp_Request (q : option Request) (r : Response) : Response :=
  MkResponse (rsp_Status r) (rsp_StatusCode r) (rsp_Proto r) (rsp_ProtoMajor r)
    (rsp_ProtoMinor r) (rsp_Header r) (rsp_Body r) (rsp_ContentLength r)
    (rsp_TransferEncoding r) (rsp_Close r) q (rsp_TLS r).

Definition set_req_Body (b : option Body) (r : Request) : Request :=
  MkRequest (req_Method r) (req_URL r) (req_Proto r) (req_ProtoMajor r)
    (req_ProtoMinor r) (req_Header r) b (req_ContentLength r)
    (req_TransferEncoding r) (req_Close r) (req_Host r) (req_RemoteAddr r)
    (req_RequestURI r) (req_TLS r).

Definition set_req_URL (u : URL) (r : Request) : Request :=
  MkRequest (req_Method r) u (req_Proto r) (req_ProtoMajor r)
    (req_ProtoMinor r) (req_Header r) (req_Body r) (req_ContentLength r)
    (req_TransferEncoding r) (req_Close r) (req_Host r) (req_RemoteAddr r)
    (req_RequestURI r) (req_TLS r).

Definition set_req_Host (h : string) (r : Request) : Request :=
  MkRequest (req_Method r) (req_URL r) (req_Proto r) (req_ProtoMajor r)
    (req_ProtoMinor r) (req_Header r) (req_Body r) (req_ContentLength r)
    (req_TransferEncoding r) (req_Close r) h (req_RemoteAddr r)
    (req_RequestURI r) (req_TLS r).

Definition set_req_RequestURI (u : string) (r : Request) : Request :=
  MkRequest (req_Method r) (req_URL r) (req_Proto r) (req_ProtoMajor r)
    (req_ProtoMinor r) (req_Header r) (req_Body r) (req_ContentLength r)
    (req_TransferEncoding r) (req_Close r) (req_Host r) (req_RemoteAddr r)
    u (req_TLS r).

Definition set_url_Host (h : string) (u : URL) : URL :=
  MkURL (Scheme u) (Opaque u) (User u) h (Path u) (RawPath u) (RawQuery u) (Fragment u).
Definition set_url_Scheme (s : string) (u : URL) : URL :=
  MkURL s (Opaque u) (User u) (Host u) (Path u) (RawPath u) (RawQuery u) (Fragment u).
Definition set_url_Path (p : string) (u : URL) : URL :=
  MkURL (Scheme u) (Opaque u) (User u) (Host u) p (RawPath u) (RawQuery u) (Fragment u).

(** [make(http.Header)]: a new, empty map object. *)
Definition make_Header (σ : world) : Header * world :=
  let l := fresh (dom (hmaps σ)) in
  (Some l, set_hmaps (insert l ∅) σ).

(** The map a header value refers to; a nil map reads as empty. *)
Definition header_map (σ : world) (h : Header) : gmap string slice :=
  match h with
  | Some l => default ∅ (hmaps σ !! l)
  | None => ∅
  end.

(** What a reader of the header sees: the value list under every key. *)
Definition header_view (σ : world) (h : Header) : gmap string (list string) :=
  slice_elems σ <$> header_map σ h.

(** [h[k] = s]; an assignment to an entry of a nil map panics. *)
Definition header_store (h : Header) (k : string) (s : slice) (σ : world) : outcome world :=
  match h with
  | Some l => Ok (set_hmaps (alter (insert k s) l) σ)
  | None => Panic
  end.

End http.

Export http.

(* ===================================================================== *)
(** * Package proxy: the execution context ([context.go])                  *)
(* ===================================================================== *)

Module proxy.

(** [eskip.BackendType] and the fields of [routing.Route] that the context
    reads; both types are declared outside the two files. *)
Inductive BackendType := NetworkBackend | ShuntBackend | LoopBackend.

#[global] Instance BackendType_eq_dec : EqDecision BackendType.
Proof. solve_decision. Defined.

Record Route := MkRoute {
  route_Host : string;
  route_Shunt : bool;
  route_BackendType : BackendType;
  route_Backend : string;
}.

(** Go's [int] on the 64-bit targets: arithmetic wraps. *)
Definition wrap_int (z : Z) : Z := ((z + 2 ^ 63) mod 2 ^ 64 - 2 ^ 63)%Z.

Record context := MkContext {
  responseWriter : option loc;
  request : option Request;
  response : option Response;
  route : option Route;
  deprecatedServed : bool;
  servedWithResponse : bool;
  pathParams : option (gmap string string);
  stateBag : option (gmap string iface);
  originalRequest : option Request;
  originalResponse : option Response;
  outgoingHost : string;
  debugFilterPanics : list iface;
  outgoingDebugRequest : option Request;
  incomingDebugResponse : option Response;
  loopCounter : Z;
  startServe : Z;
}.

Definition set_request (q : option Request) (c : context) : context :=
  MkContext (responseWriter c) q (response c) (route c)
    (deprecatedServed c) (servedWithResponse c) (pathParams c) (stateBag c)
    (originalRequest c) (originalResponse c) (outgoingHost c)
    (debugFilterPanics c) (outgoingDebugRequest c) (incomingDebugResponse c)
    (loopCounter c) (startServe c).

Definition set_response (r : option Response) (c : context) : context :=
  MkContext (responseWriter c) (request c) r (route c)
    (deprecatedServed c) (servedWithResponse c) (pathParams c) (stateBag c)
    (originalRequest c) (originalResponse c) (outgoingHost c)
    (debugFilterPanics c) (outgoingDebugRequest c) (incomingDebugResponse c)
    (loopCounter c) (startServe c).

Definition set_route (r : option Route) (c : context) : context :=
  MkContext (responseWriter c) (request c) (response c) r
    (deprecatedServed c) (servedWithResponse c) (pathParams c) (stateBag c)
    (originalRequest c) (originalResponse c) (outgoingHost c)
    (debugFilterPanics c) (outgoingDebugRequest c) (incomingDebugResponse c)
    (loopCounter c) (startServe c).

Definition set_deprecatedServed (b : bool) (c : context) : context :=
  MkContext (responseWriter c) (request c) (response c) (route c)
    b (servedWithResponse c) (pathParams c) (stateBag c)
    (originalRequest c) (originalResponse c) (outgoingHost c)
    (debugFilterPanics c) (outgoingDebugRequest c) (incomingDebugResponse c)
    (loopCounter c) (startServe c).

Definition set_servedWithResponse (b : bool) (c : context) : context :=
  MkContext (responseWriter c) (request c) (response c) (route c)
    (deprecatedServed c) b (pathParams c) (stateBag c)
    (originalRequest c) (originalResponse c) (outgoingHost c)
    (debugFilterPanics c) (outgoingDebugRequest c) (incomingDebugResponse c)
    (loopCounter c) (startServe c).

Definition set_pathParams (p : option (gmap string string)) (c : context) : context :=
  MkContext (responseWriter c) (request c) (response c) (route c)
    (deprecatedServed c) (servedWithResponse c) p (stateBag c)
    (originalRequest c) (originalResponse c) (outgoingHost c)
    (debugFilterPanics c) (outgoingDebugRequest c) (incomingDebugResponse c)
    (loopCounter c) (startServe c).

Definition set_outgoingHost (h : string) (c : context) : context :=
  MkContext (responseWriter c) (request c) (response c) (route c)
    (deprecatedServed c) (servedWithResponse c) (pathParams c) (stateBag c)
    (originalRequest c) (originalResponse c) h
    (debugFilterPanics c) (outgoingDebugRequest c) (incomingDebugResponse c)
    (loopCounter c) (startServe c).

Definition set_loopCounter (n : Z) (c : context) : context :=
  MkContext (responseWriter c) (request c) (response c) (route c)
    (deprecatedServed c) (servedWithResponse c) (pathParams c) (stateBag c)
    (originalRequest c) (originalResponse c) (outgoingHost c)
    (debugFilterPanics c) (outgoingDebugRequest c) (incomingDebugResponse c)
    n (startServe c).

(** [defaultBody]: a pointer to a body buffer over an empty buffer. *)
Definition defaultBody : option Body := Some (BodyBuffer []).

Definition defaultResponse (r : option Request) (σ : world) : Response * world :=
  let '(h, σ1) := make_Header σ in
  (MkResponse "" StatusNotFound "" 0 0 h defaultBody 0 NilSlice false r None, σ1).

(** The loop [for k, v := range from { to[k] = v }], run over the entries
    in the order [items]. *)
Definition range_assign (items : list (string * string)) (to : gmap string string)
  : gmap string string :=
  foldl (λ acc kv, <[kv.1 := kv.2]> acc) to items.

(** [mergeParams]: a nil [to] is replaced by a new map, the entries of
    [from] are stored into it (ranging over a nil [from] runs no
    iteration), and the map is returned. *)
Definition mergeParams (to from : option (gmap string string)) : option (gmap string string) :=
  let to1 := match to with None => ∅ | Some m => m end in
  Some (range_assign (map_to_list (default ∅ from)) to1).

Definition incLoopCounter (c : context) : context :=
  set_loopCounter (wrap_int (loopCounter c + 1)%Z) c.

Definition decLoopCounter (c : context) : context :=
  set_loopCounter (wrap_int (loopCounter c - 1)%Z) c.

(** [applyRoute]: [c.request.Host] and [route.Host] dereference their
    pointers, a nil one panics there. *)
Definition applyRoute (c : context) (rt : option Route)
    (params : option (gmap string string)) (preserveHost : bool) : outcome context :=
  let c1 := set_route rt c in
  c2 ← (if preserveHost then
          match request c1 with
          | Some rq => Ok (set_outgoingHost (req_Host rq) c1)
          | None => Panic
          end
        else
          match rt with
          | Some r => Ok (set_outgoingHost (route_Host r) c1)
          | None => Panic
          end);
  Ok (set_pathParams (mergeParams (pathParams c2) params) c2).

Definition ensureDefaultResponse (c : context) (σ : world) : context * world :=
  match response c with
  | None =>
      let '(r, σ1) := defaultResponse (request c) σ in
      (set_response (Some r) c, σ1)
  | Some r =>
      let '(r1, σ1) :=
        match rsp_Header r with
        | None => let '(h, σ1) := make_Header σ in (set_rsp_Header h r, σ1)
        | Some _ => (r, σ)
        end in
      let r2 :=
        match rsp_Body r1 with
        | None => set_rsp_Body defaultBody r1
        | Some _ => r1
        end in
      (set_response (Some r2) c, σ1)
  end.

Definition deprecatedShunted (c : context) : bool := deprecatedServed c.

Definition shunted (c : context) : bool := servedWithResponse c.

Definition isShuntRoute (c : context) : outcome bool :=
  match route c with
  | Some r => Ok (route_Shunt r || bool_decide (route_BackendType r = ShuntBackend))
  | None => Panic
  end.

Definition isLoopbackRoute (c : context) : outcome bool :=
  match route c with
  | Some r => Ok (bool_decide (route_BackendType r = LoopBackend))
  | None => Panic
  end.

Definition Request (c : context) : option http.Request := request c.
Definition Response (c : context) : option http.Response := response c.
Definition MarkServed (c : context) : context := set_deprecatedServed true c.
Definition Served (c : context) : bool := deprecatedServed c || servedWithResponse c.

(** [c.pathParams[key]]: the zero value for a missing key or a nil map. *)
Definition PathParam (c : context) (key : string) : string :=
  default ""%string (default ∅ (pathParams c) !! key).

Definition SetOutgoingHost (c : context) (h : string) : context := set_outgoingHost h c.

(** [Serve]: the response object is completed and becomes the live
    response. *)
Definition Serve (c : context) (r : http.Response) (σ : world) : context * world :=
  let r0 := set_rsp_Request (Request c) r in
  let '(r1, σ1) :=
    match rsp_Header r0 with
    | None => let '(h, σ1) := make_Header σ in (set_rsp_Header h r0, σ1)
    | Some _ => (r0, σ)
    end in
  let r2 :=
    match rsp_Body r1 with
    | None => set_rsp_Body defaultBody r1
    | Some _ => r1
    end in
  (set_response (Some r2) (set_servedWithResponse true c), σ1).

End proxy.

(* ===================================================================== *)
(** * Package regexp: replacing all matches                                *)
(* ===================================================================== *)

Module regexp.

(** The matching engine of the library is taken as an interface.
    [doExecute re src pos] is the leftmost match of [re] in [src] that
    starts at or after byte [pos]: its bounds and the bounds of its
    submatches; [expandTemplate] is the expansion of a replacement
    template that contains a dollar sign.  [Compile] has Go's two results
    as a sum: the library returns a regular expression or an error. *)
Class Engine (Regexp : Type) := {
  Compile : string → Regexp + error;
  doExecute : Regexp → list ascii → nat → option (nat * nat * list (option (nat * nat)));
  expandTemplate : Regexp → list ascii → list ascii → nat * nat * list (option (nat * nat)) → list ascii;
}.

(** The bytes [s[a:b]] when the bounds are in range. *)
Definition substr (s : list ascii) (a : nat) (b : nat) : list ascii :=
  take (b - a) (drop a s).

Definition byte_in (lo hi : N) (c : ascii) : bool :=
  ((lo <=? N_of_ascii c) && (N_of_ascii c <=? hi))%N.

(** The width that [utf8.DecodeRuneInString] reports: 0 for the empty
    string, the length of a well-formed encoding, 1 for anything else. *)
Definition rune_width (s : list ascii) : nat :=
  match s with
  | [] => 0
  | c0 :: rest =>
      let cont := byte_in 128 191 in
      let two (lo hi : N) :=
        match rest with
        | c1 :: _ => if byte_in lo hi c1 then 2 else 1
        | _ => 1
        end in
      let three (lo hi : N) :=
        match rest with
        | c1 :: c2 :: _ => if byte_in lo hi c1 && cont c2 then 3 else 1
        | _ => 1
        end in
      let four (lo hi : N) :=
        match rest with
        | c1 :: c2 :: c3 :: _ =>
            if byte_in lo hi c1 && cont c2 && cont c3 then 4 else 1
        | _ => 1
        end in
      if byte_in 0 193 c0 then 1
      else if byte_in 194 223 c0 then two 128%N 191%N
      else if byte_in 224 224 c0 then three 160%N 191%N
      else if byte_in 225 236 c0 then three 128%N 191%N
      else if byte_in 237 237 c0 then three 128%N 159%N
      else if byte_in 238 239 c0 then three 128%N 191%N
      else if byte_in 240 240 c0 then four 144%N 191%N
      else if byte_in 241 243 c0 then four 128%N 191%N
      else if byte_in 244 244 c0 then four 128%N 143%N
      else 1
  end.

Section replace.
Context {Regexp : Type} {E : Engine Regexp}.

(** [re.expand(dst, template, nil, src, match)] appended to nothing: a
    template without a dollar sign is copied as it is. *)
Definition expand (re : Regexp) (template src : list ascii)
    (m : nat * nat * list (option (nat * nat))) : list ascii :=
  if bool_decide ("$"%char ∈ template) then expandTemplate re template src m
  else template.

(** The loop of the library's [replaceAll]; [fuel] bounds the number of
    iterations, [None] is a loop that has not ended within it. *)
Fixpoint replaceAll_loop (fuel : nat) (re : Regexp) (src repl : list ascii)
    (lastMatchEnd searchPos : nat) (buf : list ascii) : option (list ascii) :=
  match fuel with
  | O => None
  | S fuel' =>
      if decide (searchPos ≤ length src) then
        match doExecute re src searchPos with
        | None => Some (buf ++ drop lastMatchEnd src)
        | Some (a0, a1, caps) =>
            let buf1 := buf ++ substr src lastMatchEnd a0 in
            let buf2 :=
              if bool_decide (lastMatchEnd < a1 ∨ a0 = 0)
              then buf1 ++ expand re repl src (a0, a1, caps)
              else buf1 in
            let width := rune_width (drop searchPos src) in
            let searchPos' :=
              if decide (a1 < searchPos + width) then (searchPos + width)
              else if decide (a1 < searchPos + 1) then S searchPos
              else a1 in
            replaceAll_loop fuel' re src repl a1 searchPos' buf2
        end
      else Some (buf ++ drop lastMatchEnd src)
  end.

(** [ReplaceAllString]: the search position grows in every iteration
    that ends, so [length src + 2] iterations exhaust the loop; running
    out of them is a loop that makes no progress, which never ends. *)
Definition ReplaceAllString (re : Regexp) (src repl : string) : outcome string :=
  let s := String.list_ascii_of_string src in
  match replaceAll_loop (length s + 2) re s (String.list_ascii_of_string repl) 0 0 [] with
  | Some out => Ok (String.string_of_list_ascii out)
  | None => Block
  end.
End replace.

End regexp.

(* ===================================================================== *)
(** * Package tee: the shadow-traffic filter ([tee.go])                    *)
(* ===================================================================== *)

Module tee.

Definition Name : string := "tee".
Definition DeprecatedName : string := "Tee".

Record teeSpec := MkTeeSpec { deprecated : bool }.

Definition teeType := Z.
Definition asBackend : teeType := 1%Z.
Definition pathModified : teeType := 2%Z.

(** [http.Client], through the one method the filter calls: [Do] on a
    request, with whatever it does to the shared objects. *)
Definition Client := http.Request → world → (option http.Response * option error) * world.

Definition NewTee : teeSpec := MkTeeSpec false.
Definition NewTeeDeprecated : teeSpec := MkTeeSpec true.

Definition spec_Name (spec : teeSpec) : string :=
  if deprecated spec then DeprecatedName else Name.

(** A loop body run over a list, stopping at the first call that does not
    return. *)
Fixpoint for_each {A S : Type} (body : A → S → outcome S) (items : list A) (s : S)
  : outcome S :=
  match items with
  | [] => Ok s
  | x :: rest => s' ← body x s; for_each body rest s'
  end.

(** ** The stream tee *)

(** [teeTie.Read], given the [Read] of the wrapped reader [tt.r].  The
    bytes of the result are [b[:n]]. *)
Definition teeTie_Read {S : Type}
    (r_Read : nat → world → outcome ((list byte * option error) * S * world))
    (w : loc) (len_b : nat) (σ : world)
  : outcome ((list byte * option error) * S * world) :=
  '(res, s', σ1) ← r_Read len_b σ;
  let '(data, err) := res in
  if bool_decide (err ≠ None ∧ err ≠ Some EOF) then
    σ2 ← PipeWriter_CloseWithError w err σ1;
    Ok ((data, err), s', σ2)
  else
    σ2 ← (if bool_decide (0 < length data) then
            '(wres, σ') ← PipeWriter_Write w data σ1;
            match wres.2 with
            | Some werr => Ok (log_write (MkLog LError "error while tee request" werr) σ')
            | None => Ok σ'
            end
          else Ok σ1);
    σ3 ← (if bool_decide (err = Some EOF) then PipeWriter_Close w σ2 else Ok σ2);
    Ok ((data, err), s', σ3).

(** [bytes.Buffer.Read] behind a body buffer. *)
Definition bodyBuffer_Read (buf : list byte) (len_b : nat)
  : (list byte * option error) * list byte :=
  match buf with
  | [] => if decide (len_b = 0) then (([], None), []) else (([], Some EOF), [])
  | _ => ((take len_b buf, None), drop len_b buf)
  end.

(** [Read] on a body, by its dynamic type; a nil reader inside a tee and a
    nil pipe panic. *)
Fixpoint Body_Read (b : Body) (len_b : nat) (σ : world)
  : outcome ((list byte * option error) * Body * world) :=
  match b with
  | ExtBody st =>
      let '(res, st') := Read st len_b in Ok (res, ExtBody st', σ)
  | TeeTie r w =>
      match r with
      | Some src =>
          '(res, src', σ') ← teeTie_Read (Body_Read src) w len_b σ;
          Ok (res, TeeTie (Some src') w, σ')
      | None => Panic
      end
  | PipeReader p =>
      match pipes σ !! p with
      | Some pp =>
          '(res, pp') ← pipe_read len_b pp;
          Ok (res, PipeReader p, set_pipes (insert p pp') σ)
      | None => Panic
      end
  | BodyBuffer buf =>
      let '(res, buf') := bodyBuffer_Read buf len_b in Ok (res, BodyBuffer buf', σ)
  end.

(** [Close] on a body, by its dynamic type: [teeTie.Close] and
    [bodyBuffer.Close] do nothing, a pipe reader closes its end. *)
Definition Body_Close (b : option Body) (σ : world)
  : outcome (option error * option Body * world) :=
  match b with
  | Some (ExtBody st) =>
      let '(err, st') := Close st in Ok (err, Some (ExtBody st'), σ)
  | Some (TeeTie r w) => Ok (None, b, σ)
  | Some (PipeReader p) =>
      match pipes σ !! p with
      | Some pp => Ok (None, b, set_pipes (insert p (closeRead None pp)) σ)
      | None => Panic
      end
  | Some (BodyBuffer buf) => Ok (None, b, σ)
  | None => Panic
  end.

(** ** Cloning *)

(** [hc[n]] read from the map: the zero value (a nil slice) for a missing
    key. *)
Definition header_get (σ : world) (h : Header) (n : string) : slice :=
  default NilSlice (header_map σ h !! n).

(** The inner loop of [cloneHeader], over the indices of [hi]. *)
Definition cloneHeader_value (hc : Header) (n : string) (hi : slice) (i : nat) (σ : world)
  : outcome world :=
  let v := default ""%string (slice_elems σ hi !! i) in
  let σ1 := println "cloning" σ in
  let '(s, σ2) := append (header_get σ1 hc n) v σ1 in
  header_store hc n s σ2.

(** One iteration of the outer loop of [cloneHeader]. *)
Definition cloneHeader_entry (hc : Header) (entry : string * slice) (σ : world)
  : outcome world :=
  let '(n, hi) := entry in
  let '(s, σ1) := make_slice (slice_len hi) σ in
  σ2 ← header_store hc n s σ1;
  for_each (cloneHeader_value hc n hi) (seq 0 (slice_len hi)) σ2.

(** [cloneHeader], ranging over the entries of [h] in the order [order]. *)
Definition cloneHeader_in (order : list (string * slice)) (σ : world)
  : outcome (Header * world) :=
  let '(hc, σ1) := make_Header σ in
  σ2 ← for_each (cloneHeader_entry hc) order σ1;
  Ok (hc, σ2).

Definition cloneHeader (h : Header) (σ : world) : outcome (Header * world) :=
  cloneHeader_in (map_to_list (header_map σ h)) σ.

Section filter.
Context {Regexp : Type} {E : regexp.Engine Regexp}.
(** [url.Parse] (a URL or an error) and the client [&http.Client{}]. *)
Variable url_Parse : string → URL + error.
Variable http_Client : Client.

Record tee := MkTee {
  client : Client;
  typ : teeType;
  host : string;
  scheme : string;
  rx : option Regexp;
  replacement : string;
}.

(** [cloneRequest]: the result is the clone, the request as it is left
    behind (its body replaced by the tee) and the world. *)
Definition cloneRequest (t : tee) (req : http.Request) (σ : world)
  : outcome (http.Request * http.Request * world) :=
  let clone := req in
  let copyUrl := req_URL req in
  let clone := set_req_URL copyUrl clone in
  let clone := set_req_URL (set_url_Host (host t) (req_URL clone)) clone in
  let clone := set_req_URL (set_url_Scheme (scheme t) (req_URL clone)) clone in
  let clone := set_req_Host (host t) clone in
  let '(p, σ1) := Pipe σ in
  let tr := TeeTie (req_Body req) p in
  let clone := set_req_Body (Some (PipeReader p)) clone in
  let req := set_req_Body (Some tr) req in
  let clone := set_req_RequestURI "" clone in
  if bool_decide (typ t = pathModified) then
    match rx t with
    | Some re =>
        path ← regexp.ReplaceAllString re (Path (req_URL clone)) (replacement t);
        Ok (set_req_URL (set_url_Path path (req_URL clone)) clone, req, σ1)
    | None => Panic
    end
  else Ok (clone, req, σ1).

(** The function started by the [go] statement of [Request]: it shares
    [r] and the clone with its creator and nothing else.  The result is
    the response as the function leaves it. *)
Definition Request_func1 (r : tee) (copyOfRequest : http.Request) (σ : world)
  : outcome (option http.Response * world) :=
  let '((rsp, err), σ1) := client r copyOfRequest σ in
  let σ2 :=
    match err with
    | Some e => log_write (MkLog LWarn "error while tee request" e) σ1
    | None => σ1
    end in
  match err with
  | None =>
      match rsp with
      | Some rs =>
          '(_, body', σ3) ← Body_Close (rsp_Body rs) σ2;
          Ok (Some (set_rsp_Body body' rs), σ3)
      | None => Panic
      end
  | Some _ => Ok (rsp, σ2)
  end.

(** [tee.Request]: the context with its request as [cloneRequest] left
    it, the clone that the new goroutine dispatches, and the world. *)
Definition Request (r : tee) (fc : proxy.context) (σ : world)
  : outcome (proxy.context * http.Request * world) :=
  match proxy.Request fc with
  | Some req =>
      '(copyOfRequest, req', σ1) ← cloneRequest r req σ;
      Ok (proxy.set_request (Some req') fc, copyOfRequest, σ1)
  | None => Panic
  end.

(** [tee.Response] *)
Definition Response (r : tee) (fc : proxy.context) (σ : world)
  : proxy.context * world := (fc, σ).

Definition config_at (config : list iface) (i : nat) : iface :=
  default INil (config !! i).

(** [CreateFilter], with Go's two results: the filter and the error. *)
Definition CreateFilter (spec : teeSpec) (config : list iface)
  : option tee * option error :=
  if decide (length config = 0) then (None, Some ErrInvalidFilterParameters) else
  let '(backend, ok) := as_string (config_at config 0) in
  if negb ok then (None, Some ErrInvalidFilterParameters) else
  match url_Parse backend with
  | inr err => (None, Some err)
  | inl url =>
      if decide (length config = 1) then
        (Some (MkTee http_Client asBackend (Host url) (Scheme url) None ""), None)
      else if decide (length config = 3) then
        let '(expr, ok) := as_string (config_at config 1) in
        if negb ok then (None, Some (ErrInvalidConfig Name config)) else
        let '(replacement, ok) := as_string (config_at config 2) in
        if negb ok then (None, Some (ErrInvalidConfig Name config)) else
        match regexp.Compile expr with
        | inr err => (None, Some err)
        | inl rx =>
            (Some (MkTee http_Client pathModified (Host url) (Scheme url) (Some rx) replacement), None)
        end
      else (None, Some ErrInvalidFilterParameters)
  end.
End filter.

End tee.

(* ===================================================================== *)
(** * Instances of the interfaces                                          *)
(* ===================================================================== *)

(** A matching engine for the patterns made of a literal text between an
    optional [^] and an optional [$]. *)
Module literal.

Record Regexp := MkRegexp { bol : bool; lit : list ascii; eol : bool }.

Definition is_meta (c : ascii) : bool :=
  bool_decide (c ∈ String.list_ascii_of_string "\.+*?()|[]{}^$").

Definition Compile (expr : string) : Regexp + error :=
  let s := String.list_ascii_of_string expr in
  let '(b, s1) :=
    match s with
    | c :: r => if bool_decide (c = "^"%char) then (true, r) else (false, s)
    | [] => (false, s)
    end in
  let '(e, s2) :=
    match reverse s1 with
    | c :: r => if bool_decide (c = "$"%char) then (true, reverse r) else (false, s1)
    | [] => (false, s1)
    end in
  if forallb (λ c, negb (is_meta c)) s2 then inl (MkRegexp b s2 e)
  else inr (ErrOther "error parsing regexp").

Fixpoint has_prefix (p s : list ascii) : bool :=
  match p, s with
  | [], _ => true
  | c :: p', d :: s' => bool_decide (c = d) && has_prefix p' s'
  | _ :: _, [] => false
  end.

(** Does [re] match at position [i], where [rest] is the text from [i]
    on? *)
Definition matches_at (re : Regexp) (rest : list ascii) (i : nat) : bool :=
  has_prefix (lit re) rest
  && (negb (bol re) || bool_decide (i = 0))
  && (negb (eol re) || bool_decide (length (lit re) = length rest)).

Fixpoint find_from (re : Regexp) (rest : list ascii) (i : nat) : option nat :=
  if matches_at re rest i then Some i
  else match rest with
       | [] => None
       | _ :: rest' => find_from re rest' (S i)
       end.

Definition doExecute (re : Regexp) (src : list ascii) (pos : nat)
  : option (nat * nat * list (option (nat * nat))) :=
  if decide (pos ≤ length src) then
    match find_from re (drop pos src) pos with
    | Some i => Some (i, i + length (lit re), [])
    | None => None
    end
  else None.

(** There are no groups: a reference to one expands to nothing, so the
    expansion keeps the text outside the references.  Only templates
    without a dollar sign occur below. *)
Definition expandTemplate (re : Regexp) (template src : list ascii)
    (m : nat * nat * list (option (nat * nat))) : list ascii :=
  filter (λ c, c ≠ "$"%char) template.

#[global] Instance engine : regexp.Engine Regexp :=
  {| regexp.Compile := Compile;
     regexp.doExecute := doExecute;
     regexp.expandTemplate := expandTemplate |}.

End literal.

(** Bodies that arrive from the network. *)
Module netbody.

(** An inbound request body: the bytes still to come and the sizes of the
    chunks in which the connection delivers them.  A chunk entry [(k, e)]
    serves at most [k] bytes to the next read; [e] says whether the end of
    the stream is reported together with the last bytes or by a read of
    its own.  Without an entry a read is served in full. *)
Record chunked := MkChunked {
  rest : list byte;
  plan : list (nat * bool);
  closed : bool;
}.

Definition chunked_Read (st : chunked) (len_b : nat) : (list byte * option error) * chunked :=
  match rest st with
  | [] => (([], Some EOF), MkChunked [] (tail (plan st)) (closed st))
  | _ =>
      let '(k, e) := default (len_b, false) (head (plan st)) in
      let got := take (k `min` len_b) (rest st) in
      let rest' := drop (k `min` len_b) (rest st) in
      let err := if bool_decide (rest' = []) && e then Some EOF else None in
      ((got, err), MkChunked rest' (tail (plan st)) (closed st))
  end.

Definition chunked_Close (st : chunked) : option error * chunked :=
  (None, MkChunked (rest st) (plan st) true).

#[global] Instance chunked_rc : ReadCloser chunked :=
  {| Read := chunked_Read; Close := chunked_Close |}.

(** A reader that fails: it serves [partial] together with the error. *)
Record failing := MkFailing { partial : list byte; failure : error }.

#[global] Instance failing_rc : ReadCloser failing :=
  {| Read st len_b := ((take len_b (partial st), Some (failure st)), st);
     Close st := (None, st) |}.

End netbody.


(* ===================================================================== *)
(** * Vocabulary of the statements                                         *)
(* ===================================================================== *)

(** Every field of the context but the response. *)
Definition same_but_response (c c' : proxy.context) : Prop :=
  proxy.responseWriter c' = proxy.responseWriter c ∧ proxy.request c' = proxy.request c
  ∧ proxy.route c' = proxy.route c ∧ proxy.deprecatedServed c' = proxy.deprecatedServed c
  ∧ proxy.servedWithResponse c' = proxy.servedWithResponse c
  ∧ proxy.pathParams c' = proxy.pathParams c ∧ proxy.stateBag c' = proxy.stateBag c
  ∧ proxy.originalRequest c' = proxy.originalRequest c
  ∧ proxy.originalResponse c' = proxy.originalResponse c
  ∧ proxy.outgoingHost c' = proxy.outgoingHost c
  ∧ proxy.debugFilterPanics c' = proxy.debugFilterPanics c
  ∧ proxy.outgoingDebugRequest c' = proxy.outgoingDebugRequest c
  ∧ proxy.incomingDebugResponse c' = proxy.incomingDebugResponse c
  ∧ proxy.loopCounter c' = proxy.loopCounter c ∧ proxy.startServe c' = proxy.startServe c.

(** Every field of a response but its header and its body. *)
Definition same_but_header_body (r r' : http.Response) : Prop :=
  rsp_Status r' = rsp_Status r ∧ rsp_StatusCode r' = rsp_StatusCode r
  ∧ rsp_Proto r' = rsp_Proto r ∧ rsp_ProtoMajor r' = rsp_ProtoMajor r
  ∧ rsp_ProtoMinor r' = rsp_ProtoMinor r
  ∧ rsp_ContentLength r' = rsp_ContentLength r
  ∧ rsp_TransferEncoding r' = rsp_TransferEncoding r
  ∧ rsp_Close r' = rsp_Close r ∧ rsp_Request r' = rsp_Request r
  ∧ rsp_TLS r' = rsp_TLS r.


(** Every field of the context but the route, the outgoing host and the
    path parameters. *)
Definition same_but_routing (c c' : proxy.context) : Prop :=
  proxy.responseWriter c' = proxy.responseWriter c ∧ proxy.request c' = proxy.request c
  ∧ proxy.response c' = proxy.response c
  ∧ proxy.deprecatedServed c' = proxy.deprecatedServed c
  ∧ proxy.servedWithResponse c' = proxy.servedWithResponse c
  ∧ proxy.stateBag c' = proxy.stateBag c
  ∧ proxy.originalRequest c' = proxy.originalRequest c
  ∧ proxy.originalResponse c' = proxy.originalResponse c
  ∧ proxy.debugFilterPanics c' = proxy.debugFilterPanics c
  ∧ proxy.outgoingDebugRequest c' = proxy.outgoingDebugRequest c
  ∧ proxy.incomingDebugResponse c' = proxy.incomingDebugResponse c
  ∧ proxy.loopCounter c' = proxy.loopCounter c ∧ proxy.startServe c' = proxy.startServe c.

(** Every field of the context but the flag of [MarkServed]. *)
Definition same_but_deprecatedServed (c c' : proxy.context) : Prop :=
  proxy.responseWriter c' = proxy.responseWriter c ∧ proxy.request c' = proxy.request c
  ∧ proxy.response c' = proxy.response c ∧ proxy.route c' = proxy.route c
  ∧ proxy.servedWithResponse c' = proxy.servedWithResponse c
  ∧ proxy.pathParams c' = proxy.pathParams c ∧ proxy.stateBag c' = proxy.stateBag c
  ∧ proxy.originalRequest c' = proxy.originalRequest c
  ∧ proxy.originalResponse c' = proxy.originalResponse c
  ∧ proxy.outgoingHost c' = proxy.outgoingHost c
  ∧ proxy.debugFilterPanics c' = proxy.debugFilterPanics c
  ∧ proxy.outgoingDebugRequest c' = proxy.outgoingDebugRequest c
  ∧ proxy.incomingDebugResponse c' = proxy.incomingDebugResponse c
  ∧ proxy.loopCounter c' = proxy.loopCounter c ∧ proxy.startServe c' = proxy.startServe c.

(** The parameters after a merge: the new value where there is one, the
    earlier value otherwise. *)
Definition merged (old new : option (gmap string string)) (k : string) : option string :=
  match default ∅ new !! k with
  | Some v => Some v
  | None => default ∅ old !! k
  end.

(** What the write of one [teeTie.Read] does to its pipe: nothing when
    there is no byte to write. *)
Definition tee_write (data : list byte) (pp : pipe) : outcome (option error * pipe) :=
  if decide (data = []) then Ok (None, pp)
  else '(r, pw) ← pipe_write data pp; Ok (r.2, pw).

(** What one [teeTie.Read] does to its pipe, as a function of what the
    wrapped reader returned. *)
Definition tee_pipe (data : list byte) (err : option error) (pp : pipe) : outcome pipe :=
  match err with
  | None => '(_, pw) ← tee_write data pp; Ok pw
  | Some e =>
      if decide (e = EOF) then '(_, pw) ← tee_write data pp; Ok (closeWrite None pw)
      else Ok (closeWrite (Some e) pp)
  end.

(** The log lines of one [teeTie.Read]: one line if its write failed. *)
Definition tee_log (data : list byte) (err : option error) (pp : pipe) : list log_entry :=
  if bool_decide (err = None ∨ err = Some EOF) then
    match tee_write data pp with
    | Ok (Some werr, _) => [MkLog LError "error while tee request" werr]
    | _ => []
    end
  else [].

(** The goroutine that reads from pipe [p] starts: [acts] is what it does
    with the read end. *)
Definition with_reader (p : loc) (acts : list peer_action) (σ : world) : world :=
  set_pipes (alter (λ pp, MkPipe acts (p_recv pp) (p_werr pp) (p_rerr pp)) p) σ.

(** The bytes that the reads at the other end of a pipe have returned. *)
Definition received (pp : pipe) : list byte := concat (p_recv pp).*1.

(** The bytes of a sequence of read results that the tee hands to its
    pipe: those of the reads before the first error, and those that come
    with it if it is end-of-stream. *)
Fixpoint mirrored (results : list (list byte * option error)) : list byte :=
  match results with
  | [] => []
  | (d, None) :: rest => d ++ mirrored rest
  | (d, Some e) :: _ => if decide (e = EOF) then d else []
  end.

(** A sequence of read results that ends well: no error but
    end-of-stream, and no byte after it. *)
Fixpoint well_ended (results : list (list byte * option error)) : bool :=
  match results with
  | [] => true
  | (_, None) :: rest => well_ended rest
  | (_, Some e) :: rest =>
      bool_decide (e = EOF) && forallb (λ r, bool_decide (r.1 = [])) rest
  end.

(** The error that the tee closes its pipe with: the first error among the
    read results, end-of-stream included. *)
Fixpoint first_error (results : list (list byte * option error)) : option error :=
  match results with
  | [] => None
  | (_, None) :: rest => first_error rest
  | (_, Some e) :: _ => Some e
  end.

(** A sequence of reads with buffers of the given sizes. *)
Fixpoint read_all (b : Body) (sizes : list nat) (σ : world)
  : outcome (list (list byte * option error) * Body * world) :=
  match sizes with
  | [] => Ok ([], b, σ)
  | n :: sizes' =>
      '(res, b', σ') ← tee.Body_Read b n σ;
      '(ress, b'', σ'') ← read_all b' sizes' σ';
      Ok (res :: ress, b'', σ'')
  end.

Section runs_of_matches.
Context {Regexp : Type} {E : regexp.Engine Regexp}.

(** [match_run re src pos ms]: searching [src] from [pos] on, the engine
    finds the matches [ms] one after the other, each of them not empty and
    reaching at least to the end of the character at the position the
    search started from, and after the last of them it finds none. *)
Inductive match_run (re : Regexp) (src : list ascii) : nat → list (nat * nat) → Prop :=
| run_end pos :
    pos ≤ length src →
    regexp.doExecute re src pos = None →
    match_run re src pos []
| run_match pos a b caps ms :
    regexp.doExecute re src pos = Some (a, b, caps) →
    pos ≤ a → a < b → b ≤ length src →
    pos + regexp.rune_width (drop pos src) ≤ b →
    match_run re src b ms →
    match_run re src pos ((a, b) :: ms).

(** [src] from [last] on with every match of [ms] replaced by [repl]. *)
Fixpoint splice (src : list ascii) (last : nat) (ms : list (nat * nat))
    (repl : list ascii) : list ascii :=
  match ms with
  | [] => drop last src
  | (a, b) :: ms' => regexp.substr src last a ++ repl ++ splice src b ms' repl
  end.
End runs_of_matches.

(** The value lists of a header lie within their arrays, as every slice
    of a Go program does. *)
Definition slices_in_bounds (σ : world) (h : Header) : Prop :=
  ∀ k s, header_map σ h !! k = Some s → length (slice_elems σ s) = slice_len s.

(** Every field of the context but the request. *)
Definition same_but_request (c c' : proxy.context) : Prop :=
  proxy.responseWriter c' = proxy.responseWriter c
  ∧ proxy.response c' = proxy.response c ∧ proxy.route c' = proxy.route c
  ∧ proxy.deprecatedServed c' = proxy.deprecatedServed c
  ∧ proxy.servedWithResponse c' = proxy.servedWithResponse c
  ∧ proxy.pathParams c' = proxy.pathParams c ∧ proxy.stateBag c' = proxy.stateBag c
  ∧ proxy.originalRequest c' = proxy.originalRequest c
  ∧ proxy.originalResponse c' = proxy.originalResponse c
  ∧ proxy.outgoingHost c' = proxy.outgoingHost c
  ∧ proxy.debugFilterPanics c' = proxy.debugFilterPanics c
  ∧ proxy.outgoingDebugRequest c' = proxy.outgoingDebugRequest c
  ∧ proxy.incomingDebugResponse c' = proxy.incomingDebugResponse c
  ∧ proxy.loopCounter c' = proxy.loopCounter c ∧ proxy.startServe c' = proxy.startServe c.

(** The goroutine of [tee.Request] as a step of the program, whose state
    is the context of the primary request and the world: the function holds
    the filter and the clone and no reference to the context. *)
Definition run_mirror {Regexp : Type} (r : @tee.tee Regexp) (copyOfRequest : http.Request)
    (st : proxy.context * world) : outcome (proxy.context * option http.Response * world) :=
  '(rsp, σ') ← tee.Request_func1 r copyOfRequest st.2;
  Ok (st.1, rsp, σ').

(** A body from the network is drained when no byte of it is left to
    read. *)
Definition drained (st : netbody.chunked) : Prop := netbody.rest st = [].

(* ===================================================================== *)
(** * Concrete requests, contexts and streams                              *)
(* ===================================================================== *)

Module sample.

Definition bytes (s : string) : list byte := String.list_byte_of_string s.

Definition url : URL :=
  MkURL "https" "" None "api.example.org" "/v1/items" "" "page=2&sort=/v1/" "".

(** A world with one header map [{"Accept": ["text/html", "*/*"],
    "X-Trace": ["abc"]}] at location 1, its two arrays at 1 and 2, and an
    open pipe at location 1. *)
Definition σ0 : world :=
  MkWorld (<[1%positive := ["text/html"; "*/*"]%string]> (<[2%positive := ["abc"%string]]> ∅))
          (<[1%positive := <["Accept"%string := Slice 1%positive 0 2 2]>
                             (<["X-Trace"%string := Slice 2%positive 0 1 1]> ∅)]> ∅)
          (<[1%positive := new_pipe]> ∅)
          [] [].

Definition body : Body :=
  ExtBody (netbody.MkChunked (bytes "hello, shadow backend") [(3, false); (100, true)] false).

Definition request : http.Request :=
  MkRequest "POST" url "HTTP/1.1" 1 1 (Some 1%positive) (Some body) 21 NilSlice false
            "api.example.org" "10.0.0.7:51234" "/v1/items?page=2&sort=/v1/" None.

Definition route : proxy.Route :=
  proxy.MkRoute "backend.internal:8080" false proxy.NetworkBackend "http://backend.internal:8080".

Definition context : proxy.context :=
  proxy.MkContext None (Some request) None None false false
    (Some (<["id"%string := "1"%string]> (<["lang"%string := "en"%string]> ∅)))
    (Some ∅) None None "api.example.org" [] None None 0 0.

Definition params : option (gmap string string) :=
  Some (<["id"%string := "2"%string]> (<["name"%string := "x"%string]> ∅)).

(** A reader that breaks after 3 bytes. *)
Definition broken_body : Body :=
  ExtBody (netbody.MkFailing (bytes "abc") (ErrOther "connection reset by peer")).

(** A world whose pipe at location 1 has been closed by its reader. *)
Definition σ_reader_gone : world :=
  MkWorld ∅ ∅ (<[1%positive := closeRead None new_pipe]> ∅) [] [].

(** The client of the shadow backend reads the clone's body with a buffer
    of 8 bytes, 32 times, and closes it. *)
Definition reader : list peer_action := (PeerRead <$> replicate 32 8) ++ [PeerClose None].

(** The world [σ0] once that client reads from the pipe at location 1. *)
Definition σ_mirror : world := with_reader 1%positive reader σ0.

(** The reply of the shadow backend, and a client that gets it. *)
Definition mirror_reply : http.Response :=
  MkResponse "200 OK" 200 "HTTP/1.1" 1 1 None
    (Some (ExtBody (netbody.MkChunked (bytes "mirrored") [] false)))
    8 NilSlice false None None.

Definition client_ok : tee.Client := λ _ σ, ((Some mirror_reply, None), σ).

Definition client_down : tee.Client :=
  λ _ σ, ((None, Some (ErrOther "dial tcp: connection refused")), σ).

(** The filters [tee("http://shadow.example:80")] and
    [tee("http://shadow.example", "^/v1/", "/v2/")]. *)
Definition shadow : @tee.tee literal.Regexp :=
  tee.MkTee client_ok tee.asBackend "shadow.example:80" "http" None "".

Definition shadow_v2 : @tee.tee literal.Regexp :=
  tee.MkTee client_ok tee.pathModified "shadow.example" "http"
    (match literal.Compile "^/v1/" with inl re => Some re | inr _ => None end) "/v2/".

(** The pattern [/a], which matches in several places of a path. *)
Definition slash_a : literal.Regexp := literal.MkRegexp false ["/"; "a"]%char false.

Definition shadow_ab : @tee.tee literal.Regexp :=
  tee.MkTee client_ok tee.pathModified "shadow.example" "http" (Some slash_a) "/b".

Definition request_to (path : string) : http.Request :=
  set_req_URL (set_url_Path path url) request.

End sample.


(* ===================================================================== *)
(** * Package proxy, continued: snapshots and the rest of the context      *)
(* ===================================================================== *)

Module snapshot.

Section with_cloneHeader.
(** The [cloneHeader] of package proxy is declared in another file of the
    package: it is a parameter here. *)
Variable cloneHeader : Header → world → Header * world.



Definition cloneResponseMetadata (r : http.Response) (σ : world) : http.Response * world :=
  let '(h, σ1) := cloneHeader (rsp_Header r) σ in
  (MkResponse (rsp_Status r) (rsp_StatusCode r) (rsp_Proto r) (rsp_ProtoMajor r)
     (rsp_ProtoMinor r) h (Some (BodyBuffer [])) (rsp_ContentLength r)
     (rsp_TransferEncoding r) (rsp_Close r) (rsp_Request r) (rsp_TLS r),
   σ1).



Definition set_originalResponse (r : option http.Response) (c : proxy.context)
  : proxy.context :=
  proxy.MkContext (proxy.responseWriter c) (proxy.request c) (proxy.response c)
    (proxy.route c) (proxy.deprecatedServed c) (proxy.servedWithResponse c)
    (proxy.pathParams c) (proxy.stateBag c) (proxy.originalRequest c) r
    (proxy.outgoingHost c) (proxy.debugFilterPanics c) (proxy.outgoingDebugRequest c)
    (proxy.incomingDebugResponse c) (proxy.loopCounter c) (proxy.startServe c).

(** [setResponse]: the snapshot dereferences [r], a nil one panics
    there. *)
Definition setResponse (c : proxy.context) (r : option http.Response)
    (preserveOriginal : bool) (σ : world) : outcome (proxy.context * world) :=
  let c1 := proxy.set_response r c in
  if preserveOriginal then
    match r with
    | Some rs =>
        let '(orig, σ1) := cloneResponseMetadata rs σ in
        Ok (set_originalResponse (Some orig) c1, σ1)
    | None => Panic
    end
  else Ok (c1, σ).

End with_cloneHeader.

Definition ResponseWriter (c : proxy.context) : option loc := proxy.responseWriter c.
Definition OriginalResponse (c : proxy.context) : option http.Response := proxy.originalResponse c.

(** [BackendUrl]: [c.route.Backend], a nil route panics. *)
Definition BackendUrl (c : proxy.context) : outcome string :=
  match proxy.route c with
  | Some r => Ok (proxy.route_Backend r)
  | None => Panic
  end.

(** [clone]: a copy of the struct behind a new pointer. *)
Definition clone (c : proxy.context) : proxy.context := c.

(** The calls that change a context. *)
Inductive call :=
| CallApplyRoute (rt : option proxy.Route) (params : option (gmap string string))
             (preserveHost : bool)
| CallEnsureDefaultResponse
| CallSetResponse (r : option http.Response) (preserveOriginal : bool)
| CallMarkServed
| CallServe (r : http.Response)
| CallSetOutgoingHost (h : string)
| CallIncLoopCounter
| CallDecLoopCounter.

Section calls.
Variable cloneHeader : Header → world → Header * world.

Definition run_call (k : call) (st : proxy.context * world)
  : outcome (proxy.context * world) :=
  let '(c, σ) := st in
  match k with
  | CallApplyRoute rt params ph => c' ← proxy.applyRoute c rt params ph; Ok (c', σ)
  | CallEnsureDefaultResponse => Ok (proxy.ensureDefaultResponse c σ)
  | CallSetResponse r po => setResponse cloneHeader c r po σ
  | CallMarkServed => Ok (proxy.MarkServed c, σ)
  | CallServe r => Ok (proxy.Serve c r σ)
  | CallSetOutgoingHost h => Ok (proxy.SetOutgoingHost c h, σ)
  | CallIncLoopCounter => Ok (proxy.incLoopCounter c, σ)
  | CallDecLoopCounter => Ok (proxy.decLoopCounter c, σ)
  end.

Fixpoint run_calls (ks : list call) (st : proxy.context * world)
  : outcome (proxy.context * world) :=
  match ks with
  | [] => Ok st
  | k :: ks' => st' ← run_call k st; run_calls ks' st'
  end.
End calls.

(** The two calls that mark the request as served. *)
Definition marks (k : call) : bool :=
  match k with
  | CallMarkServed => true
  | _ => false
  end.

Definition serves (k : call) : bool :=
  match k with
  | CallServe _ => true
  | _ => false
  end.

End snapshot.

(** Every field of a response but its header, its body and the request it
    answers. *)
Definition same_status_fields (r r' : http.Response) : Prop :=
  rsp_Status r' = rsp_Status r ∧ rsp_StatusCode r' = rsp_StatusCode r
  ∧ rsp_Proto r' = rsp_Proto r ∧ rsp_ProtoMajor r' = rsp_ProtoMajor r
  ∧ rsp_ProtoMinor r' = rsp_ProtoMinor r
  ∧ rsp_ContentLength r' = rsp_ContentLength r
  ∧ rsp_TransferEncoding r' = rsp_TransferEncoding r
  ∧ rsp_Close r' = rsp_Close r ∧ rsp_TLS r' = rsp_TLS r.

(** Every field of the context but the response and the flag of [Serve]. *)
Definition same_but_served_response (c c' : proxy.context) : Prop :=
  proxy.responseWriter c' = proxy.responseWriter c ∧ proxy.request c' = proxy.request c
  ∧ proxy.route c' = proxy.route c ∧ proxy.deprecatedServed c' = proxy.deprecatedServed c
  ∧ proxy.pathParams c' = proxy.pathParams c ∧ proxy.stateBag c' = proxy.stateBag c
  ∧ proxy.originalRequest c' = proxy.originalRequest c
  ∧ proxy.originalResponse c' = proxy.originalResponse c
  ∧ proxy.outgoingHost c' = proxy.outgoingHost c
  ∧ proxy.debugFilterPanics c' = proxy.debugFilterPanics c
  ∧ proxy.outgoingDebugRequest c' = proxy.outgoingDebugRequest c
  ∧ proxy.incomingDebugResponse c' = proxy.incomingDebugResponse c
  ∧ proxy.loopCounter c' = proxy.loopCounter c ∧ proxy.startServe c' = proxy.startServe c.

(** Every field of the context but the response and the snapshot of the
    response. *)
Definition same_but_responses (c c' : proxy.context) : Prop :=
  proxy.responseWriter c' = proxy.responseWriter c ∧ proxy.request c' = proxy.request c
  ∧ proxy.route c' = proxy.route c ∧ proxy.deprecatedServed c' = proxy.deprecatedServed c
  ∧ proxy.servedWithResponse c' = proxy.servedWithResponse c
  ∧ proxy.pathParams c' = proxy.pathParams c ∧ proxy.stateBag c' = proxy.stateBag c
  ∧ proxy.originalRequest c' = proxy.originalRequest c
  ∧ proxy.outgoingHost c' = proxy.outgoingHost c
  ∧ proxy.debugFilterPanics c' = proxy.debugFilterPanics c
  ∧ proxy.outgoingDebugRequest c' = proxy.outgoingDebugRequest c
  ∧ proxy.incomingDebugResponse c' = proxy.incomingDebugResponse c
  ∧ proxy.loopCounter c' = proxy.loopCounter c ∧ proxy.startServe c' = proxy.startServe c.

(** The loop counter is an [int]. *)
Definition int_range (z : Z) : Prop := (- 2 ^ 63 ≤ z < 2 ^ 63)%Z.

(** The engine reports matches that end at or after the position the
    search started from. *)
Definition engine_advances {Regexp : Type} {E : regexp.Engine Regexp} (re : Regexp) : Prop :=
  ∀ src pos a b caps, regexp.doExecute re src pos = Some (a, b, caps) → pos ≤ b.

(** A sequence of reads on a reader from outside, by itself. *)
Fixpoint read_source {R : Type} {RC : ReadCloser R} (st : R) (sizes : list nat)
  : list (list byte * option error) * R :=
  match sizes with
  | [] => ([], st)
  | n :: sizes' =>
      let '(res, st1) := Read st n in
      let '(ress, st2) := read_source st1 sizes' in
      (res :: ress, st2)
  end.

(** What the clone has of the request as it is: every field but the host
    and the scheme of the URL, the path, the host, the body and the request
    URI. *)
Definition cloned_fields (req clone : http.Request) : Prop :=
  req_Method clone = req_Method req ∧ req_Proto clone = req_Proto req
  ∧ req_ProtoMajor clone = req_ProtoMajor req ∧ req_ProtoMinor clone = req_ProtoMinor req
  ∧ req_Header clone = req_Header req
  ∧ req_ContentLength clone = req_ContentLength req
  ∧ req_TransferEncoding clone = req_TransferEncoding req
  ∧ req_Close clone = req_Close req ∧ req_RemoteAddr clone = req_RemoteAddr req
  ∧ req_TLS clone = req_TLS req
  ∧ Opaque (req_URL clone) = Opaque (req_URL req)
  ∧ User (req_URL clone) = User (req_URL req)
  ∧ RawPath (req_URL clone) = RawPath (req_URL req)
  ∧ RawQuery (req_URL clone) = RawQuery (req_URL req)
  ∧ Fragment (req_URL clone) = Fragment (req_URL req).

Module sample2.

(** A parser that knows the URL of the shadow backend. *)
Definition parse (s : string) : URL + error :=
  if decide (s = "http://shadow.example"%string)
  then inl (MkURL "http" "" None "shadow.example" "" "" "" "")
  else inr (ErrOther "parse error").

Definition config_v2 : list iface :=
  [IString "http://shadow.example"; IString "^/v1/"; IString "/v2/"].

(** A request without a body. *)
Definition request_nobody : http.Request := set_req_Body None sample.request.

End sample2.
(* ===================================================================== *)
(** * Properties of the execution context                                  *)
(* ===================================================================== *)

Section context_properties.
Import proxy.

Lemma make_Header_spec σ h σ' :
  make_Header σ = (h, σ') →
  ∃ l, h = Some l ∧ hmaps σ !! l = None ∧ hmaps σ' = <[l := ∅]> (hmaps σ)
       ∧ arrays σ' = arrays σ ∧ pipes σ' = pipes σ ∧ logs σ' = logs σ
       ∧ stderr σ' = stderr σ.
Proof.
  unfold make_Header. intros [= <- <-].
  exists (fresh (dom (hmaps σ))). split_and!; try done.
  apply not_elem_of_dom, is_fresh.
Qed.

Lemma make_Header_view σ h σ' :
  make_Header σ = (h, σ') → h ≠ None ∧ header_view σ' h = ∅.
Proof.
  intros (l & -> & _ & Hm & _)%make_Header_spec. split; [done|].
  unfold header_view, header_map. rewrite Hm, lookup_insert_eq. simpl.
  apply fmap_empty.
Qed.

(** C6.  [ensureDefaultResponse] on a context without a response installs
    a response with status 404 (not found), a non-nil header map that is
    empty and a non-nil body that is empty (an empty body buffer).  On a
    context with a response it keeps the response: a header map and a
    body that are not nil stay the ones they were, a nil header map
    becomes a new empty map, a nil body becomes an empty body buffer,
    and no other field of the response changes.  In both cases no other
    field of the context changes. *)
Theorem ensureDefaultResponse_spec (c : context) (σ : world) :
  ∃ r' σ',
    ensureDefaultResponse c σ = (set_response (Some r') c, σ')
    ∧ same_but_response c (set_response (Some r') c)
    ∧ rsp_Header r' ≠ None ∧ rsp_Body r' ≠ None
    ∧ match response c with
      | None =>
          rsp_StatusCode r' = StatusNotFound
          ∧ StatusNotFound = 404%Z
          ∧ header_view σ' (rsp_Header r') = ∅
          ∧ rsp_Body r' = Some (BodyBuffer [])
          ∧ rsp_Request r' = request c
      | Some r =>
          same_but_header_body r r'
          ∧ match rsp_Header r with
            | Some l => rsp_Header r' = Some l ∧ σ' = σ
            | None => header_view σ' (rsp_Header r') = ∅
            end
          ∧ match rsp_Body r with
            | Some b => rsp_Body r' = Some b
            | None => rsp_Body r' = Some (BodyBuffer [])
            end
      end.
Proof.
  unfold ensureDefaultResponse.
  destruct (response c) as [r|] eqn:Hr.
  - destruct (rsp_Header r) as [l|] eqn:Hh.
    + destruct (rsp_Body r) as [b|] eqn:Hb.
      * exists r, σ. rewrite Hh, Hb. by repeat split.
      * exists (set_rsp_Body defaultBody r), σ. simpl. rewrite Hh.
        by repeat split.
    + destruct (make_Header σ) as [h σ1] eqn:Hmk.
      destruct (make_Header_view _ _ _ Hmk) as [Hne Hv].
      destruct (rsp_Body r) as [b|] eqn:Hb.
      * exists (set_rsp_Header h r), σ1. simpl. rewrite Hb.
        by repeat split.
      * exists (set_rsp_Body defaultBody (set_rsp_Header h r)), σ1.
        simpl. rewrite Hb. by repeat split.
  - unfold defaultResponse.
    destruct (make_Header σ) as [h σ1] eqn:Hmk.
    destruct (make_Header_view _ _ _ Hmk) as [Hne Hv].
    eexists _, σ1. split; [reflexivity|]. by repeat split.
Qed.

Lemma range_assign_lookup (items : list (string * string)) (to : gmap string string) k :
  NoDup items.*1 →
  range_assign items to !! k
  = match (list_to_map items : gmap string string) !! k with
    | Some v => Some v
    | None => to !! k
    end.
Proof.
  unfold range_assign.
  revert to. induction items as [|[k0 v0] items IH]; intros to Hnd.
  - simpl. by rewrite lookup_empty.
  - apply NoDup_cons in Hnd as [Hk0 Hnd]. simpl.
    rewrite IH by done.
    destruct (decide (k0 = k)) as [->|Hne].
    + rewrite lookup_insert_eq.
      rewrite (not_elem_of_list_to_map_1 items k) by done.
      by rewrite lookup_insert_eq.
    + rewrite !lookup_insert_ne by done. done.
Qed.

Lemma range_assign_any_order (order : list (string * string))
    (from to : gmap string string) k :
  order ≡ₚ map_to_list from →
  range_assign order to !! k
  = match from !! k with Some v => Some v | None => to !! k end.
Proof.
  intros Hp.
  assert (NoDup order.*1) as Hnd.
  { rewrite Hp. apply NoDup_fst_map_to_list. }
  rewrite range_assign_lookup by done.
  assert ((list_to_map order : gmap string string) = from) as ->; [|done].
  rewrite <- (list_to_map_to_list from).
  apply list_to_map_proper; [done|]. by rewrite Hp.
Qed.

(** C7.  [applyRoute(route, params, preserveHost)], when the pointer it
    reads the host from is not nil, records the route, sets the outgoing
    host to the host of the inbound request if [preserveHost] and to the
    host of the route otherwise, and leaves path parameters in which
    every key of [params] has its new value and every other key keeps
    the value it had; the order in which the loop of [mergeParams] visits
    [params] does not matter, and no other field changes. *)
Theorem applyRoute_spec (c : context) (rt : option Route)
    (params : option (gmap string string)) (preserveHost : bool) (h : string) :
  (if preserveHost then req_Host <$> request c else route_Host <$> rt) = Some h →
  ∃ c' m,
    applyRoute c rt params preserveHost = Ok c'
    ∧ route c' = rt
    ∧ outgoingHost c' = h
    ∧ pathParams c' = Some m
    ∧ (∀ k, m !! k = merged (pathParams c) params k)
    ∧ (∀ k, PathParam c' k = default ""%string (merged (pathParams c) params k))
    ∧ (∀ order, order ≡ₚ map_to_list (default ∅ params) →
                range_assign order (default ∅ (pathParams c)) = m)
    ∧ same_but_routing c c'.
Proof.
  intros Hh.
  set (m := range_assign (map_to_list (default ∅ params)) (default ∅ (pathParams c))).
  assert (∀ k, m !! k = merged (pathParams c) params k) as Hm.
  { intros k. unfold m, merged.
    by rewrite (range_assign_any_order _ (default ∅ params)). }
  exists (set_pathParams (Some m) (set_outgoingHost h (set_route rt c))), m.
  split_and!; try done.
  - unfold applyRoute, mergeParams.
    destruct preserveHost; simpl in *.
    + destruct (request c) as [rq|]; simplify_eq/=.
      unfold m. by destruct (pathParams c).
    + destruct rt as [r|]; simplify_eq/=.
      unfold m. by destruct (pathParams c).
  - intros k. unfold PathParam. simpl. by rewrite Hm.
  - intros order Hp. apply map_eq. intros k.
    rewrite Hm. unfold merged. by rewrite (range_assign_any_order _ (default ∅ params)).
Qed.

(** The route is applied to the sample context with the host preserved:
    the identifier is overwritten, the language is kept, the name is
    added. *)
Lemma applyRoute_spec_witness :
  req_Host <$> request sample.context = Some "api.example.org"%string
  ∧ ∃ c' m,
      applyRoute sample.context (Some sample.route) sample.params true = Ok c'
      ∧ route c' = Some sample.route
      ∧ outgoingHost c' = "api.example.org"%string
      ∧ pathParams c' = Some m
      ∧ (∀ k, m !! k = merged (pathParams sample.context) sample.params k)
      ∧ (∀ k, PathParam c' k
              = default ""%string (merged (pathParams sample.context) sample.params k))
      ∧ (∀ order, order ≡ₚ map_to_list (default ∅ sample.params) →
                  range_assign order (default ∅ (pathParams sample.context)) = m)
      ∧ same_but_routing sample.context c'.
Proof.
  split; [reflexivity|].
  apply (applyRoute_spec sample.context (Some sample.route) sample.params true).
  reflexivity.
Defined.

(** C10.  [MarkServed] sets the flag [deprecatedServed] and changes no
    other field: afterwards [Served] is true, [Response] returns what it
    returned before, nil if there was no response, the flag of a response
    served with [Serve] is as it was, and no response is installed. *)
Theorem MarkServed_spec (c : context) :
  Served (MarkServed c) = true
  ∧ deprecatedShunted (MarkServed c) = true
  ∧ Response (MarkServed c) = Response c
  ∧ (Response c = None → Response (MarkServed c) = None)
  ∧ shunted (MarkServed c) = shunted c
  ∧ same_but_deprecatedServed c (MarkServed c).
Proof. by repeat split. Qed.
End context_properties.

(* ===================================================================== *)
(** * Properties of the tee filter                                         *)
(* ===================================================================== *)

Section filter_construction.
Import tee.
Context {Regexp : Type} {E : regexp.Engine Regexp}.
Variable url_Parse : string → URL + error.
Variable http_Client : Client.

(** C4.  [CreateFilter] returns an error exactly when the number of
    parameters is neither 1 nor 3, or the first parameter is not a
    string, or there are 3 parameters and the second or the third is not
    a string, or there are 3 parameters and the pattern does not compile,
    or the backend URL does not parse.  With an error there is no
    filter; without one the filter has the host and the scheme of the
    parsed URL, and with 3 parameters the compiled pattern and the
    replacement. *)
Theorem CreateFilter_spec (spec : teeSpec) (config : list iface) :
  let res := CreateFilter url_Parse http_Client spec config in
  (res.2 ≠ None ↔
     (length config ≠ 1 ∧ length config ≠ 3)
     ∨ (∀ s, config !! 0 ≠ Some (IString s))
     ∨ (length config = 3
        ∧ ((∀ s, config !! 1 ≠ Some (IString s)) ∨ (∀ s, config !! 2 ≠ Some (IString s))))
     ∨ (∃ expr err, length config = 3 ∧ config !! 1 = Some (IString expr)
                    ∧ regexp.Compile expr = inr err)
     ∨ (∃ backend err, config !! 0 = Some (IString backend)
                       ∧ url_Parse backend = inr err))
  ∧ (res.2 ≠ None → res.1 = None)
  ∧ (res.2 = None →
     ∃ backend url t,
       config !! 0 = Some (IString backend) ∧ url_Parse backend = inl url
       ∧ res.1 = Some t
       ∧ host t = Host url ∧ scheme t = Scheme url ∧ client t = http_Client
       ∧ (length config = 1 → typ t = asBackend ∧ rx t = None)
       ∧ (length config = 3 →
          typ t = pathModified
          ∧ ∃ expr re, config !! 1 = Some (IString expr)
                       ∧ regexp.Compile expr = inl re ∧ rx t = Some re
                       ∧ config !! 2 = Some (IString (replacement t)))).
Proof.
  unfold CreateFilter, config_at.
  destruct config as [|c0 [|c1 [|c2 [|c3 rest]]]]; simpl.
  - split_and!; [|done|done]. split; [intros _; left; lia | done].
  - destruct c0; simpl;
      try (split_and!; [|done|done];
           split; [intros _; right; left; by intros s | done]).
    destruct (url_Parse s) as [url|err] eqn:Hp; simpl.
    + split_and!; [|done|].
      * split; [done|]. intros [[]|[H|[[]|[(?&?&?&?&?)|(b&e&?&?)]]]];
          simplify_eq/=; try lia; try congruence; exfalso; by eapply H.
      * intros _. exists s, url. eexists. split_and!; try done; lia.
    + split_and!; [|done|done].
      split; [|done]. intros _. do 4 right. by exists s, err.
  - split_and!; [|by repeat case_match|by repeat case_match].
    split; [intros _; left; simpl; lia|]. intros _. by repeat case_match.
  - destruct c0; simpl;
      try (split_and!; [|done|done];
           split; [intros _; right; left; by intros s | done]).
    destruct (url_Parse s) as [url|err] eqn:Hp; simpl.
    2:{ split_and!; [|done|done].
        split; [|done]. intros _. do 4 right. by exists s, err. }
    destruct c1; simpl;
      try (split_and!; [|done|done];
           split; [intros _; do 2 right; left; split; [done|left; by intros ?] | done]).
    destruct c2; simpl;
      try (split_and!; [|done|done];
           split; [intros _; do 2 right; left; split; [done|right; by intros ?] | done]).
    destruct (regexp.Compile s0) as [re|err] eqn:Hc; simpl.
    + split_and!; [|done|].
      * split; [done|].
        intros [[]|[H|[[_ [H|H]]|[(?&?&?&?&?)|(b&e&?&?)]]]];
          simplify_eq/=; try lia; try congruence; exfalso; by eapply H.
      * intros _. exists s, url. eexists. split_and!; try done; try lia.
        intros _. split; [done|]. by exists s0, re.
    + split_and!; [|done|done].
      split; [|done]. intros _. do 3 right. left. by exists s0, err.
  - split_and!; [|by repeat case_match|by repeat case_match].
    split; [intros _; left; simpl; lia|]. intros _. by repeat case_match.
Qed.
End filter_construction.

Section stream_tee.
Import tee.

Lemma Body_Read_TeeTie (src : Body) (w : loc) (len_b : nat) (σ : world) :
  Body_Read (TeeTie (Some src) w) len_b σ
  = '(res, src', σ') ← teeTie_Read (Body_Read src) w len_b σ;
    Ok (res, TeeTie (Some src') w, σ').
Proof. reflexivity. Qed.

Lemma pipe_serve_unfold (peer : list peer_action) (once : bool) (b : list byte) (n : nat)
    (recv : list (list byte * option error)) :
  pipe_serve peer once b n recv
  = if negb once && bool_decide (b = []) then Ok ((n, None), MkPipe peer recv None None)
    else match peer with
         | [] => Block
         | PeerRead k :: peer' =>
             pipe_serve peer' false (drop (k `min` length b) b) (n + k `min` length b)
               (recv ++ [(take (k `min` length b) b, None)])
         | PeerClose err :: peer' =>
             Ok ((n, Some (writeCloseError (closeRead err (MkPipe peer' recv None None)))),
                 closeRead err (MkPipe peer' recv None None))
         end.
Proof. by destruct peer. Qed.

Lemma pipe_serve_no_panic (peer : list peer_action) :
  ∀ once b n recv, pipe_serve peer once b n recv ≠ Panic.
Proof.
  induction peer as [|[k|e] peer IH]; intros once b n recv;
    rewrite pipe_serve_unfold; destruct (negb once && _); first [done | apply IH].
Qed.

Lemma tee_write_no_panic (data : list byte) (pp : pipe) : tee_write data pp ≠ Panic.
Proof.
  unfold tee_write, pipe_write. case_decide; [done|].
  destruct (pipe_done pp); [done|].
  pose proof (pipe_serve_no_panic (p_peer pp) true data 0 (p_recv pp)).
  by destruct (pipe_serve _ _ _ _ _) as [[[? ?] ?]| |].
Qed.

Lemma pipe_open (pp : pipe) :
  pipe_done pp = false → p_werr pp = None ∧ p_rerr pp = None.
Proof.
  unfold pipe_done. intros [Hw%bool_decide_eq_false Hr%bool_decide_eq_false]%orb_false_elim.
  split; [destruct (p_werr pp)|destruct (p_rerr pp)]; try done; exfalso; eauto.
Qed.

Lemma tee_write_done (data : list byte) (pp : pipe) :
  data ≠ [] → pipe_done pp = true →
  tee_write data pp = Ok (Some (writeCloseError pp), pp).
Proof. intros Hd Hdone. unfold tee_write, pipe_write. by rewrite decide_False, Hdone. Qed.

(** One read through the tee, given the read of the wrapped reader, when
    the write returns. *)
Lemma teeTie_Read_step (src : Body) (w : loc) (len_b : nat) (σ σ1 : world)
    (data : list byte) (err : option error) (src' : Body) (pp pp1 : pipe) :
  Body_Read src len_b σ = Ok ((data, err), src', σ1) →
  pipes σ1 !! w = Some pp →
  tee_pipe data err pp = Ok pp1 →
  ∃ σ2,
    Body_Read (TeeTie (Some src) w) len_b σ
    = Ok ((data, err), TeeTie (Some src') w, σ2)
    ∧ pipes σ2 = <[w := pp1]> (pipes σ1)
    ∧ logs σ2 = logs σ1 ++ tee_log data err pp
    ∧ arrays σ2 = arrays σ1 ∧ hmaps σ2 = hmaps σ1 ∧ stderr σ2 = stderr σ1.
Proof.
  intros Hr Hp Ht. rewrite Body_Read_TeeTie. unfold teeTie_Read.
  rewrite Hr. simpl.
  unfold tee_pipe, tee_log, tee_write in *.
  destruct err as [e|]; [destruct (decide (e = EOF)) as [->|Hne]|].
  - rewrite bool_decide_eq_false_2 by (intros [? ?]; congruence).
    rewrite (bool_decide_eq_true_2 (_ ∨ _)) by naive_solver.
    rewrite (bool_decide_eq_true_2 (Some EOF = Some EOF)) by done.
    destruct data as [|d data]; simpl in *.
    + simplify_eq. unfold PipeWriter_Close, PipeWriter_CloseWithError. rewrite Hp. simpl.
      eexists. split; [reflexivity|]. simpl. by rewrite app_nil_r.
    + unfold PipeWriter_Write. rewrite Hp. simpl.
      destruct (pipe_write (d :: data) pp) as [[[n werr] pw]| |]; simpl in *; [|done..].
      simplify_eq.
      destruct werr; simpl; unfold PipeWriter_Close, PipeWriter_CloseWithError; simpl;
        rewrite lookup_insert_eq; simpl; (eexists; split; [reflexivity|]); simpl;
        rewrite insert_insert_eq, ?app_nil_r; done.
  - rewrite bool_decide_eq_true_2 by naive_solver.
    rewrite (bool_decide_eq_false_2 (_ ∨ _)) by (intros [?|?]; congruence). simpl.
    simplify_eq.
    unfold PipeWriter_CloseWithError. rewrite Hp. simpl.
    eexists. split; [reflexivity|]. simpl. by rewrite app_nil_r.
  - rewrite bool_decide_eq_false_2 by (intros [? ?]; congruence).
    rewrite (bool_decide_eq_true_2 (_ ∨ _)) by naive_solver.
    rewrite (bool_decide_eq_false_2 (None = Some EOF)) by done.
    destruct data as [|d data]; simpl in *.
    + simplify_eq. eexists. split; [reflexivity|]. simpl.
      by rewrite insert_id, app_nil_r.
    + unfold PipeWriter_Write. rewrite Hp. simpl.
      destruct (pipe_write (d :: data) pp) as [[[n werr] pw]| |]; simpl in *; [|done..].
      simplify_eq.
      destruct werr; simpl; (eexists; split; [reflexivity|]); simpl;
        rewrite ?app_nil_r; done.
Qed.

(** One read through the tee whose write waits for ever. *)
Lemma teeTie_Read_block (src : Body) (w : loc) (len_b : nat) (σ σ1 : world)
    (data : list byte) (err : option error) (src' : Body) (pp : pipe) :
  Body_Read src len_b σ = Ok ((data, err), src', σ1) →
  pipes σ1 !! w = Some pp →
  tee_pipe data err pp = Block →
  Body_Read (TeeTie (Some src) w) len_b σ = Block.
Proof.
  intros Hr Hp Ht. rewrite Body_Read_TeeTie. unfold teeTie_Read.
  rewrite Hr. simpl.
  unfold tee_pipe, tee_write in *.
  destruct err as [e|]; [destruct (decide (e = EOF)) as [->|Hne]|]; [| done |].
  - rewrite bool_decide_eq_false_2 by (intros [? ?]; congruence).
    destruct data as [|d data]; simpl in *; [done|].
    unfold PipeWriter_Write. rewrite Hp. simpl.
    by destruct (pipe_write (d :: data) pp) as [[[n werr] pw]| |].
  - rewrite bool_decide_eq_false_2 by (intros [? ?]; congruence).
    destruct data as [|d data]; simpl in *; [done|].
    unfold PipeWriter_Write. rewrite Hp. simpl.
    by destruct (pipe_write (d :: data) pp) as [[[n werr] pw]| |].
Qed.

Lemma tee_pipe_no_panic (data : list byte) (err : option error) (pp : pipe) :
  tee_pipe data err pp ≠ Panic.
Proof.
  unfold tee_pipe. pose proof (tee_write_no_panic data pp).
  destruct err as [e|]; [destruct (decide (e = EOF))|];
    by destruct (tee_write data pp) as [[? ?]| |].
Qed.

(** C8.  A read through the tee in which the wrapped reader returns an
    error other than end-of-stream returns the bytes and the error of the
    wrapped reader as they are, calls [CloseWithError] with that error on
    the pipe and writes nothing to it: the read end has been handed no
    byte, no line is logged, and on a pipe that was not closed before,
    the read end gets that error from its next read and from every read
    after it. *)
Theorem teeTie_Read_propagates_error (src : Body) (w : loc) (len_b : nat)
    (σ σ1 : world) (data : list byte) (e : error) (src' : Body) (pp : pipe) :
  Body_Read src len_b σ = Ok ((data, Some e), src', σ1) →
  e ≠ EOF →
  pipes σ1 !! w = Some pp →
  ∃ σ2,
    Body_Read (TeeTie (Some src) w) len_b σ
    = Ok ((data, Some e), TeeTie (Some src') w, σ2)
    ∧ PipeWriter_CloseWithError w (Some e) σ1 = Ok σ2
    ∧ pipes σ2 !! w = Some (closeWrite (Some e) pp)
    ∧ p_recv (closeWrite (Some e) pp) = p_recv pp
    ∧ p_peer (closeWrite (Some e) pp) = p_peer pp
    ∧ logs σ2 = logs σ1
    ∧ (pipe_done pp = false →
       p_werr (closeWrite (Some e) pp) = Some e
       ∧ (∀ n, pipe_read n (closeWrite (Some e) pp)
               = Ok (([], Some e), closeWrite (Some e) pp))
       ∧ ∀ q n, p_werr q = Some e → p_rerr q = None →
                pipe_read n q = Ok (([], Some e), q)).
Proof.
  intros Hr Hne Hp.
  destruct (teeTie_Read_step _ w _ _ _ _ _ _ _ (closeWrite (Some e) pp) Hr Hp)
    as (σ2 & HR & Hpipes & Hlogs & Ha & Hh & Hs).
  { unfold tee_pipe. by rewrite decide_False. }
  exists σ2. unfold tee_log in *.
  rewrite (bool_decide_eq_false_2 (_ ∨ _)) in Hlogs by (intros [?|?]; congruence).
  rewrite app_nil_r in Hlogs.
  assert (∀ q n, p_werr q = Some e → p_rerr q = None →
                 pipe_read n q = Ok (([], Some e), q)) as Hread.
  { intros q n Hqw Hqr. unfold pipe_read, pipe_done, readCloseError.
    by rewrite Hqw, Hqr. }
  split_and!; try done.
  - unfold PipeWriter_CloseWithError. rewrite Hp. f_equal.
    destruct σ2, σ1; simpl in *. by subst.
  - by rewrite Hpipes, lookup_insert_eq.
  - intros [Hw Hre]%pipe_open. split_and!; [simpl; by rewrite Hw| |done].
    intros n. apply Hread; simpl; [by rewrite Hw|done].
Qed.

(** A reader that breaks after 3 bytes, behind a tee on an open pipe. *)
Lemma teeTie_Read_propagates_error_witness :
  Body_Read sample.broken_body 8 sample.σ0
  = Ok ((sample.bytes "abc", Some (ErrOther "connection reset by peer")),
        sample.broken_body, sample.σ0)
  ∧ ErrOther "connection reset by peer" ≠ EOF
  ∧ pipes sample.σ0 !! 1%positive = Some new_pipe
  ∧ ∃ σ2,
      Body_Read (TeeTie (Some sample.broken_body) 1%positive) 8 sample.σ0
      = Ok ((sample.bytes "abc", Some (ErrOther "connection reset by peer")),
            TeeTie (Some sample.broken_body) 1%positive, σ2)
      ∧ pipes σ2 !! 1%positive
        = Some (MkPipe [] [] (Some (ErrOther "connection reset by peer")) None)
      ∧ logs σ2 = [].
Proof.
  split_and!; [reflexivity|discriminate|reflexivity|].
  destruct (teeTie_Read_propagates_error sample.broken_body 1%positive 8
              sample.σ0 sample.σ0 (sample.bytes "abc")
              (ErrOther "connection reset by peer") sample.broken_body new_pipe
              eq_refl ltac:(discriminate) eq_refl)
    as (σ2 & HR & _ & Hp & _ & _ & Hl & _).
  exists σ2. split_and!; [exact HR|exact Hp|exact Hl].
Defined.

(** C9.  A read through the tee in which the wrapped reader returns no
    error or end-of-stream never returns anything but the bytes and the
    error result of the wrapped reader, whatever the state of the pipe
    and whatever comes of the write.  When the write fails, because the
    pipe was closed before or because its reader closes it before it has
    taken every byte, the failure is one logged line and nothing else;
    when the write succeeds or there is nothing to write, nothing is
    logged; the one other course is that the write waits for a reader for
    ever, and the read with it.  On a pipe that is closed the read always
    returns. *)
Theorem teeTie_Read_swallows_write_failure (src : Body) (w : loc) (len_b : nat)
    (σ σ1 : world) (data : list byte) (err : option error) (src' : Body) (pp : pipe) :
  Body_Read src len_b σ = Ok ((data, err), src', σ1) →
  err = None ∨ err = Some EOF →
  pipes σ1 !! w = Some pp →
  match tee_write data pp with
  | Ok (werr, _) =>
      ∃ σ2,
        Body_Read (TeeTie (Some src) w) len_b σ
        = Ok ((data, err), TeeTie (Some src') w, σ2)
        ∧ logs σ2
          = logs σ1 ++ match werr with
                       | Some we => [MkLog LError "error while tee request" we]
                       | None => []
                       end
  | Block => Body_Read (TeeTie (Some src) w) len_b σ = Block
  | Panic => False
  end
  ∧ (data ≠ [] → pipe_done pp = true →
     (∃ σw, PipeWriter_Write w data σ1 = Ok ((0, Some (writeCloseError pp)), σw))
     ∧ ∃ σ2,
         Body_Read (TeeTie (Some src) w) len_b σ
         = Ok ((data, err), TeeTie (Some src') w, σ2)
         ∧ logs σ2
           = logs σ1 ++ [MkLog LError "error while tee request" (writeCloseError pp)])
  ∧ (data = [] →
     ∃ σ2,
       Body_Read (TeeTie (Some src) w) len_b σ
       = Ok ((data, err), TeeTie (Some src') w, σ2)
       ∧ logs σ2 = logs σ1)
  ∧ (data ≠ [] →
     ∀ n we pw, pipe_write data pp = Ok ((n, Some we), pw) →
                tee_write data pp = Ok (Some we, pw))
  ∧ (data ≠ [] →
     ∀ n pw, pipe_write data pp = Ok ((n, None), pw) →
             tee_write data pp = Ok (None, pw)).
Proof.
  intros Hr Herr Hp.
  assert (∀ werr pw, tee_write data pp = Ok (werr, pw) →
            ∃ σ2,
              Body_Read (TeeTie (Some src) w) len_b σ
              = Ok ((data, err), TeeTie (Some src') w, σ2)
              ∧ logs σ2
                = logs σ1 ++ match werr with
                             | Some we => [MkLog LError "error while tee request" we]
                             | None => []
                             end) as Hmain.
  { intros werr pw Hw.
    assert (∃ pp1, tee_pipe data err pp = Ok pp1) as [pp1 Ht].
    { unfold tee_pipe. rewrite Hw. destruct Herr as [-> | ->]; simpl; by eexists. }
    destruct (teeTie_Read_step _ w _ _ _ _ _ _ _ _ Hr Hp Ht)
      as (σ2 & HR & _ & Hlogs & _).
    exists σ2. split; [done|]. rewrite Hlogs. unfold tee_log.
    rewrite (bool_decide_eq_true_2 (_ ∨ _)) by done. rewrite Hw. by destruct werr. }
  split_and!.
  - destruct (tee_write data pp) as [[werr pw]| |] eqn:Hw.
    + by apply (Hmain werr pw).
    + by apply (tee_write_no_panic data pp).
    + apply (teeTie_Read_block _ w _ _ _ _ _ _ _ Hr Hp).
      unfold tee_pipe. rewrite Hw. by destruct Herr as [-> | ->].
  - intros Hd Hdone. split.
    + unfold PipeWriter_Write, pipe_write. rewrite Hp, Hdone. simpl. by eexists.
    + apply (Hmain (Some (writeCloseError pp)) pp). by apply tee_write_done.
  - intros ->. destruct (Hmain None pp eq_refl) as (σ2 & HR & Hl).
    exists σ2. by rewrite app_nil_r in Hl.
  - intros Hd n we pw Hw. unfold tee_write. by rewrite decide_False, Hw.
  - intros Hd n pw Hw. unfold tee_write. by rewrite decide_False, Hw.
Qed.

(** A read with a buffer of 5 bytes through a tee whose pipe has been
    closed by its reader: the caller gets the 3 bytes that the connection
    delivers and no error. *)
Lemma teeTie_Read_swallows_write_failure_witness :
  Body_Read sample.body 5 sample.σ_reader_gone
  = Ok ((sample.bytes "hel", None),
        ExtBody (netbody.MkChunked (sample.bytes "lo, shadow backend") [(100, true)] false),
        sample.σ_reader_gone)
  ∧ ((None : option error) = None ∨ (None : option error) = Some EOF)
  ∧ pipes sample.σ_reader_gone !! 1%positive = Some (closeRead None new_pipe)
  ∧ ∃ σ2,
      Body_Read (TeeTie (Some sample.body) 1%positive) 5 sample.σ_reader_gone
      = Ok ((sample.bytes "hel", None),
            TeeTie (Some (ExtBody (netbody.MkChunked (sample.bytes "lo, shadow backend")
                                     [(100, true)] false))) 1%positive,
            σ2)
      ∧ logs σ2 = [MkLog LError "error while tee request" ErrClosedPipe].
Proof.
  split_and!; [reflexivity|by left|reflexivity|].
  destruct (teeTie_Read_swallows_write_failure sample.body 1%positive 5
              sample.σ_reader_gone sample.σ_reader_gone (sample.bytes "hel") None
              (ExtBody (netbody.MkChunked (sample.bytes "lo, shadow backend")
                          [(100, true)] false))
              (closeRead None new_pipe) eq_refl (or_introl eq_refl) eq_refl)
    as (_ & Hfail & _).
  destruct Hfail as [_ (σ2 & HR & Hl)]; [discriminate|reflexivity|].
  exists σ2. split; [exact HR|exact Hl].
Defined.

Lemma chunked_Read_spec (st : netbody.chunked) (len_b : nat) :
  let '((data, err), st') := netbody.chunked_Read st len_b in
  data ++ netbody.rest st' = netbody.rest st
  ∧ (err = None ∨ err = Some EOF)
  ∧ (err = Some EOF → netbody.rest st' = [])
  ∧ (netbody.rest st = [] → data = [] ∧ err = Some EOF).
Proof.
  unfold netbody.chunked_Read.
  destruct (netbody.rest st) as [|b bs] eqn:Hrest; [by repeat split; auto|].
  destruct (default _ _) as [k e]. simpl.
  split_and!.
  - apply take_drop.
  - case_bool_decide; destruct e; simpl; auto.
  - case_bool_decide; destruct e; simpl; auto; done.
  - done.
Qed.

(** A write on an open pipe whose reader goes on reading: the reads take
    the bytes, each of them at least one, and the write returns. *)
Lemma pipe_serve_reads (tl : list peer_action) (ks : list nat) :
  ∀ (once : bool) (b : list byte) (n : nat) (recv : list (list byte * option error)),
    Forall (λ k, 0 < k) ks → length b ≤ length ks → (once = true → b ≠ []) →
    ∃ j chunks,
      pipe_serve ((PeerRead <$> ks) ++ tl) once b n recv
      = Ok ((n + length b, None),
            MkPipe ((PeerRead <$> drop j ks) ++ tl) (recv ++ chunks) None None)
      ∧ j ≤ length b ∧ concat chunks.*1 = b
      ∧ Forall (λ c, c.1 ≠ [] ∧ c.2 = None) chunks.
Proof.
  induction ks as [|k ks IH]; intros once b n recv Hpos Hlen Honce.
  - destruct b; [|simpl in Hlen; lia]. destruct once; [by destruct Honce|].
    exists 0, []. rewrite pipe_serve_unfold. simpl.
    by rewrite app_nil_r, Nat.add_0_r.
  - destruct (decide (b = [])) as [->|Hb].
    + destruct once; [by destruct Honce|].
      exists 0, []. rewrite pipe_serve_unfold. simpl.
      by rewrite app_nil_r, Nat.add_0_r.
    + rewrite pipe_serve_unfold.
      rewrite (bool_decide_eq_false_2 (b = [])), andb_false_r by done.
      apply Forall_cons in Hpos as [Hk Hpos]. cbn [fmap list_fmap app].
      assert (0 < length b) as Hlb by (destruct b; [done|simpl; lia]).
      set (nr := k `min` length b). assert (0 < nr ≤ length b) as Hnr by lia.
      destruct (IH false (drop nr b) (n + nr) (recv ++ [(take nr b, None)]) Hpos)
        as (j & chunks & Hrun & Hj & Hcat & Hall).
      { rewrite length_drop. simpl in Hlen. lia. }
      { done. }
      rewrite length_drop in Hrun, Hj.
      exists (S j), ((take nr b, None) :: chunks). split_and!.
      * rewrite Hrun. simpl. rewrite <- app_assoc. simpl.
        replace (n + nr + (length b - nr)) with (n + length b) by lia. done.
      * lia.
      * rewrite fmap_cons, concat_cons. cbn [fst]. rewrite Hcat. apply take_drop.
      * constructor; [|done]. split; [|done]. simpl.
        intros Ht. apply (f_equal length) in Ht. rewrite length_take in Ht.
        simpl in Ht. lia.
Qed.

Lemma tee_write_reads (tl : list peer_action) (ks : list nat) (data : list byte) (pp : pipe) :
  pipe_done pp = false → p_peer pp = (PeerRead <$> ks) ++ tl →
  Forall (λ k, 0 < k) ks → length data ≤ length ks →
  ∃ j chunks,
    tee_write data pp
    = Ok (None, MkPipe ((PeerRead <$> drop j ks) ++ tl) (p_recv pp ++ chunks) None None)
    ∧ j ≤ length data ∧ concat chunks.*1 = data
    ∧ Forall (λ c, c.1 ≠ [] ∧ c.2 = None) chunks.
Proof.
  intros Ho Hpeer Hpos Hlen. unfold tee_write. case_decide as Hd.
  - subst. exists 0, []. destruct (pipe_open _ Ho) as [Hw Hr].
    destruct pp; simpl in *; subst. by rewrite app_nil_r.
  - unfold pipe_write. rewrite Ho, Hpeer.
    destruct (pipe_serve_reads tl ks true data 0 (p_recv pp) Hpos Hlen)
      as (j & chunks & Hrun & Hrest); [done|].
    rewrite Hrun. simpl. by exists j, chunks.
Qed.

(** A read through a tee whose pipe is closed: the pipe stays as it is but
    for the error of the writer's close, which is the first one; a line
    is logged only when there were bytes to write. *)
Lemma tee_pipe_closed (data : list byte) (err : option error) (pp : pipe) :
  pipe_done pp = true →
  ∃ pp1,
    tee_pipe data err pp = Ok pp1
    ∧ p_peer pp1 = p_peer pp ∧ p_recv pp1 = p_recv pp ∧ p_rerr pp1 = p_rerr pp
    ∧ (∀ e, p_werr pp = Some e → p_werr pp1 = Some e)
    ∧ (p_rerr pp = None → p_werr pp1 = p_werr pp)
    ∧ pipe_done pp1 = true
    ∧ (data = [] → tee_log data err pp = []).
Proof.
  intros Hdone.
  assert (p_rerr pp = None → is_Some (p_werr pp)) as Hw.
  { intros Hr. unfold pipe_done in Hdone. rewrite Hr in Hdone.
    rewrite orb_false_r in Hdone. by apply bool_decide_eq_true in Hdone. }
  assert (∃ we, tee_write data pp = Ok (we, pp) ∧ (data = [] → we = None))
    as (we & Hwr & Hwe).
  { destruct (decide (data = [])) as [->|Hd].
    - by exists None.
    - exists (Some (writeCloseError pp)). split; [by apply tee_write_done|done]. }
  assert (∀ x, pipe_done (closeWrite x pp) = true) as Hcd.
  { intros x. unfold pipe_done, closeWrite. simpl.
    destruct (p_werr pp); simpl; done. }
  assert (∀ e0, tee_log data (Some e0) pp = [] ∨ data ≠ []) as Hl1.
  { intros e0. destruct (decide (data = [])) as [Hd|Hd]; [left|by right].
    unfold tee_log. rewrite Hwr, (Hwe Hd). by case_bool_decide. }
  assert (data = [] → ∀ er, tee_log data er pp = []) as Hlog.
  { intros Hd er. unfold tee_log. rewrite Hwr, (Hwe Hd). by case_bool_decide. }
  unfold tee_pipe. rewrite Hwr. simpl.
  destruct err as [e|]; [destruct (decide (e = EOF)) as [->|Hne]|].
  - exists (closeWrite None pp). split_and!; try done.
    + intros e0 He0. simpl. by rewrite He0.
    + intros Hr. destruct (Hw Hr) as [e0 He0]. simpl. by rewrite He0.
    + intros Hd. by apply Hlog.
  - exists (closeWrite (Some e) pp). split_and!; try done.
    + intros e0 He0. simpl. by rewrite He0.
    + intros Hr. destruct (Hw Hr) as [e0 He0]. simpl. by rewrite He0.
    + intros Hd. by apply Hlog.
  - exists pp. split_and!; try done. intros Hd. by apply Hlog.
Qed.

Section any_reader.
Context {R : Type} {RC : ReadCloser R}.

Lemma read_all_ExtBody (sizes : list nat) (st : R) (σ : world) :
  read_all (ExtBody st) sizes σ
  = Ok ((read_source st sizes).1, ExtBody (read_source st sizes).2, σ).
Proof.
  revert st. induction sizes as [|n sizes IH]; intros st; [done|].
  simpl. destruct (Read st n) as [res st1]. simpl. rewrite IH.
  by destruct (read_source st1 sizes).
Qed.

Lemma read_all_tee_cons (w : loc) (n : nat) (sizes : list nat) (st : R) (σ : world) :
  read_all (TeeTie (Some (ExtBody st)) w) (n :: sizes) σ
  = '(res, b', σ') ← Body_Read (TeeTie (Some (ExtBody st)) w) n σ;
    '(ress, b'', σ'') ← read_all b' sizes σ';
    Ok (res :: ress, b'', σ'').
Proof. reflexivity. Qed.

(** Reads through a tee whose pipe is closed: they all return. *)
Lemma tee_run_closed (w : loc) (sizes : list nat) :
  ∀ (st : R) (σ : world) (pp : pipe),
    pipes σ !! w = Some pp → pipe_done pp = true →
    ∃ σ' pp',
      read_all (TeeTie (Some (ExtBody st)) w) sizes σ
      = Ok ((read_source st sizes).1, TeeTie (Some (ExtBody (read_source st sizes).2)) w, σ')
      ∧ pipes σ' = <[w := pp']> (pipes σ)
      ∧ p_peer pp' = p_peer pp ∧ p_recv pp' = p_recv pp ∧ p_rerr pp' = p_rerr pp
      ∧ (∀ e, p_werr pp = Some e → p_werr pp' = Some e)
      ∧ (p_rerr pp = None → p_werr pp' = p_werr pp)
      ∧ arrays σ' = arrays σ ∧ hmaps σ' = hmaps σ
      ∧ (forallb (λ r, bool_decide (r.1 = [])) (read_source st sizes).1 = true →
         logs σ' = logs σ).
Proof.
  induction sizes as [|n sizes IH]; intros st σ pp Hp Hdone.
  - exists σ, pp. simpl. split_and!; try done. by rewrite insert_id.
  - rewrite read_all_tee_cons. cbn [read_source].
    destruct (Read st n) as [[data err] st1] eqn:Hrd.
    assert (Body_Read (ExtBody st) n σ = Ok ((data, err), ExtBody st1, σ)) as Hsrc.
    { simpl. by rewrite Hrd. }
    destruct (tee_pipe_closed data err pp Hdone)
      as (pp1 & Ht & Hpeer & Hrecv & Hrerr & Hwerr & Hwerr0 & Hdone1 & Hlog).
    destruct (teeTie_Read_step _ w _ _ _ _ _ _ _ _ Hsrc Hp Ht)
      as (σ2 & HR & Hpipes & Hlogs & Ha & Hh & _).
    destruct (IH st1 σ2 pp1) as (σ' & pp' & Hrun & Hp' & Hpeer' & Hrecv' & Hrerr'
                                  & Hwerr' & Hwerr0' & Ha' & Hh' & Hlogs'); [|done|].
    { by rewrite Hpipes, lookup_insert_eq. }
    destruct (read_source st1 sizes) as [rs st'] eqn:Hrs. simpl in *.
    exists σ', pp'. rewrite HR. simpl. rewrite Hrun. simpl.
    split_and!; try done; try congruence.
    + by rewrite Hp', Hpipes, insert_insert_eq.
    + intros e He. by apply Hwerr', Hwerr.
    + intros Hr. rewrite Hwerr0' by congruence. by apply Hwerr0.
    + intros [Hd%bool_decide_eq_true Hall]%andb_true_iff.
      rewrite Hlogs' by done. rewrite Hlogs, Hlog by done. by rewrite app_nil_r.
Qed.

(** Reads through a tee whose pipe is open and whose reader goes on
    reading: they all return, the reader is handed the bytes of the reads
    up to the first error, and the pipe is closed with that error. *)
Lemma tee_run_open (w : loc) (tl : list peer_action) (sizes : list nat) :
  ∀ (st : R) (σ : world) (pp : pipe) (ks : list nat),
    pipes σ !! w = Some pp → pipe_done pp = false →
    p_peer pp = (PeerRead <$> ks) ++ tl → Forall (λ k, 0 < k) ks →
    length (mirrored (read_source st sizes).1) ≤ length ks →
    ∃ σ' pp' j chunks,
      read_all (TeeTie (Some (ExtBody st)) w) sizes σ
      = Ok ((read_source st sizes).1, TeeTie (Some (ExtBody (read_source st sizes).2)) w, σ')
      ∧ pipes σ' = <[w := pp']> (pipes σ)
      ∧ p_recv pp' = p_recv pp ++ chunks
      ∧ concat chunks.*1 = mirrored (read_source st sizes).1
      ∧ Forall (λ c, c.1 ≠ [] ∧ c.2 = None) chunks
      ∧ p_peer pp' = (PeerRead <$> drop j ks) ++ tl
      ∧ j ≤ length (mirrored (read_source st sizes).1)
      ∧ p_werr pp' = first_error (read_source st sizes).1 ∧ p_rerr pp' = None
      ∧ arrays σ' = arrays σ ∧ hmaps σ' = hmaps σ
      ∧ (well_ended (read_source st sizes).1 = true → logs σ' = logs σ).
Proof.
  induction sizes as [|n sizes IH]; intros st σ pp ks Hp Ho Hpeer Hpos Hlen.
  - destruct (pipe_open _ Ho) as [Hw Hr].
    exists σ, pp, 0, []. simpl. rewrite app_nil_r.
    split_and!; try done. by rewrite insert_id.
  - rewrite read_all_tee_cons. cbn [read_source] in *.
    destruct (Read st n) as [[data err] st1] eqn:Hrd.
    assert (Body_Read (ExtBody st) n σ = Ok ((data, err), ExtBody st1, σ)) as Hsrc.
    { simpl. by rewrite Hrd. }
    destruct (read_source st1 sizes) as [rs st'] eqn:Hrs. simpl in Hlen |- *.
    destruct err as [e|]; [destruct (decide (e = EOF)) as [->|Hne]|].
    + (* end-of-stream *)
      rewrite ?decide_True in Hlen by done.
      destruct (tee_write_reads tl ks data pp Ho Hpeer Hpos Hlen)
        as (j & chunks & Hwr & Hj & Hcat & Hall).
      set (pw := MkPipe ((PeerRead <$> drop j ks) ++ tl) (p_recv pp ++ chunks) None None) in *.
      assert (tee_pipe data (Some EOF) pp = Ok (closeWrite None pw)) as Ht.
      { unfold tee_pipe. rewrite decide_True by done. by rewrite Hwr. }
      destruct (teeTie_Read_step _ w _ _ _ _ _ _ _ _ Hsrc Hp Ht)
        as (σ2 & HR & Hpipes & Hlogs & Ha & Hh & _).
      destruct (tee_run_closed w sizes st1 σ2 (closeWrite None pw))
        as (σ' & pp' & Hrun & Hp' & Hpeer' & Hrecv' & Hrerr' & Hwerr' & Hwerr0'
            & Ha' & Hh' & Hlogs'); [by rewrite Hpipes, lookup_insert_eq|done|].
      rewrite Hrs in Hrun, Hlogs'. simpl in *.
      exists σ', pp', j, chunks. rewrite HR. simpl. rewrite Hrun. simpl.
      rewrite ?decide_True by done.
      split_and!; try done; try congruence.
      * by rewrite Hp', Hpipes, insert_insert_eq.
      * by rewrite Hwerr0'.
      * intros Hempty. try (apply andb_true_iff in Hempty as [_ Hempty]).
        rewrite Hlogs' by done.
        rewrite Hlogs. unfold tee_log. rewrite Hwr.
        rewrite bool_decide_eq_true_2 by naive_solver. by rewrite app_nil_r.
    + (* an error *)
      rewrite ?decide_False in Hlen by done.
      assert (tee_pipe data (Some e) pp = Ok (closeWrite (Some e) pp)) as Ht.
      { unfold tee_pipe. by rewrite decide_False. }
      destruct (pipe_open _ Ho) as [Hw Hr].
      destruct (teeTie_Read_step _ w _ _ _ _ _ _ _ _ Hsrc Hp Ht)
        as (σ2 & HR & Hpipes & Hlogs & Ha & Hh & _).
      destruct (tee_run_closed w sizes st1 σ2 (closeWrite (Some e) pp))
        as (σ' & pp' & Hrun & Hp' & Hpeer' & Hrecv' & Hrerr' & Hwerr' & Hwerr0'
            & Ha' & Hh' & Hlogs'); [by rewrite Hpipes, lookup_insert_eq| |].
      { unfold pipe_done. simpl. by rewrite Hw. }
      rewrite Hrs in Hrun, Hlogs'. simpl in *.
      exists σ', pp', 0, []. rewrite HR. simpl. rewrite Hrun. simpl.
      rewrite ?decide_False by done. rewrite app_nil_r.
      split_and!; try done; try congruence.
      * by rewrite Hp', Hpipes, insert_insert_eq.
      * rewrite Hpeer'. by rewrite Hpeer.
      * rewrite Hwerr0' by done. by rewrite Hw.
      * rewrite (bool_decide_eq_false_2 (e = EOF)) by done. done.
    + (* no error *)
      rewrite length_app in Hlen.
      destruct (tee_write_reads tl ks data pp Ho Hpeer Hpos ltac:(lia))
        as (j & chunks & Hwr & Hj & Hcat & Hall).
      set (pw := MkPipe ((PeerRead <$> drop j ks) ++ tl) (p_recv pp ++ chunks) None None) in *.
      assert (tee_pipe data None pp = Ok pw) as Ht.
      { unfold tee_pipe. by rewrite Hwr. }
      destruct (teeTie_Read_step _ w _ _ _ _ _ _ _ _ Hsrc Hp Ht)
        as (σ2 & HR & Hpipes & Hlogs & Ha & Hh & _).
      destruct (IH st1 σ2 pw (drop j ks))
        as (σ' & pp' & j' & chunks' & Hrun & Hp' & Hrecv' & Hcat' & Hall' & Hpeer'
            & Hj' & Hwerr' & Hrerr' & Ha' & Hh' & Hlogs');
        [by rewrite Hpipes, lookup_insert_eq|done|done|by apply Forall_drop| |].
      { rewrite Hrs. simpl. rewrite length_drop. lia. }
      rewrite Hrs in Hrun, Hcat', Hj', Hwerr', Hlogs'. simpl in *.
      exists σ', pp', (j + j'), (chunks ++ chunks'). rewrite HR. simpl. rewrite Hrun. simpl.
      split_and!; try done; try congruence.
      * by rewrite Hp', Hpipes, insert_insert_eq.
      * by rewrite Hrecv', app_assoc.
      * by rewrite fmap_app, concat_app, Hcat, Hcat'.
      * by apply Forall_app.
      * by rewrite Hpeer', drop_drop.
      * rewrite length_app. lia.
      * intros Hwell. rewrite Hlogs' by done. rewrite Hlogs. unfold tee_log.
        rewrite Hwr. rewrite bool_decide_eq_true_2 by naive_solver. by rewrite app_nil_r.
Qed.

(** Reads through a tee return the results of the wrapped reader or wait
    for ever. *)
Lemma tee_run_results (w : loc) (sizes : list nat) :
  ∀ (st : R) (σ : world) (pp : pipe),
    pipes σ !! w = Some pp →
    read_all (TeeTie (Some (ExtBody st)) w) sizes σ = Block
    ∨ ∃ σ' pp',
        read_all (TeeTie (Some (ExtBody st)) w) sizes σ
        = Ok ((read_source st sizes).1,
              TeeTie (Some (ExtBody (read_source st sizes).2)) w, σ')
        ∧ pipes σ' = <[w := pp']> (pipes σ)
        ∧ arrays σ' = arrays σ ∧ hmaps σ' = hmaps σ.
Proof.
  induction sizes as [|n sizes IH]; intros st σ pp Hp.
  - right. exists σ, pp. simpl. split_and!; try done. by rewrite insert_id.
  - rewrite read_all_tee_cons. cbn [read_source].
    destruct (Read st n) as [[data err] st1] eqn:Hrd.
    assert (Body_Read (ExtBody st) n σ = Ok ((data, err), ExtBody st1, σ)) as Hsrc.
    { simpl. by rewrite Hrd. }
    destruct (tee_pipe data err pp) as [pp1| |] eqn:Ht.
    + destruct (teeTie_Read_step _ w _ _ _ _ _ _ _ _ Hsrc Hp Ht)
        as (σ2 & HR & Hpipes & Hlogs & Ha & Hh & _).
      rewrite HR. simpl.
      destruct (IH st1 σ2 pp1) as [Hb|(σ' & pp' & Hrun & Hp' & Ha' & Hh')].
      { by rewrite Hpipes, lookup_insert_eq. }
      * left. by rewrite Hb.
      * right. exists σ', pp'. rewrite Hrun.
        destruct (read_source st1 sizes) as [rs st']. simpl.
        split_and!; try done; try congruence.
        by rewrite Hp', Hpipes, insert_insert_eq.
    + by destruct (tee_pipe_no_panic data err pp).
    + left. by rewrite (teeTie_Read_block _ w _ _ _ _ _ _ _ Hsrc Hp Ht).
Qed.

(** Reads through a tee whose pipe is open and has no reader wait for
    ever as soon as there is a byte to hand over. *)
Lemma tee_run_unread (w : loc) (sizes : list nat) :
  ∀ (st : R) (σ : world) (pp : pipe),
    pipes σ !! w = Some pp → pipe_done pp = false → p_peer pp = [] →
    mirrored (read_source st sizes).1 ≠ [] →
    read_all (TeeTie (Some (ExtBody st)) w) sizes σ = Block.
Proof.
  induction sizes as [|n sizes IH]; intros st σ pp Hp Ho Hpeer Hm; [done|].
  rewrite read_all_tee_cons. cbn [read_source] in Hm.
  destruct (Read st n) as [[data err] st1] eqn:Hrd.
  assert (Body_Read (ExtBody st) n σ = Ok ((data, err), ExtBody st1, σ)) as Hsrc.
  { simpl. by rewrite Hrd. }
  destruct (read_source st1 sizes) as [rs st'] eqn:Hrs. simpl in Hm.
  assert (data ≠ [] → tee_write data pp = Block) as Hblock.
  { intros Hd. unfold tee_write, pipe_write. rewrite decide_False, Ho, Hpeer by done.
    by rewrite pipe_serve_unfold. }
  destruct (decide (data = [])) as [->|Hd].
  - destruct err as [e|]; [by destruct (decide (e = EOF))|]. simpl in Hm.
    assert (tee_pipe [] None pp = Ok pp) as Ht by done.
    destruct (teeTie_Read_step _ w _ _ _ _ _ _ _ _ Hsrc Hp Ht)
      as (σ2 & HR & Hpipes & _).
    rewrite HR. simpl. rewrite (IH st1 σ2 pp); try done.
    + by rewrite Hpipes, lookup_insert_eq.
    + by rewrite Hrs.
  - rewrite (teeTie_Read_block _ w _ _ _ _ _ _ _ Hsrc Hp); [done|].
    unfold tee_pipe. rewrite (Hblock Hd).
    destruct err as [e|]; [|done]. by destruct (decide (e = EOF)).
Qed.
End any_reader.

Lemma no_bytes_concat (rs : list (list byte * option error)) :
  forallb (λ r, bool_decide (r.1 = [])) rs = true → concat rs.*1 = [].
Proof.
  induction rs as [|[d e] rs IH]; [done|]. cbn [forallb fst].
  intros [->%bool_decide_eq_true Hall]%andb_true_iff.
  rewrite fmap_cons, concat_cons. by rewrite IH.
Qed.

Lemma well_ended_mirrored (results : list (list byte * option error)) :
  well_ended results = true → mirrored results = concat results.*1.
Proof.
  induction results as [|[d [e|]] rs IH]; [done| |];
    rewrite fmap_cons, concat_cons; cbn [well_ended mirrored fst].
  - intros [->%bool_decide_eq_true Hall]%andb_true_iff. rewrite decide_True by done.
    by rewrite no_bytes_concat, app_nil_r.
  - intros Hw. by rewrite IH.
Qed.

Lemma well_ended_first_error (results : list (list byte * option error)) :
  well_ended results = true →
  (Some EOF ∈ results.*2 → first_error results = Some EOF)
  ∧ (first_error results = None ∨ first_error results = Some EOF).
Proof.
  induction results as [|[d [e|]] rs IH]; simpl.
  - intros _. split; [by intros ?%elem_of_nil|by left].
  - intros [->%bool_decide_eq_true _]%andb_true_iff. split; [done|by right].
  - intros Hw. destruct (IH Hw) as [H1 H2]. split; [|done].
    intros [?|?]%elem_of_cons; [done|by apply H1].
Qed.

(** A body from the network ends well, whatever the sizes of the reads:
    its reads return its bytes in order, and end-of-stream when none is
    left. *)
Lemma chunked_results (sizes : list nat) :
  ∀ (st : netbody.chunked),
    well_ended (read_source st sizes).1 = true
    ∧ concat (read_source st sizes).1.*1 ++ netbody.rest (read_source st sizes).2
      = netbody.rest st
    ∧ (Some EOF ∈ (read_source st sizes).1.*2 → netbody.rest (read_source st sizes).2 = [])
    ∧ (netbody.rest st = [] →
       forallb (λ r, bool_decide (r.1 = [])) (read_source st sizes).1 = true).
Proof.
  induction sizes as [|n sizes IH]; intros st.
  - simpl. split_and!; try done. by intros ?%elem_of_nil.
  - cbn [read_source]. change (Read st n) with (netbody.chunked_Read st n).
    pose proof (chunked_Read_spec st n) as Hspec.
    destruct (netbody.chunked_Read st n) as [[data err] st1] eqn:Hrd.
    destruct Hspec as (Hsplit & Herr & Heof & Hempty).
    destruct (IH st1) as (Hw & Hcat & Hend & Hnil).
    destruct (read_source st1 sizes) as [rs st'] eqn:Hrs. simpl in *.
    assert (netbody.rest st1 = [] → netbody.rest st' = []) as Hstay.
    { intros H1. rewrite H1 in Hcat. by apply app_eq_nil in Hcat as [_ ?]. }
    split_and!.
    + destruct Herr as [-> | ->]; [done|]. simpl. by apply Hnil, Heof.
    + rewrite <- app_assoc. etrans; [|exact Hsplit]. f_equal. exact Hcat.
    + intros [Hhd|Htl]%elem_of_cons; [|by apply Hend].
      apply Hstay, Heof. by rewrite Hhd.
    + intros Hr. destruct (Hempty Hr) as [-> ->]. simpl.
      apply Hnil, Heof. done.
Qed.

(** C2.  For every body, whatever the results of its reads, and every
    sequence of reads through the tee with buffers of any sizes, on a
    pipe that is open and whose reader goes on reading: the reads return
    what the same reads on the body itself return; the bytes handed to
    the reader of the pipe are exactly the bytes returned by the reads
    before the first error, together with those of the read that
    returned end-of-stream, in the same order, none repeated and none
    lost; and the pipe is closed with the first error.  So for a body
    whose reads return no error but end-of-stream and no byte after it,
    the bytes handed to the reader of the pipe are exactly the bytes
    returned to the reader of the body, nothing is logged, and once a
    read has returned end-of-stream every further read from the pipe
    returns end-of-stream. *)
Theorem tee_mirrors_body {R : Type} {RC : ReadCloser R} (st : R) (sizes : list nat)
    (w : loc) (σ : world) (pp : pipe) (ks : list nat) (tl : list peer_action) :
  pipes σ !! w = Some pp →
  pipe_done pp = false →
  p_peer pp = (PeerRead <$> ks) ++ tl →
  Forall (λ k, 0 < k) ks →
  length (mirrored (read_source st sizes).1) ≤ length ks →
  let results := (read_source st sizes).1 in
  ∃ σ' pp',
    read_all (ExtBody st) sizes σ = Ok (results, ExtBody (read_source st sizes).2, σ)
    ∧ read_all (TeeTie (Some (ExtBody st)) w) sizes σ
      = Ok (results, TeeTie (Some (ExtBody (read_source st sizes).2)) w, σ')
    ∧ pipes σ' !! w = Some pp'
    ∧ received pp' = received pp ++ mirrored results
    ∧ mirrored results `prefix_of` concat results.*1
    ∧ (∃ chunks, p_recv pp' = p_recv pp ++ chunks
                 ∧ Forall (λ c, c.1 ≠ [] ∧ c.2 = None) chunks)
    ∧ p_werr pp' = first_error results ∧ p_rerr pp' = None
    ∧ (well_ended results = true →
       received pp' = received pp ++ concat results.*1
       ∧ logs σ' = logs σ
       ∧ (Some EOF ∈ results.*2 →
          ∀ n, pipe_read n pp' = Ok (([], Some EOF), pp'))).
Proof.
  intros Hp Ho Hpeer Hpos Hlen results.
  destruct (tee_run_open w tl sizes st σ pp ks Hp Ho Hpeer Hpos Hlen)
    as (σ' & pp' & j & chunks & Hrun & Hp' & Hrecv & Hcat & Hall & Hpeer' & Hj
        & Hwerr & Hrerr & Ha & Hh & Hlogs).
  fold results in Hrun, Hcat, Hwerr, Hlogs, Hj.
  assert (received pp' = received pp ++ mirrored results) as Hrec.
  { unfold received. by rewrite Hrecv, fmap_app, concat_app, Hcat. }
  exists σ', pp'. split_and!; try done.
  - apply read_all_ExtBody.
  - by rewrite Hp', lookup_insert_eq.
  - clear. induction results as [|[d [e|]] rs IH]; simpl.
    + done.
    + destruct (decide (e = EOF)); [by apply prefix_app_r|apply prefix_nil].
    + by apply prefix_app.
  - by exists chunks.
  - intros Hw. split_and!.
    + by rewrite <- (well_ended_mirrored results Hw).
    + by apply Hlogs.
    + intros Heof n. destruct (well_ended_first_error results Hw) as [Hfe _].
      unfold pipe_read, pipe_done, readCloseError.
      by rewrite Hwerr, (Hfe Heof), Hrerr.
Qed.

(** The sample body read through a tee in reads of 4, 0, 2, 64 and 64
    bytes, while the client of the shadow backend reads from the pipe:
    the client is handed the 21 bytes of the body. *)
Lemma tee_mirrors_body_witness :
  pipes sample.σ_mirror !! 1%positive = Some (MkPipe sample.reader [] None None)
  ∧ pipe_done (MkPipe sample.reader [] None None) = false
  ∧ Forall (λ k, 0 < k) (replicate 32 8)
  ∧ ∃ results (st' : netbody.chunked) σ' pp',
      read_all sample.body [4; 0; 2; 64; 64] sample.σ_mirror
      = Ok (results, ExtBody st', sample.σ_mirror)
      ∧ read_all (TeeTie (Some sample.body) 1%positive) [4; 0; 2; 64; 64] sample.σ_mirror
        = Ok (results, TeeTie (Some (ExtBody st')) 1%positive, σ')
      ∧ pipes σ' !! 1%positive = Some pp'
      ∧ well_ended results = true
      ∧ Some EOF ∈ results.*2
      ∧ concat results.*1 = sample.bytes "hello, shadow backend"
      ∧ received pp' = sample.bytes "hello, shadow backend"
      ∧ logs σ' = []
      ∧ ∀ n, pipe_read n pp' = Ok (([], Some EOF), pp').
Proof.
  assert (Forall (λ k, 0 < k) (replicate 32 8)) as Hpos.
  { apply Forall_replicate. lia. }
  split_and!; [reflexivity|reflexivity|exact Hpos|].
  assert (length (mirrored (read_source
                              (netbody.MkChunked (sample.bytes "hello, shadow backend")
                                 [(3, false); (100, true)] false)
                              [4; 0; 2; 64; 64]).1)
          ≤ length (replicate 32 8)) as Hlen.
  { vm_compute. repeat constructor. }
  destruct (tee_mirrors_body
              (netbody.MkChunked (sample.bytes "hello, shadow backend")
                 [(3, false); (100, true)] false)
              [4; 0; 2; 64; 64] 1%positive sample.σ_mirror
              (MkPipe sample.reader [] None None) (replicate 32 8) [PeerClose None]
              eq_refl eq_refl eq_refl Hpos Hlen)
    as (σ' & pp' & Hsrc & Hrun & Hp' & Hrec & _ & _ & _ & _ & Hwell).
  destruct Hwell as (Hall & Hlogs & Hend); [vm_compute; reflexivity|].
  eexists _, _, σ', pp'.
  split_and!; [exact Hsrc|exact Hrun|exact Hp'|vm_compute; reflexivity| |
               vm_compute; reflexivity|rewrite Hall; vm_compute; reflexivity|exact Hlogs|].
  - vm_compute. do 4 right. left.
  - apply Hend. vm_compute. do 4 right. left.
Defined.
End stream_tee.


(* ===================================================================== *)
(** * Cloning headers and requests                                         *)
(* ===================================================================== *)

Section header_cloning.
Import tee.

(** Reading a slice that holds elements gives the same elements in every
    world that has kept the arrays. *)
Lemma slice_elems_stable (σ σx : world) (s : slice) :
  (∀ a cells, arrays σ !! a = Some cells → arrays σx !! a = Some cells) →
  length (slice_elems σ s) = slice_len s →
  slice_elems σx s = slice_elems σ s.
Proof.
  intros Hkeep Hlen. destruct s as [|a off len cap]; [done|]. simpl in *.
  destruct (arrays σ !! a) as [cells|] eqn:Ha.
  - by rewrite (Hkeep _ _ Ha).
  - simpl in Hlen. subst len. by destruct (arrays σx !! a).
Qed.

Lemma slice_array_allocated (σ : world) (a : loc) (off len cap : nat) :
  length (slice_elems σ (Slice a off len cap)) = len → 0 < len →
  is_Some (arrays σ !! a).
Proof.
  simpl. destruct (arrays σ !! a); [by eexists|]. simpl. lia.
Qed.

(** One iteration of the inner loop of [cloneHeader]: the capacity lasts,
    so [append] writes into the array of the clone. *)
Lemma cloneHeader_value_step (l a : loc) (k : string) (hi : slice) (v : string)
    (M : gmap string slice) (j n : nat) (σ : world) (cells : list string)
    (A : gmap loc (list string)) (H : gmap loc (gmap string slice)) :
  j < n →
  slice_elems σ hi !! j = Some v →
  arrays σ = <[a := cells]> A →
  hmaps σ = <[l := <[k := Slice a 0 j n]> M]> H →
  ∃ σ1,
    cloneHeader_value (Some l) k hi j σ = Ok σ1
    ∧ arrays σ1 = <[a := <[j := v]> cells]> A
    ∧ hmaps σ1 = <[l := <[k := Slice a 0 (S j) n]> M]> H
    ∧ pipes σ1 = pipes σ ∧ logs σ1 = logs σ.
Proof.
  intros Hj Hv Harr Hmap. unfold cloneHeader_value.
  rewrite Hv. simpl.
  unfold header_get, header_map. simpl. rewrite Hmap, lookup_insert_eq. simpl.
  rewrite lookup_insert_eq. simpl.
  rewrite decide_True by lia. simpl.
  eexists. split; [reflexivity|]. simpl. split_and!; try done.
  - rewrite Harr. by rewrite alter_insert_eq.
  - rewrite Hmap. by rewrite alter_insert_eq, insert_insert_eq.
Qed.

(** The inner loop of [cloneHeader] from index [j] on: the slice under [k]
    grows in place over its array. *)
Lemma cloneHeader_values_run (l a : loc) (k : string) (hi : slice) (elems : list string)
    (M : gmap string slice) (m : nat) :
  ∀ (j : nat) (σ : world) (A : gmap loc (list string)) (H : gmap loc (gmap string slice)),
    j + m = length elems →
    (∀ i, j ≤ i → i < length elems → slice_elems σ hi !! i = elems !! i) →
    (0 < length elems → match hi with Slice ah _ _ _ => ah ≠ a | NilSlice => True end) →
    arrays σ = <[a := take j elems ++ replicate m ""%string]> A →
    hmaps σ = <[l := <[k := Slice a 0 j (length elems)]> M]> H →
    ∃ σ',
      for_each (cloneHeader_value (Some l) k hi) (seq j m) σ = Ok σ'
      ∧ arrays σ' = <[a := elems]> A
      ∧ hmaps σ' = <[l := <[k := Slice a 0 (length elems) (length elems)]> M]> H
      ∧ pipes σ' = pipes σ ∧ logs σ' = logs σ.
Proof.
  induction m as [|m IH]; intros j σ A H Hjm Hread Hne Harr Hmap.
  - exists σ. simpl. split; [done|].
    assert (j = length elems) as -> by lia.
    rewrite firstn_all, app_nil_r in Harr. done.
  - cbn [seq for_each].
    assert (j < length elems) as Hj by lia.
    destruct (lookup_lt_is_Some_2 elems j Hj) as [v Hv].
    destruct (cloneHeader_value_step l a k hi v M j (length elems) σ _ A H Hj
                ltac:(by rewrite Hread by lia) Harr Hmap)
      as (σ1 & Hstep & Ha1 & Hm1 & Hp1 & Hl1).
    rewrite Hstep. simpl.
    destruct (IH (S j) σ1 A H) as (σ' & Hrun & Ha' & Hm' & Hp' & Hl'); try done.
    + lia.
    + intros i Hi Hi'. rewrite <- (Hread i) by lia.
      destruct hi as [|ah off len cap]; [done|]. simpl. rewrite Ha1, Harr.
      assert (a ≠ ah) by (intros ->; apply Hne; [lia|done]).
      by rewrite !lookup_insert_ne by done.
    + rewrite Ha1. f_equal.
      rewrite insert_app_r_alt by (rewrite length_take; lia).
      rewrite length_take, Nat.min_l by lia.
      replace (j - j) with 0 by lia. simpl.
      rewrite (take_S_r _ _ v) by done. by rewrite <- app_assoc.
    + exists σ'. split; [exact Hrun|]. split_and!; try done; congruence.
Qed.

(** One iteration of the outer loop of [cloneHeader]: a new array with the
    elements of [hi], and the slice over it stored under [k]. *)
Lemma cloneHeader_entry_step (l : loc) (k : string) (hi : slice) (σ : world)
    (M : gmap string slice) (H : gmap loc (gmap string slice)) :
  length (slice_elems σ hi) = slice_len hi →
  hmaps σ = <[l := M]> H →
  ∃ a σ',
    cloneHeader_entry (Some l) (k, hi) σ = Ok σ'
    ∧ arrays σ !! a = None
    ∧ arrays σ' = <[a := slice_elems σ hi]> (arrays σ)
    ∧ hmaps σ' = <[l := <[k := Slice a 0 (slice_len hi) (slice_len hi)]> M]> H
    ∧ pipes σ' = pipes σ ∧ logs σ' = logs σ.
Proof.
  intros Hlen Hmap. unfold cloneHeader_entry, make_slice. simpl.
  set (a := fresh (dom (arrays σ))).
  assert (arrays σ !! a = None) as Hfresh by apply not_elem_of_dom, is_fresh.
  set (σ1 := set_hmaps _ _).
  destruct (cloneHeader_values_run l a k hi (slice_elems σ hi) M (slice_len hi) 0 σ1
              (arrays σ) H) as (σ' & Hrun & Ha' & Hm' & Hp' & Hl').
  - lia.
  - intros i _ _. f_equal. apply slice_elems_stable; [|done].
    intros a' cells Ha'. simpl.
    rewrite lookup_insert_ne; [done|]. intros <-. congruence.
  - intros Hpos. destruct hi as [|ah off len cap]; [done|].
    intros ->. rewrite Hlen in Hpos.
    destruct (slice_array_allocated σ a off len cap Hlen Hpos). congruence.
  - done.
  - simpl. rewrite Hmap, Hlen. by rewrite alter_insert_eq.
  - exists a, σ'. rewrite Hlen in *. split_and!; try done.
Qed.


(** The outer loop of [cloneHeader] over the entries [todo]. *)
Lemma cloneHeader_entries_run (σ0 : world) (l : loc) (todo : list (string * slice)) :
  ∀ (M : gmap string slice) (σ : world),
    NoDup todo.*1 →
    (∀ k hi, (k, hi) ∈ todo → length (slice_elems σ0 hi) = slice_len hi) →
    (∀ a c, arrays σ0 !! a = Some c → arrays σ !! a = Some c) →
    hmaps σ = <[l := M]> (hmaps σ0) →
    ∃ M' σ',
      for_each (cloneHeader_entry (Some l)) todo σ = Ok σ'
      ∧ hmaps σ' = <[l := M']> (hmaps σ0)
      ∧ (∀ a c, arrays σ !! a = Some c → arrays σ' !! a = Some c)
      ∧ (∀ k, k ∉ todo.*1 → M' !! k = M !! k)
      ∧ (∀ k hi, (k, hi) ∈ todo →
           ∃ a, M' !! k = Some (Slice a 0 (slice_len hi) (slice_len hi))
                ∧ arrays σ !! a = None
                ∧ arrays σ' !! a = Some (slice_elems σ0 hi))
      ∧ pipes σ' = pipes σ ∧ logs σ' = logs σ.
Proof.
  induction todo as [|[k hi] todo IH]; intros M σ Hnd Hwf Hkeep Hmap.
  - exists M, σ. simpl. split_and!; try done. by intros k hi ?%elem_of_nil.
  - apply NoDup_cons in Hnd as [Hk Hnd]. cbn [for_each].
    assert (slice_elems σ hi = slice_elems σ0 hi) as Hsame.
    { apply slice_elems_stable; [done|]. apply (Hwf k). left. }
    destruct (cloneHeader_entry_step l k hi σ M (hmaps σ0)) as
      (a & σ1 & Hstep & Hfresh & Ha1 & Hm1 & Hp1 & Hl1); [|done|].
    { rewrite Hsame. apply (Hwf k). left. }
    rewrite Hstep. simpl.
    assert (∀ a' c, arrays σ !! a' = Some c → arrays σ1 !! a' = Some c) as Hkeep1.
    { intros a' c Hc. rewrite Ha1, lookup_insert_ne; [done|]. intros <-. congruence. }
    destruct (IH (<[k := Slice a 0 (slice_len hi) (slice_len hi)]> M) σ1 Hnd) as (M' & σ' & Hrun & Hm' & Hkeep' & Hout & Hin & Hp' & Hl');
      [|by auto|done|].
    { intros k' hi' Hin. apply (Hwf k'). by right. }
    exists M', σ'. split_and!; try done; try congruence.
    + auto.
    + intros k' Hk'. apply not_elem_of_cons in Hk' as [Hne Hk']. simpl in Hne.
      rewrite Hout by done. by rewrite lookup_insert_ne.
    + intros k' hi' [Heq|Hin']%elem_of_cons.
      * simplify_eq. exists a. split_and!; [|done|].
        -- rewrite Hout by done. by rewrite lookup_insert_eq.
        -- apply Hkeep'. by rewrite Ha1, lookup_insert_eq, Hsame.
      * destruct (Hin _ _ Hin') as (a' & HM' & Hfr' & Harr').
        exists a'. split_and!; try done.
        destruct (arrays σ !! a') as [c|] eqn:Hc; [|done].
        rewrite (Hkeep1 _ _ Hc) in Hfr'. done.
Qed.

Lemma full_slice_elems (σ : world) (a : loc) (cells : list string) :
  arrays σ !! a = Some cells →
  slice_elems σ (Slice a 0 (length cells) (length cells)) = cells.
Proof. intros Ha. simpl. rewrite Ha. simpl. apply firstn_all. Qed.

(** [cloneHeader] makes a deep copy.  The copy reads as the original, in
    whatever order the loop visits the entries; its map object and the
    arrays of its value lists are new; and nothing allocated before is
    changed.  So the two are read from disjoint objects: what the original
    reads is fixed by the objects allocated before the call, what the copy
    reads is fixed by the new ones. *)
Lemma cloneHeader_deep_copy (σ : world) (h : Header) (order : list (string * slice)) :
  order ≡ₚ map_to_list (header_map σ h) →
  slices_in_bounds σ h →
  ∃ l σ',
    cloneHeader_in order σ = Ok (Some l, σ')
    ∧ hmaps σ !! l = None
    ∧ (∀ k a off len cap,
         header_map σ' (Some l) !! k = Some (Slice a off len cap) → arrays σ !! a = None)
    ∧ header_view σ' (Some l) = header_view σ h
    ∧ (∀ l0 m, hmaps σ !! l0 = Some m → hmaps σ' !! l0 = Some m)
    ∧ (∀ a c, arrays σ !! a = Some c → arrays σ' !! a = Some c)
    ∧ (∀ σ2, hmaps σ2 !! l = hmaps σ' !! l →
             (∀ a, arrays σ !! a = None → arrays σ2 !! a = arrays σ' !! a) →
             header_view σ2 (Some l) = header_view σ h)
    ∧ (∀ σ2, (∀ l0 m, hmaps σ !! l0 = Some m → hmaps σ2 !! l0 = Some m) →
             (∀ a c, arrays σ !! a = Some c → arrays σ2 !! a = Some c) →
             (∀ l0, h = Some l0 → is_Some (hmaps σ !! l0)) →
             header_view σ2 h = header_view σ h)
    ∧ pipes σ' = pipes σ ∧ logs σ' = logs σ.
Proof.
  intros Hperm Hwf. unfold cloneHeader_in, make_Header.
  set (l := fresh (dom (hmaps σ))).
  assert (hmaps σ !! l = None) as Hl by apply not_elem_of_dom, is_fresh.
  assert (NoDup order.*1) as Hnd by (rewrite Hperm; apply NoDup_fst_map_to_list).
  assert (∀ k hi, (k, hi) ∈ order ↔ header_map σ h !! k = Some hi) as Hin.
  { intros k hi. rewrite Hperm. apply elem_of_map_to_list. }
  destruct (cloneHeader_entries_run σ l order ∅ (set_hmaps (insert l ∅) σ) Hnd)
    as (M' & σ' & Hrun & Hm' & Hkeep & Hout & Hcl & Hp' & Hl'); [|done|done|].
  { intros k hi Hk. apply (Hwf k), Hin, Hk. }
  rewrite Hrun. simpl. exists l, σ'.
  assert (∀ k, M' !! k = None ↔ header_map σ h !! k = None) as Hdom.
  { intros k. destruct (header_map σ h !! k) as [hi|] eqn:Hk.
    - apply Hin, Hcl in Hk as (a & -> & _). done.
    - rewrite Hout, lookup_empty; [done|].
      intros ((k' & hi) & -> & Hk')%list_elem_of_fmap. apply Hin in Hk'. simpl in *. congruence. }
  assert (∀ σ2, hmaps σ2 !! l = hmaps σ' !! l →
               (∀ a, arrays σ !! a = None → arrays σ2 !! a = arrays σ' !! a) →
               header_view σ2 (Some l) = header_view σ h) as Hcopy.
  { intros σ2 Hl2 Ha2. unfold header_view at 1. unfold header_map at 1.
    rewrite Hl2, Hm', lookup_insert_eq. simpl.
    apply map_eq. intros k. unfold header_view. rewrite !lookup_fmap.
    destruct (header_map σ h !! k) as [hi|] eqn:Hk.
    - pose proof (Hwf _ _ Hk) as Hlen.
      apply Hin, Hcl in Hk as (a & -> & Hfr & Harr). simpl in Hfr. simpl.
      rewrite (Ha2 _ Hfr), Harr. simpl. by rewrite <- Hlen, firstn_all.
    - apply Hdom in Hk. by rewrite Hk. }
  split_and!; try done.
  - intros k a off len cap. unfold header_map. rewrite Hm', lookup_insert_eq. simpl.
    intros HM.
    destruct (header_map σ h !! k) as [hi|] eqn:Hk.
    + apply Hin, Hcl in Hk as (a' & HM' & Hfr & _). simpl in Hfr. congruence.
    + apply Hdom in Hk. congruence.
  - by apply Hcopy.
  - intros l0 m Hl0. rewrite Hm', lookup_insert_ne; [done|]. intros <-. congruence.
  - intros σ2 Hm2 Ha2 Halloc. unfold header_view.
    assert (header_map σ2 h = header_map σ h) as ->.
    { destruct h as [l0|]; [|done]. simpl.
      destruct (Halloc l0 eq_refl) as [m Hm]. by rewrite (Hm2 _ _ Hm), Hm. }
    apply map_eq. intros k. rewrite !lookup_fmap.
    destruct (header_map σ h !! k) as [hi|] eqn:Hk; [|done]. simpl. f_equal.
    apply slice_elems_stable; [done|]. by apply (Hwf k).
Qed.
End header_cloning.

Section mirror_dispatch.
Import tee.
Context {Regexp : Type} {E : regexp.Engine Regexp}.

(** [cloneRequest] connects the two requests by a new pipe: the request
    keeps a tee over the body it had, the clone gets the read end. *)
Lemma cloneRequest_installs_tee (t : tee) (req clone req' : http.Request) (σ σ' : world) :
  cloneRequest t req σ = Ok (clone, req', σ') →
  ∃ p, pipes σ !! p = None
       ∧ pipes σ' = <[p := new_pipe]> (pipes σ)
       ∧ req_Body req' = Some (TeeTie (req_Body req) p)
       ∧ req_Body clone = Some (PipeReader p)
       ∧ logs σ' = logs σ.
Proof.
  intros Hc. exists (fresh (dom (pipes σ))).
  split; [apply not_elem_of_dom, is_fresh|].
  revert Hc. unfold cloneRequest. simpl. case_bool_decide.
  - destruct (rx t) as [re|]; [|done]. simpl.
    destruct (regexp.ReplaceAllString _ _ _); simpl; [|done|done].
    by intros [= <- <- <-].
  - by intros [= <- <- <-].
Qed.

(** What [cloneRequest] does when the path is not rewritten. *)
Lemma cloneRequest_asBackend (t : tee) (req : http.Request) (σ : world) :
  typ t ≠ pathModified →
  cloneRequest t req σ
  = Ok (set_req_RequestURI ""
          (set_req_Body (Some (PipeReader (Pipe σ).1))
             (set_req_Host (host t)
                (set_req_URL (set_url_Scheme (scheme t) (set_url_Host (host t) (req_URL req)))
                   req))),
        set_req_Body (Some (TeeTie (req_Body req) (Pipe σ).1)) req,
        (Pipe σ).2).
Proof.
  intros Ht. unfold cloneRequest. simpl.
  by rewrite bool_decide_eq_false_2.
Qed.

(** [cloneRequest] hands the header map of the request to the clone: the
    two requests hold the same map object, and no map or array is
    created. *)
Lemma cloneRequest_shares_header (t : tee) (req clone req' : http.Request) (σ σ' : world) :
  cloneRequest t req σ = Ok (clone, req', σ') →
  req_Header clone = req_Header req ∧ req_Header req' = req_Header req
  ∧ hmaps σ' = hmaps σ ∧ arrays σ' = arrays σ.
Proof.
  unfold cloneRequest. simpl. case_bool_decide.
  - destruct (rx t) as [re|]; [|done]. simpl.
    destruct (regexp.ReplaceAllString _ _ _); simpl; [|done|done].
    by intros [= <- <- <-].
  - by intros [= <- <- <-].
Qed.

(** C3, as the code has it.  The function started by [Request] returns
    for every answer of the client that is an error or a response with a
    body from the network.  An error is logged as one warning and nothing
    else happens; a response has its body closed once, and the body is not
    read; nothing is logged.  The context of the primary request is not
    changed by the function, whatever the answer. *)
Theorem mirror_dispatch_spec (r : @tee Regexp) (copyOfRequest : http.Request)
    (fc : proxy.context) (σ σ1 : world) (rsp : option http.Response) (err : option error) :
  client r copyOfRequest σ = ((rsp, err), σ1) →
  (err = None →
   ∃ (R : Type) (RC : ReadCloser R) (st : R) rs,
     rsp = Some rs ∧ rsp_Body rs = Some (ExtBody st)) →
  ∃ rsp' σ',
    run_mirror r copyOfRequest (fc, σ) = Ok (fc, rsp', σ')
    ∧ match err with
      | Some e =>
          rsp' = rsp ∧ σ' = log_write (MkLog LWarn "error while tee request" e) σ1
      | None =>
          σ' = σ1
          ∧ ∃ (R : Type) (RC : ReadCloser R) (st : R) rs,
              rsp = Some rs ∧ rsp_Body rs = Some (ExtBody st)
              ∧ rsp' = Some (set_rsp_Body (Some (ExtBody (Close st).2)) rs)
      end.
Proof.
  intros Hc Hok. unfold run_mirror, Request_func1. simpl. rewrite Hc.
  destruct err as [e|].
  - eexists _, _. split; [reflexivity|]. done.
  - destruct (Hok eq_refl) as (R & RC & st & rs & -> & Hb).
    rewrite Hb. simpl. destruct (Close st) as [cerr st'] eqn:Hcl. simpl.
    eexists _, _. split; [reflexivity|]. split; [done|].
    exists R, RC, st, rs. by rewrite Hcl.
Qed.

(** [Request] changes the context in its request only, and there in the
    body only: the body becomes the tee over the body that was there. *)
Lemma Request_frame (r : @tee Regexp) (fc fc' : proxy.context) (clone : http.Request)
    (σ σ' : world) :
  Request r fc σ = Ok (fc', clone, σ') →
  same_but_request fc fc'
  ∧ ∃ req, proxy.request fc = Some req
           ∧ proxy.request fc'
             = Some (set_req_Body (Some (TeeTie (req_Body req) (Pipe σ).1)) req).
Proof.
  unfold Request. unfold proxy.Request.
  destruct (proxy.request fc) as [req|] eqn:Hreq; [|done].
  unfold cloneRequest. simpl. case_bool_decide.
  - destruct (rx r) as [re|]; [|done]. simpl.
    destruct (regexp.ReplaceAllString _ _ _); simpl; [|done|done].
    intros [= <- <- <-]. split; [by repeat split|]. by exists req.
  - intros [= <- <- <-]. split; [by repeat split|]. by exists req.
Qed.
End mirror_dispatch.

(** The shadow backend answers with a body of 8 bytes. *)
Lemma mirror_dispatch_spec_witness :
  tee.client sample.shadow sample.request sample.σ0
  = ((Some sample.mirror_reply, None), sample.σ0)
  ∧ ∃ rsp' σ',
      run_mirror sample.shadow sample.request (sample.context, sample.σ0)
      = Ok (sample.context, rsp', σ')
      ∧ σ' = sample.σ0
      ∧ ∃ (R : Type) (RC : ReadCloser R) (st : R) rs,
          Some sample.mirror_reply = Some rs ∧ rsp_Body rs = Some (ExtBody st)
          ∧ rsp' = Some (set_rsp_Body (Some (ExtBody (Close st).2)) rs).
Proof.
  split; [reflexivity|].
  apply (mirror_dispatch_spec sample.shadow sample.request sample.context
           sample.σ0 sample.σ0 (Some sample.mirror_reply) None eq_refl).
  intros _.
  exists netbody.chunked, netbody.chunked_rc,
         (netbody.MkChunked (sample.bytes "mirrored") [] false), sample.mirror_reply.
  split; reflexivity.
Defined.

(** C3, as the claim has it, fails: after the function has run on a
    response whose body holds 8 bytes, the body is closed and the 8 bytes
    are still unread. *)
Lemma mirror_response_not_drained :
  run_mirror sample.shadow sample.request (sample.context, sample.σ0)
  = Ok (sample.context,
        Some (set_rsp_Body
                (Some (ExtBody (netbody.MkChunked (sample.bytes "mirrored") [] true)))
                sample.mirror_reply),
        sample.σ0)
  ∧ netbody.closed (netbody.MkChunked (sample.bytes "mirrored") [] true) = true
  ∧ ¬ drained (netbody.MkChunked (sample.bytes "mirrored") [] true).
Proof. split_and!; [reflexivity|reflexivity|discriminate]. Qed.

(** C1, on the code.  After [cloneRequest] on the sample request the clone
    and the request hold the same header map: a value stored through the
    clone's header into the list under [X-Trace] is what the request reads
    there, and a key added through the clone's header is a key of the
    request's header. *)
Lemma cloneRequest_header_not_copied :
  match tee.cloneRequest sample.shadow sample.request sample.σ0 with
  | Ok (clone, req', σ1) =>
      req_Header clone = req_Header req'
      ∧ header_view σ1 (req_Header req') !! "X-Trace"%string = Some ["abc"%string]
      ∧ match slice_store (tee.header_get σ1 (req_Header clone) "X-Trace") 0 "changed" σ1 with
        | Ok σ2 =>
            header_view σ2 (req_Header req') !! "X-Trace"%string = Some ["changed"%string]
        | _ => False
        end
      ∧ match header_store (req_Header clone) "X-Mirror" NilSlice σ1 with
        | Ok σ3 =>
            header_view σ1 (req_Header req') !! "X-Mirror"%string = None
            ∧ header_view σ3 (req_Header req') !! "X-Mirror"%string = Some []
        | _ => False
        end
  | _ => False
  end.
Proof. vm_compute. by repeat split. Qed.


(* ===================================================================== *)
(** * Rewriting the path of the clone                                      *)
(* ===================================================================== *)

Section path_rewrite.
Import tee.
Context {Regexp : Type} {E : regexp.Engine Regexp}.

Lemma replaceAll_loop_run (re : Regexp) (src repl : list ascii) (ms : list (nat * nat))
    (pos : nat) :
  "$"%char ∉ repl →
  match_run re src pos ms →
  ∀ fuel last buf,
    last ≤ pos → length src - pos < fuel →
    regexp.replaceAll_loop fuel re src repl last pos buf
    = Some (buf ++ splice src last ms repl).
Proof.
  intros Hrepl Hrun.
  induction Hrun as [pos Hle Hnone|pos a b caps ms Hex Hpa Hab Hb Hw Hrun IH];
    intros fuel last buf Hlast Hfuel.
  - destruct fuel as [|fuel]; [lia|]. simpl.
    rewrite decide_True by done. by rewrite Hnone.
  - destruct fuel as [|fuel]; [lia|]. simpl.
    rewrite decide_True by lia. rewrite Hex.
    rewrite bool_decide_eq_true_2 by (left; lia).
    unfold regexp.expand. rewrite bool_decide_eq_false_2 by done.
    case_decide; [lia|]. case_decide; [lia|].
    rewrite IH by lia. by rewrite <- !app_assoc.
Qed.

Lemma ReplaceAllString_run (re : Regexp) (src repl : string) (ms : list (nat * nat)) :
  "$"%char ∉ String.list_ascii_of_string repl →
  match_run re (String.list_ascii_of_string src) 0 ms →
  regexp.ReplaceAllString re src repl
  = Ok (String.string_of_list_ascii
          (splice (String.list_ascii_of_string src) 0 ms (String.list_ascii_of_string repl))).
Proof.
  intros Hrepl Hrun. unfold regexp.ReplaceAllString.
  by rewrite (replaceAll_loop_run _ _ _ ms 0 Hrepl Hrun) by lia.
Qed.

Lemma ReplaceAllString_no_match (re : Regexp) (src repl : string) :
  regexp.doExecute re (String.list_ascii_of_string src) 0 = None →
  regexp.ReplaceAllString re src repl = Ok src.
Proof.
  intros Hnone. unfold regexp.ReplaceAllString.
  replace (length (String.list_ascii_of_string src) + 2)
    with (S (length (String.list_ascii_of_string src) + 1)) by lia.
  cbn [regexp.replaceAll_loop]. rewrite decide_True by lia. rewrite Hnone.
  rewrite drop_0. cbn [app]. by rewrite String.string_of_list_ascii_of_string.
Qed.

Lemma cloneRequest_pathModified (t : tee) (re : Regexp) (req : http.Request)
    (σ : world) (out : string) :
  typ t = pathModified → rx t = Some re →
  regexp.ReplaceAllString re (Path (req_URL req)) (replacement t) = Ok out →
  cloneRequest t req σ
  = Ok (set_req_URL
          (MkURL (scheme t) (Opaque (req_URL req)) (User (req_URL req)) (host t) out
                 (RawPath (req_URL req)) (RawQuery (req_URL req)) (Fragment (req_URL req)))
          (set_req_RequestURI ""
             (set_req_Body (Some (PipeReader (Pipe σ).1)) (set_req_Host (host t) req))),
        set_req_Body (Some (TeeTie (req_Body req) (Pipe σ).1)) req,
        (Pipe σ).2).
Proof.
  intros Ht Hrx Hout. unfold cloneRequest. simpl.
  rewrite bool_decide_eq_true_2 by done. rewrite Hrx, Hout. done.
Qed.

(** C5.  With a path rewrite configured, the clone's URL is the URL of the
    request with the host and the scheme of the filter and with the path
    that [ReplaceAllString] of the compiled pattern makes of the request's
    path; the query string and the other parts are the request's.  A path
    in which the pattern has no match stays as it is, and a path in which
    the engine finds several matches has every one of them replaced by the
    replacement (when the replacement has no dollar sign, which would
    refer to a submatch). *)
Theorem cloneRequest_rewrites_path (t : tee) (re : Regexp) (req : http.Request) (σ : world) :
  typ t = pathModified →
  rx t = Some re →
  let u := req_URL req in
  let path := String.list_ascii_of_string (Path u) in
  let repl := String.list_ascii_of_string (replacement t) in
  let cloned_with (p : string) :=
    ∃ clone req' σ',
      cloneRequest t req σ = Ok (clone, req', σ')
      ∧ req_URL clone
        = MkURL (scheme t) (Opaque u) (User u) (host t) p (RawPath u) (RawQuery u) (Fragment u)
      ∧ RawQuery (req_URL clone) = RawQuery u
      ∧ req_URL req' = u in
  (∀ out, regexp.ReplaceAllString re (Path u) (replacement t) = Ok out → cloned_with out)
  ∧ (regexp.doExecute re path 0 = None → cloned_with (Path u))
  ∧ (∀ ms, "$"%char ∉ repl → match_run re path 0 ms →
           cloned_with (String.string_of_list_ascii (splice path 0 ms repl))).
Proof.
  intros Ht Hrx u path repl cloned_with.
  assert (∀ out, regexp.ReplaceAllString re (Path u) (replacement t) = Ok out →
                 cloned_with out) as Hmain.
  { intros out Hout. unfold cloned_with.
    eexists _, _, _. split; [by apply (cloneRequest_pathModified t re req σ out)|].
    done. }
  split_and!; [done| |].
  - intros Hnone. apply Hmain. by apply ReplaceAllString_no_match.
  - intros ms Hrepl Hrun. apply Hmain. by apply ReplaceAllString_run.
Qed.
End path_rewrite.

(** The filter [tee("http://shadow.example", "^/v1/", "/v2/")] on a request
    to [/v1/items?page=2&sort=/v1/]: the clone goes to [/v2/items] with the
    query string as it was. *)
Lemma cloneRequest_rewrites_path_witness :
  tee.typ sample.shadow_v2 = tee.pathModified
  ∧ tee.rx sample.shadow_v2
    = Some (literal.MkRegexp true ["/"; "v"; "1"; "/"]%char false)
  ∧ ∃ clone req' σ',
      tee.cloneRequest sample.shadow_v2 sample.request sample.σ0 = Ok (clone, req', σ')
      ∧ req_URL clone
        = MkURL "http" "" None "shadow.example" "/v2/items" "" "page=2&sort=/v1/" ""
      ∧ RawQuery (req_URL clone) = RawQuery (req_URL sample.request)
      ∧ req_URL req' = req_URL sample.request.
Proof.
  split_and!; [reflexivity|reflexivity|].
  pose proof (cloneRequest_rewrites_path sample.shadow_v2
                (literal.MkRegexp true ["/"; "v"; "1"; "/"]%char false)
                sample.request sample.σ0 eq_refl eq_refl) as H.
  cbv zeta in H. destruct H as [H _].
  apply (H "/v2/items"%string). vm_compute. reflexivity.
Defined.

(** A path without a match is mirrored as it is. *)
Example rewrite_other_unchanged :
  match tee.cloneRequest sample.shadow_v2 (sample.request_to "/other/v1/") sample.σ0 with
  | Ok (clone, _, _) =>
      Path (req_URL clone) = "/other/v1/"%string
      ∧ RawQuery (req_URL clone) = "page=2&sort=/v1/"%string
  | _ => False
  end.
Proof. vm_compute. by split. Qed.

(** The engine finds three matches of [/a] in [/a/x/a/a/]. *)
Example slash_a_run :
  match_run sample.slash_a (String.list_ascii_of_string "/a/x/a/a/") 0
            [(0, 2); (4, 6); (6, 8)].
Proof.
  eapply run_match; [vm_compute; reflexivity|simpl; lia..|].
  eapply run_match; [vm_compute; reflexivity|simpl; lia..|].
  eapply run_match; [vm_compute; reflexivity|simpl; lia..|].
  apply run_end; [simpl; lia|vm_compute; reflexivity].
Qed.

(** Every one of them is rewritten, not the first alone. *)
Example rewrite_every_occurrence :
  tee.cloneRequest sample.shadow_ab (sample.request_to "/a/x/a/a/") sample.σ0
  = Ok (set_req_URL
          (MkURL "http" "" None "shadow.example" "/b/x/b/b/" "" "page=2&sort=/v1/" "")
          (set_req_RequestURI ""
             (set_req_Body (Some (PipeReader (Pipe sample.σ0).1))
                (set_req_Host "shadow.example" (sample.request_to "/a/x/a/a/")))),
        set_req_Body (Some (TeeTie (Some sample.body) (Pipe sample.σ0).1))
          (sample.request_to "/a/x/a/a/"),
        (Pipe sample.σ0).2).
Proof.
  apply (cloneRequest_pathModified sample.shadow_ab sample.slash_a); [done..|].
  assert ("$"%char ∉ String.list_ascii_of_string (tee.replacement sample.shadow_ab)) as Hd.
  { apply (proj1 (bool_decide_eq_false _)). vm_compute. reflexivity. }
  etrans; [apply (ReplaceAllString_run sample.slash_a _ _ [(0, 2); (4, 6); (6, 8)] Hd);
           exact slash_a_run|].
  vm_compute. reflexivity.
Qed.


(* ===================================================================== *)
(** * More on the execution context                                        *)
(* ===================================================================== *)

Section context_more.
Import proxy.

(** X1.  [ensureDefaultResponse] is idempotent: a second call changes neither
    the context nor the world. *)
Theorem ensureDefaultResponse_idempotent (c : context) (σ : world) :
  let '(c1, σ1) := ensureDefaultResponse c σ in
  ensureDefaultResponse c1 σ1 = (c1, σ1).
Proof.
  unfold ensureDefaultResponse.
  destruct (response c) as [r|] eqn:Hr.
  - destruct (rsp_Header r) as [l|] eqn:Hh; destruct (rsp_Body r) as [b|] eqn:Hb; simpl;
      try rewrite Hh; try rewrite Hb; simpl; rewrite ?Hh, ?Hb; try done.
  - unfold defaultResponse, make_Header. simpl. done.
Qed.

(** X2.  [Serve] makes the request served with the response it is given:
    [Served] and [shunted] are true, and of the context only the response
    and the flag of [Serve] change.  [Response] returns the response it
    was given: with its [Request] set to the request of the context, its
    status, its protocol, its lengths and its other fields as they were,
    a header map and a body that were not nil kept, a nil header map
    replaced by a new empty map and a nil body by an empty one.  No
    default response takes its place afterwards: [ensureDefaultResponse]
    changes nothing. *)
Theorem Serve_spec (c : context) (r : http.Response) (σ : world) :
  let '(c1, σ1) := Serve c r σ in
  Served c1 = true ∧ shunted c1 = true
  ∧ deprecatedShunted c1 = deprecatedShunted c
  ∧ same_but_served_response c c1
  ∧ (∃ r1, Response c1 = Some r1
           ∧ rsp_Request r1 = Request c
           ∧ rsp_StatusCode r1 = rsp_StatusCode r
           ∧ same_status_fields r r1
           ∧ rsp_Header r1 ≠ None ∧ rsp_Body r1 ≠ None
           ∧ match rsp_Header r with
             | Some l => rsp_Header r1 = Some l ∧ σ1 = σ
             | None => make_Header σ = (rsp_Header r1, σ1)
                       ∧ header_view σ1 (rsp_Header r1) = ∅
             end
           ∧ match rsp_Body r with
             | Some b => rsp_Body r1 = Some b
             | None => rsp_Body r1 = Some (BodyBuffer [])
             end)
  ∧ ensureDefaultResponse c1 σ1 = (c1, σ1).
Proof.
  unfold Serve, Served, shunted, deprecatedShunted, Response, Request, ensureDefaultResponse.
  destruct (rsp_Header r) as [l|] eqn:Hh; destruct (rsp_Body r) as [b|] eqn:Hb;
    do 3 (simpl; rewrite ?Hh, ?Hb);
    try (destruct (make_Header_view σ _ _ eq_refl) as [Hne Hv]);
    (split_and!; rewrite ?orb_true_r;
     first [ done
           | by repeat split
           | by (do 3 (simpl; rewrite ?Hh, ?Hb))
           | eexists; (split; [reflexivity|]); simpl; rewrite ?Hh, ?Hb;
             split_and!; first [done | by repeat split] ]).
Qed.

Lemma wrap_int_spec (z : Z) :
  int_range (wrap_int z) ∧ ∃ q : Z, wrap_int z = (z + q * 2 ^ 64)%Z.
Proof.
  unfold wrap_int, int_range.
  pose proof (Z.mod_pos_bound (z + 2 ^ 63) (2 ^ 64) ltac:(lia)) as Hb.
  split; [lia|].
  exists (- ((z + 2 ^ 63) `div` 2 ^ 64))%Z.
  pose proof (Z.div_mod (z + 2 ^ 63) (2 ^ 64) ltac:(lia)). lia.
Qed.

Lemma wrap_int_inverse (z k : Z) :
  int_range z → wrap_int (wrap_int (z + k) - k) = z.
Proof.
  intros Hz.
  destruct (wrap_int_spec (z + k)) as [_ [q Hq]].
  destruct (wrap_int_spec (wrap_int (z + k) - k)) as [Hr [q' Hq']].
  revert Hr Hq'. generalize (wrap_int (wrap_int (z + k) - k)). intros w Hr Hw.
  rewrite Hq in Hw. unfold int_range in *. lia.
Qed.

Lemma decLoopCounter_incLoopCounter (c : context) :
  int_range (loopCounter c) → decLoopCounter (incLoopCounter c) = c.
Proof.
  intros Hz. unfold decLoopCounter, incLoopCounter. destruct c. simpl in *.
  unfold set_loopCounter. simpl. f_equal. by apply wrap_int_inverse.
Qed.

Lemma incLoopCounter_range (c : context) (n : nat) :
  int_range (loopCounter (Nat.iter n incLoopCounter c)) ∨ n = 0.
Proof. destruct n; [by right|left]. simpl. apply wrap_int_spec. Qed.

(** X3.  The loop counter is net zero over nested loopbacks: after [n]
    increments and [n] decrements a counter that is an [int] has the value
    it had, and the context is the one it was, also when the increments
    run over the largest [int]. *)
Theorem loopCounter_net_zero (c : context) (n : nat) :
  int_range (loopCounter c) →
  Nat.iter n decLoopCounter (Nat.iter n incLoopCounter c) = c.
Proof.
  intros Hz. induction n as [|n IH]; [done|].
  rewrite Nat.iter_succ_r. simpl.
  rewrite decLoopCounter_incLoopCounter; [done|].
  destruct (incLoopCounter_range c n) as [?| ->]; done.
Qed.

Lemma loopCounter_net_zero_witness :
  int_range (loopCounter (set_loopCounter (2 ^ 63 - 2) sample.context))
  ∧ loopCounter (Nat.iter 3 incLoopCounter (set_loopCounter (2 ^ 63 - 2) sample.context))
    = (- 2 ^ 63 + 1)%Z
  ∧ Nat.iter 3 decLoopCounter
      (Nat.iter 3 incLoopCounter (set_loopCounter (2 ^ 63 - 2) sample.context))
    = set_loopCounter (2 ^ 63 - 2) sample.context.
Proof.
  split_and!; [unfold int_range; simpl; lia|vm_compute; reflexivity|].
  apply (loopCounter_net_zero (set_loopCounter (2 ^ 63 - 2) sample.context) 3).
  unfold int_range. simpl. lia.
Defined.

Lemma applyRoute_inv (c c' : context) (rt : option Route)
    (params : option (gmap string string)) (ph : bool) :
  applyRoute c rt params ph = Ok c' →
  route c' = rt
  ∧ (∀ k, default ∅ (pathParams c') !! k = merged (pathParams c) params k)
  ∧ pathParams c' ≠ None
  ∧ outgoingHost c' = (if ph then default ""%string (req_Host <$> request c)
                       else default ""%string (route_Host <$> rt))
  ∧ request c' = request c ∧ response c' = response c
  ∧ Served c' = Served c.
Proof.
  unfold applyRoute, mergeParams. intros Hc.
  assert (∀ c0, pathParams c0 = pathParams c →
                ∀ k, range_assign (map_to_list (default ∅ params))
                       (match pathParams c0 with Some m => m | None => ∅ end) !! k
                     = merged (pathParams c) params k) as Hm.
  { intros c0 -> k. unfold merged.
    rewrite (range_assign_any_order _ (default ∅ params)) by done.
    by destruct (pathParams c). }
  destruct ph; simpl in Hc.
  - destruct (request c) as [rq|] eqn:Hrq; simplify_eq/=. simpl.
    rewrite Hrq. split_and!; try done. intros k. by apply (Hm c).
  - destruct rt as [r|]; simplify_eq/=. split_and!; try done.
    intros k. by apply (Hm c).
Qed.

(** X4.  Route applications accumulate path parameters: after two
    applications every key has the value of the second set of parameters
    if it is there, else the value of the first set if it is there, else
    the value it had before; the route and the outgoing host are those of
    the second application. *)
Theorem applyRoute_accumulates (c c1 c2 : context) (rt1 rt2 : option Route)
    (p1 p2 : option (gmap string string)) (ph1 ph2 : bool) :
  applyRoute c rt1 p1 ph1 = Ok c1 →
  applyRoute c1 rt2 p2 ph2 = Ok c2 →
  route c2 = rt2
  ∧ outgoingHost c2 = (if ph2 then default ""%string (req_Host <$> request c)
                       else default ""%string (route_Host <$> rt2))
  ∧ ∀ k, PathParam c2 k
         = default ""%string
             (match default ∅ p2 !! k with
              | Some v => Some v
              | None => merged (pathParams c) p1 k
              end).
Proof.
  intros (Hr1 & Hp1 & _ & _ & Hq1 & _)%applyRoute_inv
         (Hr2 & Hp2 & _ & Ho2 & _)%applyRoute_inv.
  split_and!; [done|by rewrite Ho2, Hq1|].
  intros k. unfold PathParam. rewrite Hp2. unfold merged at 1.
  destruct (default ∅ p2 !! k); [done|]. by rewrite Hp1.
Qed.

Lemma applyRoute_accumulates_witness :
  applyRoute sample.context (Some sample.route) sample.params true
  = Ok (set_pathParams
          (Some (<["id"%string := "2"%string]>
                   (<["lang"%string := "en"%string]>
                      (<["name"%string := "x"%string]> ∅))))
          (set_outgoingHost "api.example.org" (set_route (Some sample.route) sample.context)))
  ∧ ∃ c2,
      applyRoute
        (set_pathParams
           (Some (<["id"%string := "2"%string]>
                    (<["lang"%string := "en"%string]>
                       (<["name"%string := "x"%string]> ∅))))
           (set_outgoingHost "api.example.org"
              (set_route (Some sample.route) sample.context)))
        None (Some (<["name"%string := "y"%string]> ∅)) true = Ok c2
      ∧ route c2 = None
      ∧ PathParam c2 "id" = "2"%string ∧ PathParam c2 "lang" = "en"%string
      ∧ PathParam c2 "name" = "y"%string ∧ PathParam c2 "other" = ""%string.
Proof.
  split; [vm_compute; reflexivity|].
  eexists. split; [vm_compute; reflexivity|].
  match goal with
  | |- route ?c2 = _ ∧ _ =>
      pose proof (applyRoute_accumulates sample.context _ c2 (Some sample.route) None
                    sample.params (Some (<["name"%string := "y"%string]> ∅)) true true
                    ltac:(vm_compute; reflexivity) ltac:(vm_compute; reflexivity))
        as (Hr & _ & Hp)
  end.
  split; [exact Hr|].
  rewrite !Hp. vm_compute. done.
Defined.

(** X5.  [applyRoute] panics exactly when the pointer it reads the host from
    is nil: the request of the context with [preserveHost], the route
    without it.  So with [preserveHost] a nil route is recorded, and the
    questions that read the route panic on it afterwards. *)
Theorem applyRoute_panics (c : context) (rt : option Route)
    (params : option (gmap string string)) (ph : bool) :
  (applyRoute c rt params ph = Panic
   ↔ (ph = true ∧ request c = None) ∨ (ph = false ∧ rt = None))
  ∧ applyRoute c rt params ph ≠ Block
  ∧ ∀ c', applyRoute c None params ph = Ok c' →
          ph = true ∧ isShuntRoute c' = Panic ∧ isLoopbackRoute c' = Panic
          ∧ snapshot.BackendUrl c' = Panic.
Proof.
  unfold applyRoute. split_and!.
  - destruct ph; simpl.
    + destruct (request c); simpl; intuition congruence.
    + destruct rt; simpl; intuition congruence.
  - destruct ph; simpl; [destruct (request c)|destruct rt]; done.
  - intros c'. destruct ph; simpl; [|done].
    destruct (request c); simpl; [|done]. by intros [= <-].
Qed.
End context_more.

Section context_calls.
Import proxy.
Variable cloneHeader : Header → world → Header * world.

Lemma run_call_flags (k : snapshot.call) (c c' : context) (σ σ' : world) :
  snapshot.run_call cloneHeader k (c, σ) = Ok (c', σ') →
  deprecatedServed c' = deprecatedServed c || snapshot.marks k
  ∧ servedWithResponse c' = servedWithResponse c || snapshot.serves k.
Proof.
  destruct k as [rt params ph| |r po| |r|h| |]; simpl.
  - destruct (applyRoute c rt params ph) as [c1| |] eqn:Ha; simpl; [|done..].
    intros [= <- <-]. unfold applyRoute in Ha.
    destruct ph; simpl in Ha;
      [destruct (request c)|destruct rt]; simplify_eq/=; by rewrite !orb_false_r.
  - unfold ensureDefaultResponse.
    destruct (response c) as [r|]; simpl.
    + destruct (rsp_Header r); simpl; intros [= <- <-]; simpl; by rewrite !orb_false_r.
    + intros [= <- <-]. simpl. by rewrite !orb_false_r.
  - unfold snapshot.setResponse, snapshot.cloneResponseMetadata.
    destruct po; [destruct r as [rs|]|]; simpl; [|done|].
    + destruct (cloneHeader (rsp_Header rs) σ). intros [= <- <-]. simpl. by rewrite !orb_false_r.
    + intros [= <- <-]. simpl. by rewrite !orb_false_r.
  - intros [= <- <-]. simpl. by rewrite orb_true_r, orb_false_r.
  - unfold Serve. destruct (rsp_Header _); simpl; intros [= <- <-]; simpl;
      by rewrite orb_true_r, orb_false_r.
  - intros [= <- <-]. simpl. by rewrite !orb_false_r.
  - intros [= <- <-]. simpl. by rewrite !orb_false_r.
  - intros [= <- <-]. simpl. by rewrite !orb_false_r.
Qed.

(** X6.  Being served is permanent.  Over every sequence of calls on the
    context that returns, the flag of [MarkServed] is set exactly if it was
    set or the sequence has a [MarkServed], the flag of [Serve] exactly if
    it was set or the sequence has a [Serve]; no call resets either, so a
    request that is served stays served. *)
Theorem served_is_permanent (ks : list snapshot.call) (c c' : context) (σ σ' : world) :
  snapshot.run_calls cloneHeader ks (c, σ) = Ok (c', σ') →
  deprecatedShunted c' = deprecatedShunted c || existsb snapshot.marks ks
  ∧ shunted c' = shunted c || existsb snapshot.serves ks
  ∧ (Served c = true → Served c' = true).
Proof.
  unfold deprecatedShunted, shunted, Served.
  revert c σ. induction ks as [|k ks IH]; intros c σ; cbn [snapshot.run_calls existsb].
  - intros [= <- <-]. by rewrite !orb_false_r.
  - destruct (snapshot.run_call cloneHeader k (c, σ)) as [[c1 σ1]| |] eqn:Hk; simpl;
      [|done..].
    intros Hrun. destruct (run_call_flags _ _ _ _ _ Hk) as [Hd Hs].
    destruct (IH _ _ Hrun) as (Hd' & Hs' & Hserved).
    split_and!.
    + by rewrite Hd', Hd, orb_assoc.
    + by rewrite Hs', Hs, orb_assoc.
    + intros Hc. apply Hserved. rewrite Hd, Hs.
      destruct (deprecatedServed c), (servedWithResponse c); simpl in *; try done;
        by rewrite ?orb_true_r.
Qed.

(** X7.  [setResponse] panics exactly for a nil response with
    [preserveOriginal].  Otherwise the response becomes the live response
    as it is, nil included, with no default in its place and the request
    not marked served; of the context it returns nothing else is changed
    but the snapshot of the response, which is taken only with
    [preserveOriginal]: it has then the status, the protocol and the
    lengths of the response, a body that is a new empty buffer, and the
    header that [cloneHeader] returns; without [preserveOriginal] the
    snapshot and the world are as they were. *)
Theorem setResponse_spec (c : context) (r : option http.Response) (po : bool) (σ : world) :
  (snapshot.setResponse cloneHeader c r po σ = Panic ↔ r = None ∧ po = true)
  ∧ snapshot.setResponse cloneHeader c r po σ ≠ Block
  ∧ ∀ c' σ',
      snapshot.setResponse cloneHeader c r po σ = Ok (c', σ') →
      Response c' = r ∧ Served c' = Served c ∧ same_but_responses c c'
      ∧ if po then
          ∃ rs o, r = Some rs ∧ snapshot.OriginalResponse c' = Some o
                  ∧ rsp_Body o = Some (BodyBuffer [])
                  ∧ (rsp_Header o, σ') = cloneHeader (rsp_Header rs) σ
                  ∧ same_but_header_body rs o
        else snapshot.OriginalResponse c' = snapshot.OriginalResponse c ∧ σ' = σ.
Proof.
  unfold snapshot.setResponse, snapshot.cloneResponseMetadata.
  destruct po; [destruct r as [rs|]|]; simpl.
  - destruct (cloneHeader (rsp_Header rs) σ) as [h σ1] eqn:Hc.
    split_and!; [intuition congruence|done|].
    intros c' σ' [= <- <-]. split_and!; try done; try (by repeat split).
    exists rs. eexists. split_and!; try done.
  - split_and!; [intuition congruence|done|done].
  - split_and!; [intuition congruence|done|].
    intros c' σ' [= <- <-]. by repeat split.
Qed.

End context_calls.

(** The sample context is routed, marked served, completed with a default
    response and given a nil response. *)
Lemma served_is_permanent_witness :
  ∃ c' σ',
    snapshot.run_calls (λ _ σ, make_Header σ)
      [snapshot.CallApplyRoute (Some sample.route) sample.params true;
       snapshot.CallMarkServed; snapshot.CallEnsureDefaultResponse;
       snapshot.CallSetResponse None false]
      (sample.context, sample.σ0) = Ok (c', σ')
    ∧ proxy.deprecatedShunted c' = true ∧ proxy.shunted c' = false
    ∧ proxy.Response c' = None.
Proof.
  eexists _, _. split; [vm_compute; reflexivity|].
  match goal with
  | |- proxy.deprecatedShunted ?c' = _ ∧ _ =>
      pose proof (served_is_permanent (λ _ σ, make_Header σ)
                    [snapshot.CallApplyRoute (Some sample.route) sample.params true;
                     snapshot.CallMarkServed; snapshot.CallEnsureDefaultResponse;
                     snapshot.CallSetResponse None false]
                    sample.context c' sample.σ0 _ ltac:(vm_compute; reflexivity))
        as (Hd & Hs & _)
  end.
  split; [exact Hd|]. split; [exact Hs|]. reflexivity.
Defined.

(* ===================================================================== *)
(** * More on the tee filter                                               *)
(* ===================================================================== *)

Section tee_more.
Import tee.

Lemma clean_results (results : list (list byte * option error)) :
  Forall (λ r, r.2 = None) results →
  mirrored results = concat results.*1 ∧ first_error results = None
  ∧ well_ended results = true.
Proof.
  induction 1 as [|[d e] rs Hhd _ IH]; [done|]. simpl in Hhd. subst.
  destruct IH as (Hm & Hf & Hw). rewrite fmap_cons, concat_cons. simpl.
  by rewrite Hm.
Qed.

Section any_reader.
Context {R : Type} {RC : ReadCloser R}.

(** X9.  The tee is transparent to the reader of the body, but for the
    time it takes.  Whatever the state of the pipe, a sequence of reads
    through the tee never panics, and when it returns it returns exactly
    the results that the same reads return on the wrapped body, which is
    left in the same state; of the world it touches its own pipe only.
    On a pipe that is closed the reads always return.  On an open pipe
    that nobody reads from they wait for ever as soon as there is a byte
    to hand over. *)
Theorem tee_is_transparent (sizes : list nat) (st : R) (w : loc) (σ : world) (pp : pipe) :
  pipes σ !! w = Some pp →
  let results := (read_source st sizes).1 in
  let st' := (read_source st sizes).2 in
  read_all (ExtBody st) sizes σ = Ok (results, ExtBody st', σ)
  ∧ read_all (TeeTie (Some (ExtBody st)) w) sizes σ ≠ Panic
  ∧ (∀ res tr' σ',
       read_all (TeeTie (Some (ExtBody st)) w) sizes σ = Ok (res, tr', σ') →
       res = results ∧ tr' = TeeTie (Some (ExtBody st')) w
       ∧ arrays σ' = arrays σ ∧ hmaps σ' = hmaps σ
       ∧ ∀ p, p ≠ w → pipes σ' !! p = pipes σ !! p)
  ∧ (pipe_done pp = true →
     ∃ σ', read_all (TeeTie (Some (ExtBody st)) w) sizes σ
           = Ok (results, TeeTie (Some (ExtBody st')) w, σ'))
  ∧ (pipe_done pp = false → p_peer pp = [] → mirrored results ≠ [] →
     read_all (TeeTie (Some (ExtBody st)) w) sizes σ = Block).
Proof.
  intros Hp results st'. split_and!.
  - apply read_all_ExtBody.
  - destruct (tee_run_results w sizes st σ pp Hp) as [->|(σ' & pp' & -> & _)]; done.
  - intros res tr' σ' Hrun.
    destruct (tee_run_results w sizes st σ pp Hp)
      as [Hb|(σ2 & pp' & Hrun' & Hpipes & Ha & Hh)]; [congruence|].
    rewrite Hrun' in Hrun. injection Hrun as <- <- <-.
    split_and!; try done.
    intros p Hne. by rewrite Hpipes, lookup_insert_ne.
  - intros Hdone.
    destruct (tee_run_closed w sizes st σ pp Hp Hdone) as (σ' & pp' & Hrun & _).
    by exists σ'.
  - intros Ho Hpeer Hm. by apply (tee_run_unread w sizes st σ pp).
Qed.
End any_reader.

(** A body that breaks, read three times through a tee whose pipe has been
    closed by its reader: the reader of the body gets what the body
    returns.  And the sample body read through a tee whose pipe nobody
    reads from: the first read waits for ever. *)
Lemma tee_is_transparent_witness :
  pipes sample.σ_reader_gone !! 1%positive = Some (closeRead None new_pipe)
  ∧ read_all sample.broken_body [2; 0; 8] sample.σ_reader_gone
    = Ok ([(sample.bytes "ab", Some (ErrOther "connection reset by peer"));
           ([], Some (ErrOther "connection reset by peer"));
           (sample.bytes "abc", Some (ErrOther "connection reset by peer"))],
          sample.broken_body, sample.σ_reader_gone)
  ∧ (∃ σ',
       read_all (TeeTie (Some sample.broken_body) 1%positive) [2; 0; 8] sample.σ_reader_gone
       = Ok ([(sample.bytes "ab", Some (ErrOther "connection reset by peer"));
              ([], Some (ErrOther "connection reset by peer"));
              (sample.bytes "abc", Some (ErrOther "connection reset by peer"))],
             TeeTie (Some sample.broken_body) 1%positive, σ'))
  ∧ pipes sample.σ0 !! 1%positive = Some new_pipe
  ∧ read_all (TeeTie (Some sample.body) 1%positive) [4] sample.σ0 = Block.
Proof.
  split; [reflexivity|].
  destruct (tee_is_transparent [2; 0; 8]
              (netbody.MkFailing (sample.bytes "abc") (ErrOther "connection reset by peer"))
              1%positive sample.σ_reader_gone (closeRead None new_pipe) eq_refl)
    as (Hsrc & _ & _ & Hclosed & _).
  split; [exact Hsrc|]. split; [exact (Hclosed eq_refl)|]. split; [reflexivity|].
  destruct (tee_is_transparent [4]
              (netbody.MkChunked (sample.bytes "hello, shadow backend")
                 [(3, false); (100, true)] false)
              1%positive sample.σ0 new_pipe eq_refl)
    as (_ & _ & _ & _ & Hunread).
  apply Hunread; [reflexivity|reflexivity|]. vm_compute. discriminate.
Defined.

Section cloned.
Context {Regexp : Type} {E : regexp.Engine Regexp}.

(** The pipe of [cloneRequest] is the new pipe of [io.Pipe()]. *)
Lemma cloneRequest_pipe (t : @tee Regexp) (req clone req' : http.Request) (σ σ' : world) :
  cloneRequest t req σ = Ok (clone, req', σ') →
  pipes σ' = <[(Pipe σ).1 := new_pipe]> (pipes σ)
  ∧ req_Body req' = Some (TeeTie (req_Body req) (Pipe σ).1)
  ∧ req_Body clone = Some (PipeReader (Pipe σ).1)
  ∧ logs σ' = logs σ.
Proof.
  unfold cloneRequest. simpl. case_bool_decide.
  - destruct (rx t) as [re|]; [|done]. simpl.
    destruct (regexp.ReplaceAllString _ _ _); simpl; [|done|done].
    by intros [= <- <- <-].
  - by intros [= <- <- <-].
Qed.

Lemma with_reader_lookup (p : loc) (acts : list peer_action) (σ : world) (pp : pipe) :
  pipes σ !! p = Some pp →
  pipes (with_reader p acts σ) !! p = Some (MkPipe acts (p_recv pp) (p_werr pp) (p_rerr pp))
  ∧ logs (with_reader p acts σ) = logs σ.
Proof. intros Hp. unfold with_reader. simpl. by rewrite lookup_alter_eq, Hp. Qed.

Lemma PipeReader_Read_closed (p : loc) (n : nat) (σ : world) (pp : pipe) (e : error) :
  pipes σ !! p = Some pp → p_werr pp = Some e → p_rerr pp = None →
  Body_Read (PipeReader p) n σ = Ok (([], Some e), PipeReader p, σ).
Proof.
  intros Hp Hw Hr. simpl. rewrite Hp. simpl.
  unfold pipe_read, pipe_done, readCloseError. rewrite Hw, Hr. simpl.
  do 2 f_equal. destruct σ. unfold set_pipes. simpl in *. by rewrite insert_id.
Qed.

(** X10.  The clone's body gets the whole body.  After [cloneRequest] on
    a request with a body from the network, when the client of the shadow
    backend goes on reading the clone's body, the reads of the request's
    body through the tee return what the body returns; the client is
    handed exactly the bytes that the reader of the request has been
    given, in order, in reads that return bytes and no error; nothing is
    logged; and once the reader of the request has got end-of-stream, the
    client has been handed the whole body and its further reads return
    end-of-stream. *)
Theorem mirror_receives_body (t : @tee Regexp) (req clone req' : http.Request)
    (σ σ1 : world) (body : list byte) (plan : list (nat * bool)) (cl : bool)
    (sizes ks : list nat) (tl : list peer_action) :
  cloneRequest t req σ = Ok (clone, req', σ1) →
  req_Body req = Some (ExtBody (netbody.MkChunked body plan cl)) →
  Forall (λ k, 0 < k) ks →
  length body ≤ length ks →
  let p := (Pipe σ).1 in
  let results := (read_source (netbody.MkChunked body plan cl) sizes).1 in
  req_Body clone = Some (PipeReader p)
  ∧ pipes σ1 !! p = Some new_pipe
  ∧ ∃ tr tr' σ2 pp',
      req_Body req' = Some tr
      ∧ read_all tr sizes (with_reader p ((PeerRead <$> ks) ++ tl) σ1) = Ok (results, tr', σ2)
      ∧ pipes σ2 !! p = Some pp'
      ∧ received pp' = concat results.*1
      ∧ concat results.*1 `prefix_of` body
      ∧ Forall (λ c, c.1 ≠ [] ∧ c.2 = None) (p_recv pp')
      ∧ logs σ2 = logs σ1
      ∧ (Some EOF ∈ results.*2 →
         received pp' = body
         ∧ ∀ n, Body_Read (PipeReader p) n σ2 = Ok (([], Some EOF), PipeReader p, σ2)).
Proof.
  intros Hc Hb Hpos Hlen p results.
  destruct (cloneRequest_pipe _ _ _ _ _ _ Hc) as (Hp & Hreq & Hcl & _).
  fold p in Hp, Hreq, Hcl. rewrite Hb in Hreq.
  assert (pipes σ1 !! p = Some new_pipe) as Hp1 by (by rewrite Hp, lookup_insert_eq).
  destruct (with_reader_lookup p ((PeerRead <$> ks) ++ tl) σ1 new_pipe Hp1) as [Hpa Hla].
  simpl in Hpa.
  destruct (chunked_results sizes (netbody.MkChunked body plan cl))
    as (Hwell & Hcat & Hend & _).
  fold results in Hwell, Hcat, Hend. simpl in Hcat.
  pose proof (well_ended_mirrored results Hwell) as Hmir.
  assert (length (concat results.*1) ≤ length body) as Hle.
  { rewrite <- Hcat, length_app. lia. }
  destruct (tee_run_open p tl sizes (netbody.MkChunked body plan cl)
              (with_reader p ((PeerRead <$> ks) ++ tl) σ1)
              (MkPipe ((PeerRead <$> ks) ++ tl) [] None None) ks Hpa eq_refl eq_refl Hpos)
    as (σ2 & pp' & j & chunks & Hrun & Hp' & Hrecv & Hcc & Hall & _ & _
        & Hwerr & Hrerr & _ & _ & Hlogs).
  { fold results. rewrite Hmir. lia. }
  fold results in Hrun, Hcc, Hwerr, Hlogs. simpl in Hrecv.
  assert (received pp' = concat results.*1) as Hrec.
  { unfold received. by rewrite Hrecv, Hcc, Hmir. }
  split_and!; try done.
  eexists _, _, σ2, pp'. split_and!; try done.
  - by rewrite Hp', lookup_insert_eq.
  - rewrite <- Hcat. by apply prefix_app_r.
  - by rewrite Hrecv.
  - rewrite Hlogs by done. done.
  - intros Heof. rewrite (Hend Heof), app_nil_r in Hcat. split; [congruence|].
    intros n. apply (PipeReader_Read_closed p n σ2 pp').
    + by rewrite Hp', lookup_insert_eq.
    + rewrite Hwerr. by apply well_ended_first_error.
    + done.
Qed.

(** X11.  A body that is given up holds the clone up.  [teeTie.Close]
    does nothing, in particular not to the pipe.  So when the reader of
    the request stops before a read has returned an error or
    end-of-stream and closes the body, while the client of the shadow
    backend has taken what was read so far: the close returns nil and
    changes nothing, the pipe stays open, and the next read of the clone's
    body waits for ever. *)
Theorem abandoned_body_blocks_mirror {R : Type} {RC : ReadCloser R} (t : @tee Regexp)
    (req clone req' : http.Request) (σ σ1 : world) (st : R) (sizes ks : list nat)
    (tl : list peer_action) :
  cloneRequest t req σ = Ok (clone, req', σ1) →
  req_Body req = Some (ExtBody st) →
  Forall (λ r, r.2 = None) (read_source st sizes).1 →
  Forall (λ k, 0 < k) ks →
  length (concat (read_source st sizes).1.*1) ≤ length ks →
  let p := (Pipe σ).1 in
  ∃ tr tr' σ2 pp,
    req_Body req' = Some tr ∧ req_Body clone = Some (PipeReader p)
    ∧ read_all tr sizes (with_reader p ((PeerRead <$> ks) ++ tl) σ1)
      = Ok ((read_source st sizes).1, tr', σ2)
    ∧ Body_Close (Some tr') σ2 = Ok (None, Some tr', σ2)
    ∧ pipes σ2 !! p = Some pp ∧ pipe_done pp = false
    ∧ received pp = concat (read_source st sizes).1.*1
    ∧ ∀ n, Body_Read (PipeReader p) n σ2 = Block.
Proof.
  intros Hc Hb Hnone Hpos Hlen p.
  destruct (cloneRequest_pipe _ _ _ _ _ _ Hc) as (Hp & Hreq & Hcl & _).
  fold p in Hp, Hreq, Hcl. rewrite Hb in Hreq.
  assert (pipes σ1 !! p = Some new_pipe) as Hp1 by (by rewrite Hp, lookup_insert_eq).
  destruct (with_reader_lookup p ((PeerRead <$> ks) ++ tl) σ1 new_pipe Hp1) as [Hpa Hla].
  simpl in Hpa.
  destruct (clean_results _ Hnone) as (Hmir & Hfirst & _).
  destruct (tee_run_open p tl sizes st
              (with_reader p ((PeerRead <$> ks) ++ tl) σ1)
              (MkPipe ((PeerRead <$> ks) ++ tl) [] None None) ks Hpa eq_refl eq_refl Hpos)
    as (σ2 & pp & j & chunks & Hrun & Hp' & Hrecv & Hcc & Hall & _ & _
        & Hwerr & Hrerr & _).
  { by rewrite Hmir. }
  simpl in Hrecv.
  assert (pipe_done pp = false) as Hopen.
  { unfold pipe_done. by rewrite Hwerr, Hfirst, Hrerr. }
  eexists _, _, σ2, pp. split_and!; try done.
  - by rewrite Hp', lookup_insert_eq.
  - unfold received. by rewrite Hrecv, Hcc, Hmir.
  - intros n. simpl. rewrite Hp', lookup_insert_eq. simpl.
    unfold pipe_read. by rewrite Hopen.
Qed.

(** X12.  A nil body becomes a body that panics.  On a request without a body
    [cloneRequest] installs the tee all the same: the body of the request
    is not nil afterwards, and every read of it panics, the wrapped reader
    being nil. *)
Theorem nil_body_tee_panics (t : @tee Regexp) (req clone req' : http.Request)
    (σ σ1 : world) :
  cloneRequest t req σ = Ok (clone, req', σ1) →
  req_Body req = None →
  ∃ tr, req_Body req' = Some tr ∧ ∀ n σx, Body_Read tr n σx = Panic.
Proof.
  intros Hc Hb.
  destruct (cloneRequest_installs_tee _ _ _ _ _ _ Hc) as (p & _ & _ & Hreq & _).
  rewrite Hb in Hreq. by eexists.
Qed.
End cloned.
End tee_more.

(** The sample request through [tee("http://shadow.example:80")], read to
    its end in reads of 4, 0, 2, 64 and 64 bytes, while the client of the
    shadow backend reads the clone's body: the client is handed the 21
    bytes. *)
Lemma mirror_receives_body_witness :
  ∃ clone req' σ1,
    tee.cloneRequest sample.shadow sample.request sample.σ0 = Ok (clone, req', σ1)
    ∧ Forall (λ k, 0 < k) (replicate 32 8)
    ∧ req_Body clone = Some (PipeReader 2%positive)
    ∧ ∃ tr results tr' σ2 pp',
        req_Body req' = Some tr
        ∧ read_all tr [4; 0; 2; 64; 64] (with_reader 2%positive sample.reader σ1)
          = Ok (results, tr', σ2)
        ∧ pipes σ2 !! 2%positive = Some pp'
        ∧ Some EOF ∈ results.*2
        ∧ concat results.*1 = sample.bytes "hello, shadow backend"
        ∧ received pp' = sample.bytes "hello, shadow backend"
        ∧ logs σ2 = logs σ1
        ∧ ∀ n, tee.Body_Read (PipeReader 2%positive) n σ2
               = Ok (([], Some EOF), PipeReader 2%positive, σ2).
Proof.
  assert (Forall (λ k, 0 < k) (replicate 32 8)) as Hpos.
  { apply Forall_replicate. lia. }
  assert (∃ clone req' σ1,
             tee.cloneRequest sample.shadow sample.request sample.σ0 = Ok (clone, req', σ1))
    as (clone & req' & σ1 & Hc) by (vm_compute; eauto).
  exists clone, req', σ1. split; [exact Hc|]. split; [exact Hpos|].
  assert (length (sample.bytes "hello, shadow backend") ≤ length (replicate 32 8)) as Hlen.
  { vm_compute. repeat constructor. }
  destruct (mirror_receives_body sample.shadow sample.request clone req' sample.σ0 σ1
              (sample.bytes "hello, shadow backend") [(3, false); (100, true)] false
              [4; 0; 2; 64; 64] (replicate 32 8) [PeerClose None] Hc eq_refl Hpos Hlen)
    as (Hcl & _ & tr & tr' & σ2 & pp' & Hb & Hrun & Hp' & Hrec & _ & _ & Hlogs & Hdone).
  split; [exact Hcl|].
  assert (Some EOF
          ∈ (read_source (netbody.MkChunked (sample.bytes "hello, shadow backend")
                            [(3, false); (100, true)] false) [4; 0; 2; 64; 64]).1.*2)
    as Heof.
  { vm_compute. do 4 right. left. }
  destruct (Hdone Heof) as [Hall Hend].
  eexists tr, _, tr', σ2, pp'.
  split_and!; [exact Hb|exact Hrun|exact Hp'|exact Heof|vm_compute; reflexivity|
               exact Hall|exact Hlogs|exact Hend].
Defined.

(** The sample request, two reads of its body through the tee while the
    client of the shadow backend reads, then the close. *)
Lemma abandoned_body_blocks_mirror_witness :
  ∃ clone req' σ1,
    tee.cloneRequest sample.shadow sample.request sample.σ0 = Ok (clone, req', σ1)
    ∧ Forall (λ k, 0 < k) (replicate 32 8)
    ∧ ∃ tr tr' σ2 pp,
        req_Body req' = Some tr ∧ req_Body clone = Some (PipeReader 2%positive)
        ∧ read_all tr [4; 2] (with_reader 2%positive sample.reader σ1)
          = Ok ([(sample.bytes "hel", None); (sample.bytes "lo", None)], tr', σ2)
        ∧ tee.Body_Close (Some tr') σ2 = Ok (None, Some tr', σ2)
        ∧ pipes σ2 !! 2%positive = Some pp ∧ pipe_done pp = false
        ∧ received pp = sample.bytes "hello"
        ∧ ∀ n, tee.Body_Read (PipeReader 2%positive) n σ2 = Block.
Proof.
  assert (Forall (λ k, 0 < k) (replicate 32 8)) as Hpos.
  { apply Forall_replicate. lia. }
  assert (∃ clone req' σ1,
             tee.cloneRequest sample.shadow sample.request sample.σ0 = Ok (clone, req', σ1))
    as (clone & req' & σ1 & Hc) by (vm_compute; eauto).
  exists clone, req', σ1. split; [exact Hc|]. split; [exact Hpos|].
  apply (abandoned_body_blocks_mirror sample.shadow sample.request clone req' sample.σ0 σ1
           (netbody.MkChunked (sample.bytes "hello, shadow backend")
                              [(3, false); (100, true)] false) [4; 2]
           (replicate 32 8) [PeerClose None] Hc eq_refl).
  - repeat constructor.
  - exact Hpos.
  - vm_compute. repeat constructor.
Defined.

(** The sample request without its body. *)
Lemma nil_body_tee_panics_witness :
  ∃ clone req' σ1,
    tee.cloneRequest sample.shadow sample2.request_nobody sample.σ0 = Ok (clone, req', σ1)
    ∧ req_Body sample2.request_nobody = None
    ∧ ∃ tr, req_Body req' = Some tr ∧ ∀ n σx, tee.Body_Read tr n σx = Panic.
Proof.
  eexists _, _, _. split; [vm_compute; reflexivity|]. split; [reflexivity|].
  eapply (nil_body_tee_panics sample.shadow sample2.request_nobody _ _ sample.σ0);
    [vm_compute; reflexivity|reflexivity].
Defined.

Section tee_filter_more.
Import tee.
Context {Regexp : Type} {E : regexp.Engine Regexp}.
Variable url_Parse : string → URL + error.
Variable http_Client : Client.

(** X13.  What the clone is made of.  The clone that [cloneRequest] returns
    has the method, the protocol, the header, the content length, the
    remote address and the other fields of the request, and of its URL
    the user, the raw path, the query and the fragment; the host and the
    scheme are the filter's, the request URI is empty, and without a
    pattern the path is the request's.  The request is left with its
    body replaced and nothing else changed, and no array and no header
    map of the world is touched. *)
Theorem cloneRequest_clone_fields (t : @tee Regexp) (req clone req' : http.Request)
    (σ σ' : world) :
  cloneRequest t req σ = Ok (clone, req', σ') →
  cloned_fields req clone
  ∧ Host (req_URL clone) = host t ∧ Scheme (req_URL clone) = scheme t
  ∧ req_Host clone = host t ∧ req_RequestURI clone = ""%string
  ∧ (typ t ≠ pathModified → Path (req_URL clone) = Path (req_URL req))
  ∧ req' = set_req_Body (req_Body req') req
  ∧ arrays σ' = arrays σ ∧ hmaps σ' = hmaps σ.
Proof.
  unfold cloneRequest. simpl. case_bool_decide as Ht.
  - destruct (rx t) as [re|]; [|done]. simpl.
    destruct (regexp.ReplaceAllString _ _ _); simpl; [|done|done].
    intros [= <- <- <-]. by repeat split.
  - intros [= <- <- <-]. by repeat split.
Qed.

(** The search position of the replacement loop grows with every match
    of an engine that reports matches at or after the position it was
    asked for; so the loop ends. *)
Lemma replaceAll_loop_ends (re : Regexp) (src repl : list ascii) (fuel : nat) :
  engine_advances re →
  ∀ (lastMatchEnd searchPos : nat) (buf : list ascii),
    0 < fuel → length src + 2 ≤ fuel + searchPos →
    is_Some (regexp.replaceAll_loop fuel re src repl lastMatchEnd searchPos buf).
Proof.
  intros Hadv. induction fuel as [|fuel IH]; intros last pos buf Hpos Hfuel; [lia|].
  cbn [regexp.replaceAll_loop]. case_decide as Hle; [|done].
  destruct (regexp.doExecute re src pos) as [[[a0 a1] caps]|] eqn:Hex; [|done].
  pose proof (Hadv _ _ _ _ _ Hex) as Ha1.
  apply IH; [lia|]. repeat case_decide; lia.
Qed.

(** X14.  A filter that [CreateFilter] has made clones every request.  With
    such a filter [cloneRequest] does not panic: the pattern is there
    when the path is to be rewritten.  And it returns, when the engine
    reports its matches at or after the position it was asked to search
    from, as the library's does. *)
Theorem created_filter_clones (spec : teeSpec) (config : list iface) (t : @tee Regexp)
    (req : http.Request) (σ : world) :
  (CreateFilter url_Parse http_Client spec config).1 = Some t →
  cloneRequest t req σ ≠ Panic
  ∧ ((∀ re, rx t = Some re → engine_advances re) →
     ∃ clone req' σ', cloneRequest t req σ = Ok (clone, req', σ')).
Proof.
  intros Hcf.
  assert (typ t = pathModified → is_Some (rx t)) as Hrx.
  { revert Hcf. unfold CreateFilter.
    repeat (case_decide || case_match); simpl; intros; by simplify_eq/=. }
  unfold cloneRequest. simpl. case_bool_decide as Ht.
  - destruct (Hrx Ht) as [re Hre]. rewrite Hre. simpl. unfold regexp.ReplaceAllString.
    split.
    + by destruct (regexp.replaceAll_loop _ _ _ _ _ _ _).
    + intros Hadv.
      destruct (replaceAll_loop_ends re
                  (String.list_ascii_of_string (Path (set_url_Scheme (scheme t)
                     (set_url_Host (host t) (req_URL req)))))
                  (String.list_ascii_of_string (replacement t))
                  (length (String.list_ascii_of_string (Path (set_url_Scheme (scheme t)
                     (set_url_Host (host t) (req_URL req))))) + 2)
                  (Hadv re eq_refl) 0 0 []) as [out Hout]; [lia|lia|].
      simpl in Hout |- *. rewrite Hout. simpl. by eexists _, _, _.
  - split; [done|]. intros _. by eexists _, _, _.
Qed.

(** X15.  Which error [CreateFilter] returns.  An error of the URL parser is
    returned as it is, whatever the number and the types of the other
    parameters; so is an error of the compilation of the pattern, when
    there are three strings.  A parameter list that is empty, or whose
    first member is not a string, or whose URL parses and whose length is
    neither 1 nor 3, gets the error for invalid filter parameters; three
    parameters of which the second or the third is not a string get the
    error for an invalid configuration, which names the filter and
    carries the parameters. *)
Theorem CreateFilter_error_value (spec : teeSpec) (config : list iface) :
  let res := CreateFilter url_Parse http_Client spec config in
  (∀ backend err, config !! 0 = Some (IString backend) → url_Parse backend = inr err →
                  res = (None, Some err))
  ∧ ((∀ s, config !! 0 ≠ Some (IString s)) → res = (None, Some ErrInvalidFilterParameters))
  ∧ (∀ backend url, config !! 0 = Some (IString backend) → url_Parse backend = inl url →
       (length config ≠ 1 → length config ≠ 3 →
        res = (None, Some ErrInvalidFilterParameters))
       ∧ (length config = 3 →
          (∀ s, config !! 1 ≠ Some (IString s)) ∨ (∀ s, config !! 2 ≠ Some (IString s)) →
          res = (None, Some (ErrInvalidConfig Name config)))
       ∧ (∀ expr repl err, length config = 3 → config !! 1 = Some (IString expr) →
            config !! 2 = Some (IString repl) → regexp.Compile expr = inr err →
            res = (None, Some err))).
Proof.
  unfold CreateFilter, config_at. split_and!.
  - intros backend err H0 Hp. destruct config as [|c0 rest]; [done|].
    simpl in H0. simplify_eq. simpl. by rewrite Hp.
  - intros H0. destruct config as [|c0 rest]; [done|]. simpl.
    destruct c0; try done. by specialize (H0 s).
  - intros backend url H0 Hp. destruct config as [|c0 rest]; [done|].
    simpl in H0. simplify_eq. simpl. rewrite Hp. split_and!.
    + intros H1 H3. by repeat case_decide.
    + intros H3 Hbad. destruct rest as [|c1 [|c2 [|c3 rest]]]; try done. simpl.
      destruct Hbad as [Hbad|Hbad].
      * destruct c1; try done. by specialize (Hbad s).
      * destruct c1; try done. simpl. destruct c2; try done. by specialize (Hbad s0).
    + intros expr repl err H3 H1 H2 Hc.
      destruct rest as [|c1 [|c2 [|c3 rest]]]; try done. simpl in *. simplify_eq.
      simpl. by rewrite Hc.
Qed.
End tee_filter_more.

Lemma literal_find_from_ge (re : literal.Regexp) (rest : list ascii) :
  ∀ i j, literal.find_from re rest i = Some j → i ≤ j.
Proof.
  induction rest as [|c rest IH]; intros i j; simpl.
  - destruct (literal.matches_at re [] i); [|done]. intros [= <-]. lia.
  - destruct (literal.matches_at re (c :: rest) i); [intros [= <-]; lia|].
    intros H%IH. lia.
Qed.

(** The engine of the literal patterns reports matches from the search
    position on. *)
Lemma literal_engine_advances (re : literal.Regexp) : engine_advances re.
Proof.
  intros src pos a b caps. simpl. unfold literal.doExecute.
  case_decide; [|done].
  destruct (literal.find_from re (drop pos src) pos) as [i|] eqn:Hf; [|done].
  intros [= <- <- <-]. apply literal_find_from_ge in Hf. lia.
Qed.

(** The filter [tee("http://shadow.example", "^/v1/", "/v2/")], as
    [CreateFilter] makes it, on the sample request. *)
Lemma created_filter_clones_witness :
  ∃ t,
    (tee.CreateFilter sample2.parse sample.client_ok tee.NewTee sample2.config_v2).1 = Some t
    ∧ tee.cloneRequest t sample.request sample.σ0 ≠ Panic
    ∧ ∃ clone req' σ', tee.cloneRequest t sample.request sample.σ0 = Ok (clone, req', σ').
Proof.
  eexists. split; [vm_compute; reflexivity|].
  pose proof (created_filter_clones sample2.parse sample.client_ok tee.NewTee
                sample2.config_v2 _ sample.request sample.σ0 eq_refl) as [Hn Hok].
  split; [exact Hn|]. apply Hok. intros re _. apply literal_engine_advances.
Defined.

(** The sample request through [tee("http://shadow.example:80")]. *)
Lemma cloneRequest_clone_fields_witness :
  ∃ clone req' σ',
    tee.cloneRequest sample.shadow sample.request sample.σ0 = Ok (clone, req', σ')
    ∧ cloned_fields sample.request clone
    ∧ req_URL clone
      = MkURL "http" "" None "shadow.example:80" "/v1/items" "" "page=2&sort=/v1/" ""
    ∧ req_Host clone = "shadow.example:80"%string ∧ req_RequestURI clone = ""%string
    ∧ req_ContentLength clone = 21%Z ∧ req_Header clone = Some 1%positive
    ∧ req' = set_req_Body (req_Body req') sample.request.
Proof.
  assert (∃ clone req' σ',
             tee.cloneRequest sample.shadow sample.request sample.σ0 = Ok (clone, req', σ'))
    as (clone & req' & σ' & Hc) by (vm_compute; eauto).
  exists clone, req', σ'. split; [exact Hc|].
  destruct (cloneRequest_clone_fields sample.shadow sample.request clone req'
              sample.σ0 σ' Hc) as (Hf & Hh & Hs & Hrh & Hu & Hp & Hr & _).
  split; [exact Hf|]. split_and!; try done.
  - destruct Hf as (_ & _ & _ & _ & _ & _ & _ & _ & _ & _ & Ho & Hus & Hrp & Hq & Hfr).
    specialize (Hp ltac:(done)).
    destruct (req_URL clone); simpl in *. by subst.
  - destruct Hf as (_ & _ & _ & _ & _ & -> & _). done.
  - destruct Hf as (_ & _ & _ & _ & -> & _). done.
Defined.

Section cloneHeader_more.
Import tee.

Lemma cloneHeader_value_prints (l : loc) (n : string) (hi : slice) (i : nat) (σ : world) :
  ∃ σ', cloneHeader_value (Some l) n hi i σ = Ok σ'
        ∧ stderr σ' = stderr σ ++ ["cloning"%string].
Proof.
  unfold cloneHeader_value.
  destruct (append _ _ _) as [s σ2] eqn:Ha. simpl. eexists. split; [done|].
  revert Ha. unfold append.
  destruct (header_get _ _ _) as [|a off len cap]; [|case_decide]; by intros [= <- <-].
Qed.

Lemma cloneHeader_values_print (l : loc) (n : string) (hi : slice) (idx : list nat) :
  ∀ σ, ∃ σ', for_each (cloneHeader_value (Some l) n hi) idx σ = Ok σ'
             ∧ stderr σ' = stderr σ ++ replicate (length idx) "cloning"%string.
Proof.
  induction idx as [|i idx IH]; intros σ.
  - exists σ. simpl. by rewrite app_nil_r.
  - destruct (cloneHeader_value_prints l n hi i σ) as (σ1 & H1 & He1).
    destruct (IH σ1) as (σ' & H' & He').
    exists σ'. simpl. rewrite H1. simpl. split; [done|].
    by rewrite He', He1, <- app_assoc.
Qed.

(** The loop of [cloneHeader] writes one line for every value it visits. *)
Lemma cloneHeader_entries_print (l : loc) (order : list (string * slice)) :
  ∀ σ, ∃ σ', for_each (cloneHeader_entry (Some l)) order σ = Ok σ'
             ∧ stderr σ'
               = stderr σ
                 ++ replicate (sum_list_with (λ e, slice_len e.2) order) "cloning"%string.
Proof.
  induction order as [|[n hi] order IH]; intros σ.
  - exists σ. simpl. by rewrite app_nil_r.
  - cbn [for_each]. unfold cloneHeader_entry at 1. simpl.
    destruct (cloneHeader_values_print l n hi (seq 0 (slice_len hi))
                (set_hmaps (alter (insert n (Slice (fresh (dom (arrays σ))) 0 0 (slice_len hi))) l)
                   (set_arrays (insert (fresh (dom (arrays σ)))
                                  (replicate (slice_len hi) ""%string)) σ)))
      as (σ1 & H1 & He1).
    rewrite H1. simpl. destruct (IH σ1) as (σ' & H' & He').
    exists σ'. split; [done|].
    rewrite He', He1. simpl. by rewrite length_seq, <- app_assoc, replicate_add.
Qed.

(** X16.  [cloneHeader] copies deeply, and says so on standard error.  On a
    header whose value lists lie within their arrays [cloneHeader]
    returns a new header map that reads as the original, key by key and
    value by value; the map and the arrays behind its values are objects
    that did not exist before the call, and the objects that did are left
    as they were, so that the original reads the same afterwards.  For
    every value copied the line [cloning] is written to standard error,
    and nothing else is. *)
Theorem cloneHeader_spec (σ : world) (h : Header) :
  slices_in_bounds σ h →
  ∃ l σ',
    cloneHeader h σ = Ok (Some l, σ')
    ∧ hmaps σ !! l = None
    ∧ (∀ k a off len cap,
         header_map σ' (Some l) !! k = Some (Slice a off len cap) → arrays σ !! a = None)
    ∧ header_view σ' (Some l) = header_view σ h
    ∧ header_view σ' h = header_view σ h
    ∧ (∀ l0 m, hmaps σ !! l0 = Some m → hmaps σ' !! l0 = Some m)
    ∧ (∀ a c, arrays σ !! a = Some c → arrays σ' !! a = Some c)
    ∧ stderr σ'
      = stderr σ
        ++ replicate (sum_list_with (λ e, length e.2) (map_to_list (header_view σ h)))
                     "cloning"%string
    ∧ pipes σ' = pipes σ ∧ logs σ' = logs σ.
Proof.
  intros Hwf. unfold cloneHeader.
  destruct (cloneHeader_deep_copy σ h (map_to_list (header_map σ h)) ltac:(done) Hwf)
    as (l & σ' & Hrun & Hfresh & Hnew & Hview & Hm & Ha & _ & Hold & Hp & Hl).
  destruct (cloneHeader_entries_print (fresh (dom (hmaps σ)))
              (map_to_list (header_map σ h))
              (set_hmaps (insert (fresh (dom (hmaps σ))) ∅) σ)) as (σ2 & H2 & He2).
  assert (σ2 = σ' ∧ l = fresh (dom (hmaps σ))) as [-> Hleq].
  { unfold cloneHeader_in, make_Header in Hrun. cbv beta zeta iota in Hrun.
    rewrite H2 in Hrun. simpl in Hrun. by simplify_eq. }
  exists l, σ'. split_and!; try done.
  - destruct h as [l0|]; [|done].
    destruct (hmaps σ !! l0) as [m|] eqn:Hl0.
    + apply Hold; [done|done|]. intros ? [= <-]. by eexists.
    + assert (header_map σ (Some l0) = ∅) as Hempty.
      { unfold header_map. by rewrite Hl0. }
      rewrite Hempty, map_to_list_empty in H2. simpl in H2. injection H2 as <-.
      unfold header_view, header_map. simpl. rewrite Hl0. simpl.
      destruct (decide (l0 = fresh (dom (hmaps σ)))) as [->|Hne].
      * by rewrite lookup_insert_eq.
      * by rewrite lookup_insert_ne, Hl0.
  - rewrite He2. simpl. f_equal. f_equal.
    unfold header_view. rewrite map_to_list_fmap.
    assert (Forall (λ e, length (slice_elems σ e.2) = slice_len e.2)
                   (map_to_list (header_map σ h))) as Hall.
    { apply Forall_forall. intros [k s] Hin%elem_of_map_to_list. by apply (Hwf k). }
    clear -Hall. induction Hall as [|[k s] rest Hhd _ IH]; [done|].
    simpl in *. by rewrite Hhd, IH.
Qed.
End cloneHeader_more.

Lemma sample_slices_in_bounds : slices_in_bounds sample.σ0 (Some 1%positive).
Proof.
  intros k s Hk.
  assert (map_Forall (λ _ s, length (slice_elems sample.σ0 s) = slice_len s)
                     (header_map sample.σ0 (Some 1%positive))) as Hall.
  { apply map_Forall_to_list. vm_compute. repeat constructor. }
  exact (Hall k s Hk).
Qed.

(** The header of the sample request, two values under [Accept] and one
    under [X-Trace]: three lines are written. *)
Lemma cloneHeader_spec_witness :
  slices_in_bounds sample.σ0 (Some 1%positive)
  ∧ ∃ l σ',
      tee.cloneHeader (Some 1%positive) sample.σ0 = Ok (Some l, σ')
      ∧ hmaps sample.σ0 !! l = None
      ∧ header_view σ' (Some l) = header_view sample.σ0 (Some 1%positive)
      ∧ header_view σ' (Some 1%positive) = header_view sample.σ0 (Some 1%positive)
      ∧ stderr σ' = ["cloning"; "cloning"; "cloning"]%string.
Proof.
  split; [exact sample_slices_in_bounds|].
  destruct (cloneHeader_spec sample.σ0 (Some 1%positive) sample_slices_in_bounds)
    as (l & σ' & Hrun & Hfresh & _ & Hview & Hold & _ & _ & Herr & _).
  exists l, σ'. split_and!; [exact Hrun|exact Hfresh|exact Hview|exact Hold|].
  rewrite Herr. vm_compute. reflexivity.
Defined.
